(** * QMikrotikAPI: the protocol engine of [ROS::Comm]

    A shallow embedding of [Comm.h] and of the implementation of
    [ROS::Comm] (length codec, word framer, sentence assembler, login
    machine, sentence sender, connection handling), followed by the
    properties of the specification that were checked against it.

    Conventions of the embedding:
    - a C++ [char] is its octet, a [Byte.byte]; [int] is a [Z] kept in the
      32-bit signed range, with [int_wrap] where the source can leave it;
    - the four bytes behind [(char * )&wordLength] and [(int * )lengthData]
      are a four-element list in address order, for either byte order;
    - a method of [Comm] is a function from the object (with the function
      static [ID] and the log of emitted signals) to a [Result]: a normal
      return, a C++ [throw], or the end of the program where the C
      allocator is given a block back twice, each carrying the object as
      the call left it;
    - the classes that are not part of the translation unit, [QSentence] and
      [QMD5], and the [QTcpSocket] are modelled by their interface. *)

From Stdlib Require Import String Ascii.
From Stdlib.Strings Require Import Byte.
From Stdlib Require Import Decimal DecimalString DecimalZ.
From Stdlib Require Import ZArith List Lia Bool.
Import ListNotations.
Local Open Scope Z_scope.

(** ** Octets, [int] and the memory of an [int] *)

Definition octet (b : byte) : Z := Z.of_N (Byte.to_N b).

Definition to_char (z : Z) : byte :=
  match Byte.of_N (Z.to_N (z mod 256)) with
  | Some b => b
  | None => x00
  end.

Definition INT_MAX : Z := 2147483647.
Definition INT_MIN : Z := -2147483648.

(** Two's complement wrap-around of a 32-bit signed integer. *)
Definition int_wrap (z : Z) : Z := (z + 2 ^ 31) mod 2 ^ 32 - 2 ^ 31.

Inductive ByteOrder : Set := Q_LITTLE_ENDIAN | Q_BIG_ENDIAN.

(** [(char * )&n]: the bytes of the [int] [n] in address order. *)
Definition int_bytes (bo : ByteOrder) (n : Z) : list byte :=
  let b k := to_char (Z.shiftr n (8 * k)) in
  match bo with
  | Q_LITTLE_ENDIAN => [b 0; b 1; b 2; b 3]
  | Q_BIG_ENDIAN => [b 3; b 2; b 1; b 0]
  end.

(** [lengthData[i]] *)
Definition at_ (m : list byte) (i : nat) : byte := nth i m x00.

(** [lengthData[i] = v] *)
Fixpoint store (m : list byte) (i : nat) (v : byte) : list byte :=
  match m, i with
  | [], _ => []
  | _ :: m', O => v :: m'
  | b :: m', S i' => b :: store m' i' v
  end.

(** [*(int * )lengthData] *)
Definition bytes_int (bo : ByteOrder) (m : list byte) : Z :=
  let g i := octet (at_ m i) in
  int_wrap
    match bo with
    | Q_LITTLE_ENDIAN =>
        g 0%nat + Z.shiftl (g 1%nat) 8 + Z.shiftl (g 2%nat) 16 + Z.shiftl (g 3%nat) 24
    | Q_BIG_ENDIAN =>
        g 3%nat + Z.shiftl (g 2%nat) 8 + Z.shiftl (g 1%nat) 16 + Z.shiftl (g 0%nat) 24
    end.

(** [calloc(sizeof(int), 1)] *)
Definition calloc_int : list byte := [x00; x00; x00; x00].

(** [a | k] and [a & k] on a [char] and an [int] constant, stored back in a
    [char]. *)
Definition char_or (a : byte) (k : Z) : byte := to_char (Z.lor (octet a) k).
Definition char_and (a : byte) (k : Z) : byte := to_char (Z.land (octet a) k).

(** ** Strings *)

(** A [QString] is its sequence of UTF-16 code units. *)
Definition QChar := N.
Definition QString := list QChar.
Definition QByteArray := list byte.

(** A string literal of the source. *)
Definition QS (s : string) : QString := map N_of_ascii (list_ascii_of_string s).

(** [QString::toLatin1]: a code unit above 0xFF becomes ['?']. *)
Definition toLatin1_char (c : QChar) : byte :=
  match Byte.of_N c with
  | Some b => b
  | None => x3f
  end.
Definition toLatin1 (s : QString) : QByteArray := map toLatin1_char s.

(** [s.count()] *)
Definition count {A} (s : list A) : Z := Z.of_nat (length s).

(** [s.isEmpty()] *)
Definition isEmpty {A} (s : list A) : bool :=
  match s with [] => true | _ => false end.

(** [QString(fmt).arg(a)] for the formats of the source, whose only place
    marker is [%1]. *)
Fixpoint arg (fmt : QString) (a : QString) : QString :=
  match fmt with
  | [] => []
  | c :: rest =>
      match rest with
      | d :: rest' =>
          if (c =? 37)%N && (d =? 49)%N then a ++ arg rest' a
          else c :: arg rest a
      | [] => [c]
      end
  end.

(** [QString("%1").arg(n)] for an [int]: the decimal numeral. *)
Definition number (n : Z) : QString := QS (NilZero.string_of_int (Z.to_int n)).

(** The NUL-terminated string behind [ba.data()], as [strlen] and the
    functions reading a C string see it. *)
Fixpoint c_str (ba : QByteArray) : list byte :=
  match ba with
  | [] => []
  | b :: ba' => if Byte.eqb b x00 then [] else b :: c_str ba'
  end.

Definition strlen (ba : QByteArray) : nat := length (c_str ba).

(** ** The transport: [QTcpSocket] by its contract

    [rx] holds the bytes that [read] can return now, [tx] every byte handed
    to [write], in order, and [bytesToWrite] how many of those the socket
    still buffers. *)

Inductive SocketState : Set :=
| UnconnectedState | HostLookupState | ConnectingState | ConnectedState
| BoundState | ListeningState | ClosingState.

Definition SocketState_eqb (a b : SocketState) : bool :=
  match a, b with
  | UnconnectedState, UnconnectedState | HostLookupState, HostLookupState
  | ConnectingState, ConnectingState | ConnectedState, ConnectedState
  | BoundState, BoundState | ListeningState, ListeningState
  | ClosingState, ClosingState => true
  | _, _ => false
  end.

Record QTcpSocket : Type := mkSocket {
  state : SocketState;
  rx : list byte;
  tx : list byte;
  bytesToWrite : Z
}.

(** [read(&c, 1)]: the byte read, or nothing when no byte is available (the
    call returns 0). *)
Definition socket_read1 (s : QTcpSocket) : option byte * QTcpSocket :=
  match rx s with
  | [] => (None, s)
  | b :: rest => (Some b, mkSocket (state s) rest (tx s) (bytesToWrite s))
  end.

(** [read(maxSize)]: at most [maxSize] of the available bytes. *)
Definition socket_read (maxSize : Z) (s : QTcpSocket) : QByteArray * QTcpSocket :=
  let n := Z.to_nat maxSize in
  (firstn n (rx s), mkSocket (state s) (skipn n (rx s)) (tx s) (bytesToWrite s)).

(** [write(data)] *)
Definition socket_write (data : list byte) (s : QTcpSocket) : QTcpSocket :=
  mkSocket (state s) (rx s) (tx s ++ data) (bytesToWrite s + count data).

Definition socket_set_state (st : SocketState) (s : QTcpSocket) : QTcpSocket :=
  mkSocket st (rx s) (tx s) (bytesToWrite s).

(** ** The enumerations of [Comm.h] *)

Inductive CommState : Set := Unconnected | HostLookup | Connecting | Connected | Closing.

Inductive LoginState : Set := NoLoged | LoginRequested | UserPassSended | LogedIn.

Definition LoginState_eqb (a b : LoginState) : bool :=
  match a, b with
  | NoLoged, NoLoged | LoginRequested, LoginRequested
  | UserPassSended, UserPassSended | LogedIn, LogedIn => true
  | _, _ => false
  end.

(** ** The sentence collaborator

    [QSentences.h] is not part of the translation unit: the engine is
    parametric in the sentence class and uses only these members. *)
Class SentenceAPI : Type := {
  QSentence : Type;
  (** [QSentence(cmd)] *)
  QSentence_ctor : QString -> QSentence;
  (** [sent.command()] *)
  command : QSentence -> QString;
  (** [sent.attributes().toWords()] and its two siblings *)
  attributes_toWords : QSentence -> list QString;
  APIattributes_toWords : QSentence -> list QString;
  queries_toWords : QSentence -> list QString;
  (** [sent.tag()] *)
  tag : QSentence -> QString;
  (** [sent.getResultType() == QSentence::Done] *)
  resultType_is_Done : QSentence -> bool;
  (** [sent.attributes().count()] *)
  attributes_count : QSentence -> Z;
  (** [sent.attributes().attribute(name)] *)
  attribute : QSentence -> QString -> QString;
  (** [sent.addWord(word)] *)
  addWord : QSentence -> QByteArray -> QSentence;
  (** [sent.clear()] *)
  clear : QSentence -> QSentence
}.

(** ** The hash collaborator

    Modelled from the spec: [QMD5.h] is not part of the translation unit.
    The spec gives the primitive as [init/append/finish], equivalent to a
    one-shot digest of the bytes appended, and hex helpers for the
    32-character challenge and response fields. *)

(** Modelled from the spec: the state of a digest in progress is the
    sequence of bytes appended so far. *)
Definition md5_state_t := list byte.

(** Modelled from the spec: [QMD5::init]. *)
Definition QMD5_init : md5_state_t := [].

(** Modelled from the spec: [QMD5::append(&state, data, nbytes)] appends
    the first [nbytes] bytes at [data]. *)
Definition QMD5_append (st : md5_state_t) (data : list byte) (nbytes : nat) : md5_state_t :=
  st ++ firstn nbytes data.

(** Modelled from the spec: [QMD5::finish(&state, digest)] stores the
    digest of the bytes appended. *)
Definition QMD5_finish (MD5 : list byte -> list byte) (st : md5_state_t) : list byte :=
  MD5 st.

Definition hex_value (c : QChar) : N :=
  if ((48 <=? c) && (c <=? 57))%N then c - 48
  else if ((97 <=? c) && (c <=? 102))%N then c - 87
  else if ((65 <=? c) && (c <=? 70))%N then c - 55
  else 0.

Definition is_hex (c : QChar) : bool :=
  (((48 <=? c) && (c <=? 57)) || ((97 <=? c) && (c <=? 102))
   || ((65 <=? c) && (c <=? 70)))%N.

(** Modelled from the spec: [QMD5::ToBinary] decodes the hex characters,
    two for each byte; the bytes are the code units of the result. *)
Fixpoint QMD5_ToBinary (s : QString) : QString :=
  match s with
  | hi :: lo :: rest => (16 * hex_value hi + hex_value lo)%N :: QMD5_ToBinary rest
  | _ => []
  end.

Definition hex_digit (n : N) : QChar := if (n <? 10)%N then (48 + n)%N else (87 + n)%N.

(** Modelled from the spec: [QMD5::DigestToHexString] spells each byte of
    the digest as two lowercase hex characters. *)
Definition QMD5_DigestToHexString (digest : list byte) : QString :=
  flat_map (fun b => [hex_digit (Byte.to_N b / 16); hex_digit (Byte.to_N b mod 16)]) digest.

(** ** The class [Comm] *)

Section Comm.

Context {sentenceAPI : SentenceAPI}.

(** [Q_BYTE_ORDER] of the build. *)
Variable Q_BYTE_ORDER : ByteOrder.

(** The digest function behind [QMD5::init/append/finish]. *)
Variable MD5 : list byte -> list byte.

(** The slot connected to [loginRequest(QString *user, QString *pass)]: what
    the caller leaves behind the two pointers. *)
Variable loginRequest_slot : QString * QString -> QString * QString.

Inductive Signal : Type :=
| comError (error : QString)
| loginRequest
| comReceive (s : QSentence)
| comStateChanged (s : CommState)
| loginStateChanged (s : LoginState).

(** The members of [Comm], the function static [ID] of [sendSentence] and
    the signals emitted so far, oldest first. The static is shared by the
    objects of a program; it is kept with the object because the
    development follows one connection. *)
Record Comm : Type := mkComm {
  m_sock : QTcpSocket;
  m_Username : QString;
  m_Password : QString;
  incomingWord : QByteArray;
  incomingSentence : QSentence;
  sentenceCompleted : bool;
  m_loginState : LoginState;
  incomingWordSize : Z;
  ID : Z;
  emitted : list Signal
}.

(** [Comm::Comm]: [sentenceCompleted] is left uninitialised by the
    constructor, [ID] starts at 0 with the program. *)
Definition Comm_ctor (indeterminate : bool) : Comm :=
  mkComm (mkSocket UnconnectedState [] [] 0) [] [] [] (QSentence_ctor [])
         indeterminate NoLoged (-1) 0 [].

Definition set_m_sock (v : QTcpSocket) (c : Comm) : Comm :=
  mkComm v (m_Username c) (m_Password c) (incomingWord c) (incomingSentence c)
         (sentenceCompleted c) (m_loginState c) (incomingWordSize c) (ID c) (emitted c).
Definition set_credentials (v : QString * QString) (c : Comm) : Comm :=
  mkComm (m_sock c) (fst v) (snd v) (incomingWord c) (incomingSentence c)
         (sentenceCompleted c) (m_loginState c) (incomingWordSize c) (ID c) (emitted c).
Definition set_incomingWord (v : QByteArray) (c : Comm) : Comm :=
  mkComm (m_sock c) (m_Username c) (m_Password c) v (incomingSentence c)
         (sentenceCompleted c) (m_loginState c) (incomingWordSize c) (ID c) (emitted c).
Definition set_incomingSentence (v : QSentence) (c : Comm) : Comm :=
  mkComm (m_sock c) (m_Username c) (m_Password c) (incomingWord c) v
         (sentenceCompleted c) (m_loginState c) (incomingWordSize c) (ID c) (emitted c).
Definition set_sentenceCompleted (v : bool) (c : Comm) : Comm :=
  mkComm (m_sock c) (m_Username c) (m_Password c) (incomingWord c) (incomingSentence c)
         v (m_loginState c) (incomingWordSize c) (ID c) (emitted c).
Definition set_m_loginState (v : LoginState) (c : Comm) : Comm :=
  mkComm (m_sock c) (m_Username c) (m_Password c) (incomingWord c) (incomingSentence c)
         (sentenceCompleted c) v (incomingWordSize c) (ID c) (emitted c).
Definition set_incomingWordSize (v : Z) (c : Comm) : Comm :=
  mkComm (m_sock c) (m_Username c) (m_Password c) (incomingWord c) (incomingSentence c)
         (sentenceCompleted c) (m_loginState c) v (ID c) (emitted c).
Definition set_ID (v : Z) (c : Comm) : Comm :=
  mkComm (m_sock c) (m_Username c) (m_Password c) (incomingWord c) (incomingSentence c)
         (sentenceCompleted c) (m_loginState c) (incomingWordSize c) v (emitted c).
Definition set_emitted (v : list Signal) (c : Comm) : Comm :=
  mkComm (m_sock c) (m_Username c) (m_Password c) (incomingWord c) (incomingSentence c)
         (sentenceCompleted c) (m_loginState c) (incomingWordSize c) (ID c) v.

(** *** Methods as computations on the object *)

(** How a call ends: it returns, it throws, or the program is ended in
    it ([abort()] of the C library, which is not an exception and which no
    caller outlives). *)
Inductive Result (A : Type) : Type :=
| Ret (a : A) (c : Comm)
| Throw (what : string) (c : Comm)
| Aborted (c : Comm).
Arguments Ret {A} a c.
Arguments Throw {A} what c.
Arguments Aborted {A} c.

Definition M (A : Type) : Type := Comm -> Result A.

Definition ret {A} (a : A) : M A := fun c => Ret a c.
Definition throw {A} (what : string) : M A := fun c => Throw what c.
Definition abort_program {A} : M A := fun c => Aborted c.
Definition bind {A B} (m : M A) (k : A -> M B) : M B :=
  fun c => match m c with
           | Ret a c' => k a c'
           | Throw what c' => Throw what c'
           | Aborted c' => Aborted c'
           end.
Definition get : M Comm := fun c => Ret c c.
Definition modify (f : Comm -> Comm) : M unit := fun c => Ret tt (f c).

Notation "x <- m ;; k" := (bind m (fun x => k))
  (at level 61, m at next level, right associativity).
Notation "m ;; k" := (bind m (fun _ => k))
  (at level 61, right associativity).

(** The object a call leaves behind, however it ends. *)
Definition final {A} (r : Result A) : Comm :=
  match r with Ret _ c => c | Throw _ c => c | Aborted c => c end.

(** The value a call returns, when it returns. *)
Definition returned {A} (r : Result A) : option A :=
  match r with Ret a _ => Some a | Throw _ _ => None | Aborted _ => None end.

(** [foreach( word, words ) body(word);] *)
Fixpoint foreach {A} (words : list A) (body : A -> M unit) : M unit :=
  match words with
  | [] => ret tt
  | w :: rest => body w ;; foreach rest body
  end.

Definition emit (s : Signal) : M unit :=
  modify (fun c => set_emitted (emitted c ++ [s]) c).

Definition m_sock_write (data : list byte) : M unit :=
  modify (fun c => set_m_sock (socket_write data (m_sock c)) c).

Definition m_sock_read1 : M (option byte) :=
  fun c => let (r, s) := socket_read1 (m_sock c) in Ret r (set_m_sock s c).

Definition m_sock_read (maxSize : Z) : M QByteArray :=
  fun c => let (r, s) := socket_read maxSize (m_sock c) in Ret r (set_m_sock s c).

(** [isConnected], [isLoged], [isClosing], [isConnecting] of [Comm.h] *)
Definition isConnected (c : Comm) : bool :=
  SocketState_eqb (state (m_sock c)) ConnectedState.
Definition isLoged (c : Comm) : bool :=
  isConnected c && LoginState_eqb (m_loginState c) LogedIn.
Definition isClosing (c : Comm) : bool :=
  SocketState_eqb (state (m_sock c)) ClosingState.
Definition isConnecting (c : Comm) : bool :=
  SocketState_eqb (state (m_sock c)) ConnectingState.

(** *** [Comm::writeLength]

    [encodedLengthData] is the part of the static buffer of that name
    that the taken branch fills and writes; the last branch fills nothing
    and throws. *)
Definition encodedLengthData (wordLength : Z) : option (list byte) :=
  let lengthData := int_bytes Q_BYTE_ORDER wordLength in
  if wordLength <? 0x80 then
    Some [at_ lengthData 0]
  else if wordLength <? 0x4000 then
    match Q_BYTE_ORDER with
    | Q_LITTLE_ENDIAN =>
        Some [char_or (at_ lengthData 1) 0x80; at_ lengthData 0]
    | Q_BIG_ENDIAN =>
        Some [char_or (at_ lengthData 2) 0x80; at_ lengthData 3]
    end
  else if wordLength <? 0x200000 then
    match Q_BYTE_ORDER with
    | Q_LITTLE_ENDIAN =>
        Some [char_or (at_ lengthData 2) 0xc0; at_ lengthData 1; at_ lengthData 0]
    | Q_BIG_ENDIAN =>
        Some [char_or (at_ lengthData 1) 0xc0; at_ lengthData 2; at_ lengthData 3]
    end
  else if wordLength <? 0x10000000 then
    match Q_BYTE_ORDER with
    | Q_LITTLE_ENDIAN =>
        Some [char_or (at_ lengthData 3) 0xe0; at_ lengthData 2;
              at_ lengthData 1; at_ lengthData 0]
    | Q_BIG_ENDIAN =>
        Some [char_or (at_ lengthData 0) 0xe0; at_ lengthData 1;
              at_ lengthData 2; at_ lengthData 3]
    end
  else
    None.

Definition writeLength (wordLength : Z) : M unit :=
  match encodedLengthData wordLength with
  | Some data => m_sock_write data
  | None => throw "Word too long"
  end.

(** *** [Comm::sendWord] *)
Definition sendWord (word : QString) : M unit :=
  writeLength (count word) ;;
  m_sock_write (toLatin1 word).

(** *** [Comm::sendSentence] *)
Definition sendSentence (sent : QSentence) (addTag : bool) : M QString :=
  sendWord (command sent) ;;
  foreach (attributes_toWords sent) sendWord ;;
  foreach (APIattributes_toWords sent) sendWord ;;
  foreach (queries_toWords sent) sendWord ;;
  word <- (if addTag then
             word <- (if isEmpty (tag sent) then
                        modify (fun c => set_ID (int_wrap (ID c + 1)) c) ;;
                        c <- get ;;
                        ret (number (ID c))
                      else ret (tag sent)) ;;
             sendWord (arg (QS ".tag=%1") word) ;;
             ret word
           else ret []) ;;
  sendWord [] ;;
  ret word.

(** *** [Comm::setLoginState] *)
Definition setLoginState (s : LoginState) : M unit :=
  c <- get ;;
  if negb (LoginState_eqb s (m_loginState c)) then
    modify (set_m_loginState s) ;;
    emit (loginStateChanged s)
  else
    modify (set_m_loginState s).

(** *** [Comm::onSocketStateChanges] *)
Definition onSocketStateChanges (s : SocketState) : M unit :=
  match s with
  | UnconnectedState => emit (comStateChanged Unconnected)
  | HostLookupState => emit (comStateChanged HostLookup)
  | ConnectingState => emit (comStateChanged Connecting)
  | ConnectedState =>
      emit (comStateChanged Connected) ;;
      setLoginState NoLoged ;;
      emit loginRequest ;;
      modify (fun c => set_credentials (loginRequest_slot (m_Username c, m_Password c)) c) ;;
      setLoginState LoginRequested ;;
      modify (fun c => set_incomingSentence (clear (incomingSentence c)) c) ;;
      sendSentence (QSentence_ctor (QS "/login")) false ;;
      ret tt
  | BoundState => ret tt
  | ClosingState => emit (comStateChanged Closing)
  | ListeningState => ret tt
  end.

(** *** The socket calls that change its state

    A change of state is notified through [stateChanged], which is
    connected to [onSocketStateChanges] and runs it before the call
    returns. *)

Definition m_sock_enter (st : SocketState) : M unit :=
  modify (fun c => set_m_sock (socket_set_state st (m_sock c)) c) ;;
  onSocketStateChanges st.

(** [m_sock.abort()]: drops what is buffered and resets the socket. *)
Definition m_sock_abort : M unit :=
  c <- get ;;
  match state (m_sock c) with
  | UnconnectedState => ret tt
  | st =>
      modify (fun c => set_m_sock (mkSocket st [] (tx (m_sock c)) 0) c) ;;
      m_sock_enter UnconnectedState
  end.

(** [m_sock.disconnectFromHost()]: enters [ClosingState], and
    [UnconnectedState] once nothing is left to write; while the
    connection is still being set up the socket only notes the request. *)
Definition m_sock_disconnectFromHost : M unit :=
  c <- get ;;
  match state (m_sock c) with
  | UnconnectedState | HostLookupState | ConnectingState => ret tt
  | st =>
      (if SocketState_eqb st ClosingState then ret tt else m_sock_enter ClosingState) ;;
      c <- get ;;
      if bytesToWrite (m_sock c) =? 0 then m_sock_enter UnconnectedState else ret tt
  end.

(** [m_sock.close()]: closes the device, which drops the bytes not yet
    read, and disconnects from the host. *)
Definition m_sock_close : M unit :=
  modify (fun c => set_m_sock (mkSocket (state (m_sock c)) [] (tx (m_sock c))
                                        (bytesToWrite (m_sock c))) c) ;;
  m_sock_disconnectFromHost.

(** The socket has written what it buffered; a socket that was closing
    for that is then unconnected. *)
Definition m_sock_bytesWritten : M unit :=
  modify (fun c => set_m_sock (mkSocket (state (m_sock c)) (rx (m_sock c))
                                        (tx (m_sock c)) 0) c) ;;
  c <- get ;;
  if SocketState_eqb (state (m_sock c)) ClosingState
  then m_sock_enter UnconnectedState
  else ret tt.

(** *** [Comm::closeCom] *)
Definition closeCom (force : bool) : M unit :=
  c <- get ;;
  if isConnected c then
    if force then
      m_sock_abort ;;
      m_sock_close ;;
      emit (comStateChanged Unconnected) ;;
      emit (comError (QS "forced abort/close on socket"))
    else
      m_sock_disconnectFromHost
  else ret tt.

(** *** [Comm::readLength]

    [lengthData] points to the block of four zero bytes that [calloc]
    gives. [messageLength] points to that same block in the three
    branches of a prefix of more than one byte (the cast of [lengthData]
    to a pointer to [int]), and to a block of its own, from [malloc], in
    the one-byte branch. The function ends in
    [delete messageLength; delete [] lengthData;].

    C++ leaves [delete] on a block from [calloc] or [malloc] undefined.
    The embedding follows the allocator of the C library, which serves
    [calloc], [malloc] and, through the default [operator delete], both
    forms of [delete]: a block that is live is given back, and a block
    that is given back a second time ends the program
    ("double free detected", then [abort()]). The returns of -1 to -4
    leave before the releases, with [lengthData] still live. *)

(** The blocks that [readLength] obtains. *)
Inductive Block : Type :=
| calloc_block
| malloc_block.

Definition Block_eqb (p q : Block) : bool :=
  match p, q with
  | calloc_block, calloc_block => true
  | malloc_block, malloc_block => true
  | _, _ => false
  end.

(** [delete p;] or [delete [] p;], beside the blocks that are live: what
    remains live, unless [p] was given back before. *)
Definition release (p : Block) (live : list Block) : M (list Block) :=
  if existsb (Block_eqb p) live
  then ret (filter (fun q => negb (Block_eqb p q)) live)
  else abort_program.

(** [(int)firstChar] *)
Definition int_of_char (b : byte) : Z :=
  if octet b <? 128 then octet b else octet b - 256.

(** [if( !m_sock.read( &lengthData[i], 1 ) ) return r;] followed by the
    rest of the function. *)
Definition read_into (lengthData : list byte) (i : nat) (r : Z)
    (rest : list byte -> M Z) : M Z :=
  b <- m_sock_read1 ;;
  match b with
  | None => ret r
  | Some v => rest (store lengthData i v)
  end.

(** The end of the function, with the block that each pointer holds and
    the [int] behind [messageLength]:
    [int retMessageLength = *messageLength; delete messageLength;
     delete [] lengthData; return retMessageLength;] *)
Definition readLength_end (live : list Block) (lengthData messageLength : Block)
    (retMessageLength : Z) : M Z :=
  live <- release messageLength live ;;
  release lengthData live ;;
  ret retMessageLength.

Definition readLength : M Z :=
  let lengthData := calloc_int in
  let live := [calloc_block] in
  r <- m_sock_read1 ;;
  match r with
  | None => ret (-1)
  | Some firstChar =>
      if Z.land (octet firstChar) 0xE0 =? 0xE0 then
        match Q_BYTE_ORDER with
        | Q_LITTLE_ENDIAN =>
            let lengthData := store lengthData 3 firstChar in
            let lengthData := store lengthData 3 (char_and (at_ lengthData 3) 0x1f) in
            read_into lengthData 2 (-2) (fun lengthData =>
            read_into lengthData 1 (-3) (fun lengthData =>
            read_into lengthData 0 (-4) (fun lengthData =>
            readLength_end live calloc_block calloc_block
              (bytes_int Q_BYTE_ORDER lengthData))))
        | Q_BIG_ENDIAN =>
            let lengthData := store lengthData 0 firstChar in
            let lengthData := store lengthData 0 (char_and (at_ lengthData 0) 0x1f) in
            read_into lengthData 1 (-2) (fun lengthData =>
            read_into lengthData 2 (-3) (fun lengthData =>
            read_into lengthData 3 (-4) (fun lengthData =>
            readLength_end live calloc_block calloc_block
              (bytes_int Q_BYTE_ORDER lengthData))))
        end
      else if Z.land (octet firstChar) 0xC0 =? 0xC0 then
        match Q_BYTE_ORDER with
        | Q_LITTLE_ENDIAN =>
            let lengthData := store lengthData 2 firstChar in
            let lengthData := store lengthData 2 (char_and (at_ lengthData 2) 0x3f) in
            read_into lengthData 1 (-2) (fun lengthData =>
            read_into lengthData 0 (-3) (fun lengthData =>
            readLength_end live calloc_block calloc_block
              (bytes_int Q_BYTE_ORDER lengthData)))
        | Q_BIG_ENDIAN =>
            let lengthData := store lengthData 1 firstChar in
            let lengthData := store lengthData 1 (char_and (at_ lengthData 1) 0x3f) in
            read_into lengthData 2 (-2) (fun lengthData =>
            read_into lengthData 3 (-3) (fun lengthData =>
            readLength_end live calloc_block calloc_block
              (bytes_int Q_BYTE_ORDER lengthData)))
        end
      else if Z.land (octet firstChar) 0x80 =? 0x80 then
        match Q_BYTE_ORDER with
        | Q_LITTLE_ENDIAN =>
            let lengthData := store lengthData 1 firstChar in
            let lengthData := store lengthData 1 (char_and (at_ lengthData 1) 0x7f) in
            read_into lengthData 0 (-2) (fun lengthData =>
            readLength_end live calloc_block calloc_block
              (bytes_int Q_BYTE_ORDER lengthData))
        | Q_BIG_ENDIAN =>
            let lengthData := store lengthData 2 firstChar in
            let lengthData := store lengthData 2 (char_and (at_ lengthData 2) 0x7f) in
            read_into lengthData 3 (-2) (fun lengthData =>
            readLength_end live calloc_block calloc_block
              (bytes_int Q_BYTE_ORDER lengthData))
        end
      else
        let live := malloc_block :: live in
        readLength_end live calloc_block malloc_block (int_of_char firstChar)
  end.

(** *** [Comm::readWord]

    The [switch] either leaves the function ([Some] of the value returned)
    or falls through to the read of the body ([None]). *)
Definition readWord : M Z :=
  c <- get ;;
  left <- (if incomingWordSize c <=? 0 then
             n <- readLength ;;
             modify (set_incomingWordSize n) ;;
             match n with
             | -1 => ret (Some (-1))
             | -2 | -3 | -4 => throw "Incomplete word length arrived."
             | 0 => modify (set_incomingWord []) ;; ret (Some 0)
             | _ => ret None
             end
           else ret None) ;;
  match left with
  | Some r => ret r
  | None =>
      c <- get ;;
      tmp <- m_sock_read (incomingWordSize c) ;;
      (if negb (count tmp =? 0) then
         modify (fun c => set_incomingWordSize (incomingWordSize c - count tmp) c) ;;
         modify (fun c => set_incomingWord (incomingWord c ++ tmp) c)
       else ret tt) ;;
      c <- get ;;
      ret (if incomingWordSize c =? 0 then 1 else -1)
  end.

(** *** [Comm::readSentence]

    The [while] loop, unfolded at most [fuel] times; [None] when the fuel
    does not suffice. Every turn that goes on takes at least one byte
    from the socket, so one turn more than the bytes available always
    suffices ([readSentence_loop_total]). *)
Fixpoint readSentence_loop (fuel : nat) (c : Comm) : option (Result unit) :=
  match fuel with
  | O => None
  | S fuel' =>
      match readWord c with
      | Throw what c' => Some (Throw what c')
      | Aborted c' => Some (Aborted c')
      | Ret r c' =>
          if r >=? 0 then
            if isEmpty (incomingWord c') then
              Some (Ret tt (set_sentenceCompleted true c'))
            else
              readSentence_loop fuel'
                (set_incomingWordSize (-1)
                   (set_incomingWord []
                      (set_incomingSentence
                         (addWord (incomingSentence c') (incomingWord c')) c')))
          else
            Some (Ret tt (set_sentenceCompleted false c'))
      end
  end.

Definition readSentence : M unit :=
  fun c =>
    match readSentence_loop (S (length (rx (m_sock c)))) c with
    | Some r => r
    | None => Throw "readSentence: out of fuel" c
    end.

(** *** [Comm::doLogin] *)

Definition clear_incomingSentence : M unit :=
  modify (fun c => set_incomingSentence (clear (incomingSentence c)) c).

(** The bytes hashed for the response: [""] with length 1 is the NUL
    byte of the empty literal, the password is read as a C string, and 16
    bytes are read from the challenge, which has 16 where it is called. *)
Definition login_digest (password ret_ : QString) : list byte :=
  let md5ChallengeBinary := QMD5_ToBinary ret_ in
  let state := QMD5_init in
  let state := QMD5_append state [x00] 1 in
  let state := QMD5_append state (toLatin1 password) (strlen (toLatin1 password)) in
  let state := QMD5_append state (toLatin1 md5ChallengeBinary) 16 in
  QMD5_finish MD5 state.

Definition doLogin : M unit :=
  c <- get ;;
  match m_loginState c with
  | NoLoged => ret tt
  | LoginRequested =>
      if negb (resultType_is_Done (incomingSentence c)) then
        emit (comError (QS "Cannot login")) ;;
        setLoginState NoLoged ;;
        m_sock_close
      else if negb (attributes_count (incomingSentence c) =? 1) then
        emit (comError (QS "Unknown remote login sentence format: didn't receive anything")) ;;
        setLoginState NoLoged ;;
        clear_incomingSentence ;;
        m_sock_close
      else if count (attribute (incomingSentence c) (QS "ret")) =? 0 then
        emit (comError (QS "Unknown remote login sentence format: Doesn't receive 'ret' namefield")) ;;
        setLoginState NoLoged ;;
        clear_incomingSentence ;;
        m_sock_close
      else if negb (count (attribute (incomingSentence c) (QS "ret")) =? 32) then
        emit (comError (QS "Unknown remote login sentence format: 'ret' field doesn't contains 32 characters")) ;;
        setLoginState NoLoged ;;
        clear_incomingSentence ;;
        m_sock_close
      else
        let digest := login_digest (m_Password c) (attribute (incomingSentence c) (QS "ret")) in
        let md5PasswordToSend := QMD5_DigestToHexString digest in
        sendWord (QS "/login") ;;
        sendWord (arg (QS "=name=%1") (m_Username c)) ;;
        sendWord (arg (QS "=response=00%1") md5PasswordToSend) ;;
        sendWord [] ;;
        clear_incomingSentence ;;
        modify (set_incomingWordSize (-1)) ;;
        setLoginState UserPassSended
  | UserPassSended =>
      if resultType_is_Done (incomingSentence c) then
        modify (set_incomingWordSize (-1)) ;;
        clear_incomingSentence ;;
        setLoginState LogedIn
      else
        setLoginState NoLoged ;;
        emit (comError (QS "Invalid Username or Password")) ;;
        emit (comError (arg (QS "remote msg: %1")
                            (attribute (incomingSentence c) (QS "message")))) ;;
        modify (set_incomingWordSize (-1)) ;;
        clear_incomingSentence ;;
        m_sock_close
  | LogedIn => throw "router is loged already in"
  end.

(** *** [Comm::onReadyRead] *)
Definition onReadyRead : M unit :=
  readSentence ;;
  c <- get ;;
  if sentenceCompleted c then
    (if negb (LoginState_eqb (m_loginState c) LogedIn) then
       doLogin
     else
       emit (comReceive (incomingSentence c)) ;;
       clear_incomingSentence) ;;
    modify (set_sentenceCompleted false)
  else ret tt.

(** The transport delivers [data]: the bytes become readable and
    [readyRead] runs [onReadyRead]. *)
Definition deliver (data : list byte) : M unit :=
  modify (fun c =>
    set_m_sock (mkSocket (state (m_sock c)) (rx (m_sock c) ++ data)
                         (tx (m_sock c)) (bytesToWrite (m_sock c))) c) ;;
  onReadyRead.

(** The bytes become readable, and the caller polls with [readWord]. *)
Definition arrive (data : list byte) (c : Comm) : Comm :=
  set_m_sock (mkSocket (state (m_sock c)) (rx (m_sock c) ++ data)
                       (tx (m_sock c)) (bytesToWrite (m_sock c))) c.

End Comm.

Arguments Ret {sentenceAPI A} a c.
Arguments Throw {sentenceAPI A} what c.
Arguments Aborted {sentenceAPI A} c.

Notation "x <- m ;; k" := (bind m (fun x => k))
  (at level 61, m at next level, right associativity).
Notation "m ;; k" := (bind m (fun _ => k))
  (at level 61, right associativity).

(** The object with other bytes to read, and with more bytes written. *)
Definition with_rx {sentenceAPI : SentenceAPI} (bytes : list byte) (c : Comm) : Comm :=
  set_m_sock (mkSocket (state (m_sock c)) bytes (tx (m_sock c))
                       (bytesToWrite (m_sock c))) c.

Definition wrote {sentenceAPI : SentenceAPI} (bytes : list byte) (c : Comm) : Comm :=
  set_m_sock (socket_write bytes (m_sock c)) c.

(** ** [Comm::connectTo], [Comm::onError] and [Comm::~Comm] *)

Section Peer.

Context {sentenceAPI : SentenceAPI}.
Variable Q_BYTE_ORDER : ByteOrder.
Variable loginRequest_slot : QString * QString -> QString * QString.

(** The members [m_addr] and [m_port] (a [quint16]), which only
    [connectTo] touches; they are kept beside the object. *)
Record Peer : Type := mkPeer { m_addr : QString; m_port : Z }.

(** [m_sock.connectToHost(addr, port)] on an unconnected socket: the
    device is opened with nothing buffered and the socket starts to look
    the host up. *)
Definition m_sock_connectToHost : M unit :=
  modify (fun c => set_m_sock (mkSocket (state (m_sock c)) [] (tx (m_sock c)) 0) c) ;;
  m_sock_enter Q_BYTE_ORDER loginRequest_slot HostLookupState.

(** [Comm::connectTo]: the value returned, with the peer remembered. *)
Definition connectTo (addr : QString) (port : Z) (p : Peer) : M (bool * Peer) :=
  c <- get ;;
  if negb (SocketState_eqb UnconnectedState (state (m_sock c))) then
    emit (comError (QS "Trying to connect a allready opened socket")) ;;
    ret (false, p)
  else
    let p := mkPeer addr port in
    m_sock_connectToHost ;;
    ret (true, p).

(** [Comm::onError]; [errorString] is [m_sock.errorString()]. *)
Definition onError (errorString : QString) : M unit :=
  c <- get ;;
  (if negb (SocketState_eqb (state (m_sock c)) ConnectedState)
   then emit (comStateChanged Unconnected) else ret tt) ;;
  emit (comError errorString).

(** [Comm::~Comm] *)
Definition Comm_dtor : M unit := m_sock_close Q_BYTE_ORDER loginRequest_slot.

End Peer.

(** ** The length prefix as the specification tabulates it

    The four size classes of the specification's table, with shifts and
    masks on the value; [writeLength] is compared with it below. *)
Definition spec_encode (n : Z) : option (list byte) :=
  if n <? 0x80 then Some [to_char n]
  else if n <? 0x4000 then
    Some [to_char (Z.lor 0x80 (Z.shiftr n 8)); to_char n]
  else if n <? 0x200000 then
    Some [to_char (Z.lor 0xC0 (Z.shiftr n 16)); to_char (Z.shiftr n 8); to_char n]
  else if n <? 0x10000000 then
    Some [to_char (Z.lor 0xE0 (Z.shiftr n 24)); to_char (Z.shiftr n 16);
          to_char (Z.shiftr n 8); to_char n]
  else None.

(** ** Definitions used to state the properties *)

(** What [readLength] makes of the readable bytes: the value it reads,
    which is the code it returns when bytes are missing and the length
    that the prefix stands for when it is whole, and the bytes it leaves.
    The bytes of an incomplete prefix are taken from the socket and kept
    nowhere. Whether the length is returned is another matter
    ([long_prefix]). *)
Definition read_prefix (bytes : list byte) : Z * list byte :=
  match bytes with
  | [] => (-1, [])
  | b :: r =>
      if 0xE0 <=? octet b then
        match r with
        | b2 :: b1 :: b0 :: r' =>
            (octet b mod 32 * 2 ^ 24 + octet b2 * 2 ^ 16 + octet b1 * 2 ^ 8 + octet b0, r')
        | [_; _] => (-4, [])
        | [_] => (-3, [])
        | [] => (-2, [])
        end
      else if 0xC0 <=? octet b then
        match r with
        | b1 :: b0 :: r' => (octet b mod 64 * 2 ^ 16 + octet b1 * 2 ^ 8 + octet b0, r')
        | [_] => (-3, [])
        | [] => (-2, [])
        end
      else if 0x80 <=? octet b then
        match r with
        | b0 :: r' => (octet b mod 128 * 2 ^ 8 + octet b0, r')
        | [] => (-2, [])
        end
      else (octet b, r)
  end.

(** Polling once for each byte as it arrives: what each [readWord]
    returned, if it returned, and the object in the end. *)
Fixpoint poll_bytewise {sentenceAPI : SentenceAPI} (bo : ByteOrder)
    (bytes : list byte) (c : Comm) : list (option Z) * Comm :=
  match bytes with
  | [] => ([], c)
  | b :: rest =>
      let r := readWord bo (arrive [b] c) in
      let (rs, c') := poll_bytewise bo rest (final r) in
      (returned r :: rs, c')
  end.

(** The number of bytes of the prefix that a first byte announces. *)
Definition prefix_size (b : byte) : nat :=
  if 0xE0 <=? octet b then 4%nat
  else if 0xC0 <=? octet b then 3%nat
  else if 0x80 <=? octet b then 2%nat
  else 1%nat.

(** The readable bytes begin with a whole prefix of more than one byte:
    [readLength] reads it into the block of [lengthData], to which
    [messageLength] then points too, and gives that block back twice. *)
Definition long_prefix (bytes : list byte) : bool :=
  match bytes with
  | [] => false
  | b :: _ => (0x80 <=? octet b) && (prefix_size b <=? length bytes)%nat
  end.

(** A word that [writeLength] accepts. *)
Definition sendable (word : QString) : bool := count word <? 0x10000000.

(** The bytes [sendWord] writes for a word: the prefix and the Latin-1
    bytes; none for a word that is too long. *)
Definition frame (bo : ByteOrder) (word : QString) : list byte :=
  match encodedLengthData bo (count word) with
  | Some prefix => prefix ++ toLatin1 word
  | None => []
  end.

(** The bytes written for a sequence of words, up to the first that is
    too long. *)
Fixpoint frames (bo : ByteOrder) (words : list QString) : list byte :=
  match words with
  | [] => []
  | w :: rest => if sendable w then frame bo w ++ frames bo rest else []
  end.

(** The words of a sentence that precede its tag. *)
Definition head_words {sentenceAPI : SentenceAPI} (sent : QSentence) : list QString :=
  command sent :: attributes_toWords sent ++ APIattributes_toWords sent
                    ++ queries_toWords sent.

(** The read of the body in [readWord], from an object in which the
    length is known. *)
Definition read_body {sentenceAPI : SentenceAPI} (c : Comm) : Result Z :=
  let tmp := firstn (Z.to_nat (incomingWordSize c)) (rx (m_sock c)) in
  let c1 := with_rx (skipn (Z.to_nat (incomingWordSize c)) (rx (m_sock c))) c in
  let c2 := if count tmp =? 0 then c1
            else set_incomingWord (incomingWord c1 ++ tmp)
                   (set_incomingWordSize (incomingWordSize c1 - count tmp) c1) in
  Ret (if incomingWordSize c2 =? 0 then 1 else -1) c2.

(** A computation relates, by [R], the object it is run on to the object
    it leaves, whether it returns or throws, or the program is ended in
    it. *)
Definition keeps {sentenceAPI : SentenceAPI} (R : Comm -> Comm -> Prop)
    {A} (m : M A) : Prop :=
  forall c, R c (final (m c)).

(** The object after some signals other than [comReceive]. *)
Definition quiet {sentenceAPI : SentenceAPI} (c c' : Comm) : Prop :=
  exists news,
    emitted c' = emitted c ++ news
    /\ Forall (fun s => forall x, s <> comReceive x) news.

(** The object with the same login state and the same signals. *)
Definition silent {sentenceAPI : SentenceAPI} (c c' : Comm) : Prop :=
  m_loginState c' = m_loginState c /\ emitted c' = emitted c.

(** What can run a method of the object: a call of a public slot, or a
    notification of the socket, that it changed its state or that bytes
    arrived. *)
Inductive Entry {sentenceAPI : SentenceAPI} : Type :=
| call_sendSentence (sent : QSentence) (addTag : bool)
| call_closeCom (force : bool)
| socket_stateChanged (st : SocketState)
| socket_bytesWritten
| socket_readyRead (data : list byte).

Definition enter {sentenceAPI : SentenceAPI} (bo : ByteOrder)
    (MD5 : list byte -> list byte)
    (slot : QString * QString -> QString * QString) (e : Entry) : M unit :=
  match e with
  | call_sendSentence sent addTag => sendSentence bo sent addTag ;; ret tt
  | call_closeCom force => closeCom bo slot force
  | socket_stateChanged st => m_sock_enter bo slot st
  | socket_bytesWritten => m_sock_bytesWritten bo slot
  | socket_readyRead data => deliver bo MD5 slot data
  end.

(** ** Definitions used to state the further properties *)

(** The bytes of a word as [readLength] and [readWord] take them: the
    prefix of the table, then the bytes of the word. *)
Definition wire (word : QByteArray) : list byte :=
  match spec_encode (count word) with
  | Some prefix => prefix ++ word
  | None => []
  end.

(** The sentence that the reader builds from the words it reads. *)
Definition assembled {sentenceAPI : SentenceAPI} (s : QSentence)
    (words : list QByteArray) : QSentence :=
  fold_left addWord words s.

(** The object after bytes were written to the socket and the tag counter
    was set, everything else being as it was. *)
Definition sent_only {sentenceAPI : SentenceAPI} (c c' : Comm) : Prop :=
  exists bytes id, c' = set_ID id (wrote bytes c).

(** The login state that the last [loginStateChanged] among some signals
    announces, [l] when there is none. *)
Fixpoint announced {sentenceAPI : SentenceAPI} (l : LoginState)
    (news : list Signal) : LoginState :=
  match news with
  | [] => l
  | loginStateChanged s :: rest => announced s rest
  | _ :: rest => announced l rest
  end.

(** The object in the same login state, after signals other than
    [loginStateChanged]. *)
Definition steady {sentenceAPI : SentenceAPI} (c c' : Comm) : Prop :=
  m_loginState c' = m_loginState c
  /\ exists news,
       emitted c' = emitted c ++ news
       /\ Forall (fun s => forall l, s <> loginStateChanged l) news.

(** The object after signals that announce its login state. *)
Definition mirrored {sentenceAPI : SentenceAPI} (c c' : Comm) : Prop :=
  exists news,
    emitted c' = emitted c ++ news
    /\ announced (m_loginState c) news = m_loginState c'.

(** The exceptions of a computation are among [P]. *)
Definition throws_only {sentenceAPI : SentenceAPI} (P : string -> Prop)
    {A} (m : M A) : Prop :=
  forall c what c', m c = Throw what c' -> P what.

(** Everything that runs a method of the object: the entries, a call of
    [connectTo], and the error notification of the socket. *)
Inductive Event {sentenceAPI : SentenceAPI} : Type :=
| on_entry (e : Entry)
| call_connectTo (addr : QString) (port : Z)
| socket_error (errorString : QString).

(** The method run for an event, beside the peer that [connectTo] keeps. *)
Definition handle {sentenceAPI : SentenceAPI} (bo : ByteOrder)
    (MD5 : list byte -> list byte)
    (slot : QString * QString -> QString * QString)
    (ev : Event) (p : Peer) : M Peer :=
  match ev with
  | on_entry e => enter bo MD5 slot e ;; ret p
  | call_connectTo addr port => r <- connectTo bo slot addr port p ;; ret (snd r)
  | socket_error errorString => onError errorString ;; ret p
  end.

(** The object after a sequence of events, whether or not the caller
    goes on after an exception. Where the program is ended in an event,
    the events after it are followed from the object it left: they do not
    take place, and what is stated of [session] covers them all the
    same. *)
Fixpoint session {sentenceAPI : SentenceAPI} (bo : ByteOrder)
    (MD5 : list byte -> list byte)
    (slot : QString * QString -> QString * QString)
    (evs : list Event) (p : Peer) (c : Comm) : Comm :=
  match evs with
  | [] => c
  | ev :: rest =>
      let r := handle bo MD5 slot ev p c in
      session bo MD5 slot rest
        (match returned r with Some p' => p' | None => p end) (final r)
  end.

(** The object after a method that touched nothing but the state of the
    socket and its buffers, wrote nothing, and emitted only changes of
    the connection state and errors. *)
Definition connection_only {sentenceAPI : SentenceAPI} (c c' : Comm) : Prop :=
  set_emitted (emitted c) (set_m_sock (m_sock c) c') = c
  /\ tx (m_sock c') = tx (m_sock c)
  /\ exists news,
       emitted c' = emitted c ++ news
       /\ Forall (fun s => (exists st, s = comStateChanged st)
                           \/ (exists error, s = comError error)) news.

(** The object after a read: some of the readable bytes were taken from
    the front, and nothing changed but the word and the sentence being
    read, the size of the word and the completion flag. *)
Definition reads_only {sentenceAPI : SentenceAPI} (c c' : Comm) : Prop :=
  exists taken size word sent done,
    rx (m_sock c) = taken ++ rx (m_sock c')
    /\ c' = set_sentenceCompleted done
              (set_incomingSentence sent
                 (set_incomingWord word
                    (set_incomingWordSize size (with_rx (rx (m_sock c')) c)))).

(** The object with the same credentials. *)
Definition same_credentials {sentenceAPI : SentenceAPI} (c c' : Comm) : Prop :=
  m_Username c' = m_Username c /\ m_Password c' = m_Password c.

(** ** A sentence class and a caller, for the examples

    Modelled from the spec: the sentence collaborator holds a command
    word, three groups of words, a tag and a result classification, and
    looks attributes up by name. Words are classified by their first
    character: [=name=value] is an attribute, [.tag=t] the tag, another
    word in [.] an API attribute, a word in [?] a query, and anything
    else the command or result word, [!done] being the successful
    result. *)
Module Sample.

Record Sentence : Type := mkSentence {
  s_command : QString;
  s_attributes : list (QString * QString);
  s_api : list QString;
  s_queries : list QString;
  s_tag : QString
}.

Definition fromLatin1 (ba : QByteArray) : QString := map Byte.to_N ba.

Fixpoint QString_eqb (a b : QString) : bool :=
  match a, b with
  | [], [] => true
  | x :: a', y :: b' => (x =? y)%N && QString_eqb a' b'
  | _, _ => false
  end.

(** [name=value] split at its first [=]. *)
Fixpoint split_eq (s : QString) : QString * QString :=
  match s with
  | [] => ([], [])
  | c :: rest =>
      if (c =? 61)%N then ([], rest)
      else let (n, v) := split_eq rest in (c :: n, v)
  end.

Fixpoint lookup (name : QString) (l : list (QString * QString)) : QString :=
  match l with
  | [] => []
  | (n, v) :: rest => if QString_eqb n name then v else lookup name rest
  end.

(** Modelled from the spec: [QSentence::addWord] files a word under the
    group its first character names. *)
Definition add (s : Sentence) (word : QByteArray) : Sentence :=
  match fromLatin1 word with
  | 61%N :: rest =>
      mkSentence (s_command s) (s_attributes s ++ [split_eq rest]) (s_api s)
                 (s_queries s) (s_tag s)
  | 46%N :: rest =>
      let (n, v) := split_eq rest in
      if QString_eqb n (QS "tag") then
        mkSentence (s_command s) (s_attributes s) (s_api s) (s_queries s) v
      else
        mkSentence (s_command s) (s_attributes s) (s_api s ++ [46%N :: rest])
                   (s_queries s) (s_tag s)
  | 63%N :: rest =>
      mkSentence (s_command s) (s_attributes s) (s_api s)
                 (s_queries s ++ [63%N :: rest]) (s_tag s)
  | w => mkSentence w (s_attributes s) (s_api s) (s_queries s) (s_tag s)
  end.

(** Modelled from the spec: the members of [QSentence] that the engine
    uses. *)
#[export] Instance sentences : SentenceAPI := {
  QSentence := Sentence;
  QSentence_ctor cmd := mkSentence cmd [] [] [] [];
  command := s_command;
  attributes_toWords s :=
    map (fun nv => (61%N :: fst nv) ++ (61%N :: snd nv)) (s_attributes s);
  APIattributes_toWords := s_api;
  queries_toWords := s_queries;
  tag := s_tag;
  resultType_is_Done s := QString_eqb (s_command s) (QS "!done");
  attributes_count s := count (s_attributes s);
  attribute s name := lookup name (s_attributes s);
  addWord := add;
  clear _ := mkSentence [] [] [] [] []
}.

(** A stand-in digest of 16 bytes: the first 16 bytes hashed, padded. *)
Definition digest16 (message : list byte) : list byte :=
  firstn 16 (message ++ repeat x00 16).

(** A caller that answers [loginRequest] with fixed credentials. *)
Definition credentials (_ : QString * QString) : QString * QString :=
  (QS "admin", QS "secret").

(** A connection that is up, in a given login state, with bytes to read. *)
Definition connected (l : LoginState) (bytes : list byte) : Comm :=
  mkComm (mkSocket ConnectedState bytes [] 0) (QS "admin") (QS "secret") []
         (mkSentence [] [] [] [] []) false l (-1) 0 [].

(** The answer of the peer to the first [/login]: a successful result
    with the challenge in [ret]. *)
Definition challenge_sentence (ret_ : string) : Sentence :=
  mkSentence (QS "!done") [(QS "ret", QS ret_)] [] [] [].

Definition awaiting_challenge (ret_ : string) : Comm :=
  set_incomingSentence (challenge_sentence ret_) (connected LoginRequested []).

End Sample.

(** * Properties *)

(** ** Octets *)

Lemma octet_range (b : byte) : 0 <= octet b < 256.
Proof.
  unfold octet. pose proof (Byte.to_N_bounded b) as H.
  lia.
Qed.

Lemma to_char_octet (b : byte) : to_char (octet b) = b.
Proof.
  unfold to_char, octet. pose proof (octet_range b) as H. unfold octet in H.
  rewrite Z.mod_small by lia. rewrite N2Z.id. now rewrite Byte.of_to_N.
Qed.

Lemma octet_to_char (z : Z) : octet (to_char z) = z mod 256.
Proof.
  unfold to_char, octet.
  assert (H : 0 <= z mod 256 < 256) by (apply Z.mod_pos_bound; lia).
  destruct (Byte.of_N (Z.to_N (z mod 256))) as [b|] eqn:E.
  - apply Byte.to_of_N in E. rewrite E. lia.
  - apply Byte.of_N_None_iff in E. lia.
Qed.

Lemma octet_inj (a b : byte) : octet a = octet b -> a = b.
Proof.
  intros H. rewrite <- (to_char_octet a), <- (to_char_octet b). now rewrite H.
Qed.

Lemma int_wrap_small (z : Z) : INT_MIN <= z <= INT_MAX -> int_wrap z = z.
Proof.
  unfold int_wrap, INT_MIN, INT_MAX. intros H.
  rewrite Z.mod_small; lia.
Qed.

(** The marker tests and masks of [readLength], by the value of the first
    byte. *)
Lemma marker_E0 (b : byte) :
  (Z.land (octet b) 0xE0 =? 0xE0) = (0xE0 <=? octet b).
Proof. destruct b; reflexivity. Qed.

Lemma marker_C0 (b : byte) :
  (Z.land (octet b) 0xC0 =? 0xC0) = (0xC0 <=? octet b).
Proof. destruct b; reflexivity. Qed.

Lemma marker_80 (b : byte) :
  (Z.land (octet b) 0x80 =? 0x80) = (0x80 <=? octet b).
Proof. destruct b; reflexivity. Qed.

Lemma mask_1f (b : byte) : octet (char_and b 0x1f) = octet b mod 32.
Proof. destruct b; reflexivity. Qed.

Lemma mask_3f (b : byte) : octet (char_and b 0x3f) = octet b mod 64.
Proof. destruct b; reflexivity. Qed.

Lemma mask_7f (b : byte) : octet (char_and b 0x7f) = octet b mod 128.
Proof. destruct b; reflexivity. Qed.

Lemma or_marker (k x : Z) :
  (k = 0x80 /\ 0 <= x < 64) \/ (k = 0xC0 /\ 0 <= x < 32) \/ (k = 0xE0 /\ 0 <= x < 16) ->
  Z.lor k x = x + k.
Proof.
  intros H.
  assert (G : forall bound,
             forallb (fun n => Z.lor k (Z.of_nat n) =? Z.of_nat n + k) (seq 0 bound) = true ->
             0 <= x < Z.of_nat bound -> Z.lor k x = x + k).
  { intros bound Hall Hx. rewrite forallb_forall in Hall.
    specialize (Hall (Z.to_nat x)). rewrite Z2Nat.id in Hall by lia.
    apply Z.eqb_eq, Hall, in_seq. lia. }
  destruct H as [[-> H] | [[-> H] | [-> H]]].
  - apply (G 64%nat); [reflexivity | lia].
  - apply (G 32%nat); [reflexivity | lia].
  - apply (G 16%nat); [reflexivity | lia].
Qed.

Lemma char_or_to_char (x k : Z) :
  0 <= x < 256 -> char_or (to_char x) k = to_char (Z.lor k x).
Proof.
  intros H. unfold char_or. rewrite octet_to_char, Z.mod_small by lia.
  now rewrite Z.lor_comm.
Qed.

(** ** The length codec *)

Lemma Some_inj {A} (a b : A) : Some a = Some b -> a = b.
Proof. congruence. Qed.

(** Reading back a prefix of the specification's table. *)
Lemma read_prefix_spec_encode (n : Z) (prefix rest : list byte) :
  0 <= n < 0x10000000 ->
  spec_encode n = Some prefix ->
  read_prefix (prefix ++ rest) = (n, rest).
Proof.
  intros Hn. unfold spec_encode.
  destruct (n <? 0x80) eqn:E1.
  { intros E; apply Some_inj in E; subst prefix. cbn [app read_prefix]. rewrite octet_to_char, Z.mod_small by lia.
    assert ((0xE0 <=? n) = false) as -> by lia.
    assert ((0xC0 <=? n) = false) as -> by lia.
    assert ((0x80 <=? n) = false) as -> by lia. reflexivity. }
  destruct (n <? 0x4000) eqn:E2.
  { intros E; apply Some_inj in E; subst prefix. cbn [app read_prefix].
    rewrite Z.shiftr_div_pow2 by lia. change (2 ^ 8) with 256.
    assert (Hq : 0 <= n / 256 < 64) by (Z.div_mod_to_equations; lia).
    rewrite (or_marker 0x80 (n / 256)) by lia.
    rewrite !octet_to_char. rewrite (Z.mod_small (n / 256 + 0x80)) by lia.
    assert ((0xE0 <=? n / 256 + 0x80) = false) as -> by lia.
    assert ((0xC0 <=? n / 256 + 0x80) = false) as -> by lia.
    assert ((0x80 <=? n / 256 + 0x80) = true) as -> by lia.
    f_equal. Z.div_mod_to_equations; lia. }
  destruct (n <? 0x200000) eqn:E3.
  { intros E; apply Some_inj in E; subst prefix. cbn [app read_prefix].
    rewrite !Z.shiftr_div_pow2 by lia. change (2 ^ 8) with 256. change (2 ^ 16) with 65536.
    assert (Hq : 0 <= n / 65536 < 32) by (Z.div_mod_to_equations; lia).
    rewrite (or_marker 0xC0 (n / 65536)) by lia.
    rewrite !octet_to_char. rewrite (Z.mod_small (n / 65536 + 0xC0)) by lia.
    assert ((0xE0 <=? n / 65536 + 0xC0) = false) as -> by lia.
    assert ((0xC0 <=? n / 65536 + 0xC0) = true) as -> by lia.
    f_equal. Z.div_mod_to_equations; lia. }
  destruct (n <? 0x10000000) eqn:E4; [|lia].
  intros E; apply Some_inj in E; subst prefix. cbn [app read_prefix].
  rewrite !Z.shiftr_div_pow2 by lia.
  change (2 ^ 8) with 256. change (2 ^ 16) with 65536. change (2 ^ 24) with 16777216.
  assert (Hq : 0 <= n / 16777216 < 16) by (Z.div_mod_to_equations; lia).
  rewrite (or_marker 0xE0 (n / 16777216)) by lia.
  rewrite !octet_to_char. rewrite (Z.mod_small (n / 16777216 + 0xE0)) by lia.
  assert ((0xE0 <=? n / 16777216 + 0xE0) = true) as -> by lia.
  f_equal. Z.div_mod_to_equations; lia.
Qed.

(** A prefix of the specification's table is a whole prefix of more
    than one byte from 0x80 on. *)
Lemma long_prefix_spec_encode (n : Z) (prefix rest : list byte) :
  0 <= n < 0x10000000 ->
  spec_encode n = Some prefix ->
  long_prefix (prefix ++ rest) = (0x80 <=? n).
Proof.
  intros Hn. unfold spec_encode.
  destruct (n <? 0x80) eqn:E1.
  { intros E; apply Some_inj in E; subst prefix. cbn [app long_prefix].
    rewrite octet_to_char, Z.mod_small by lia.
    assert ((0x80 <=? n) = false) as -> by lia. reflexivity. }
  assert ((0x80 <=? n) = true) as -> by lia.
  destruct (n <? 0x4000) eqn:E2.
  { intros E; apply Some_inj in E; subst prefix.
    cbn [app long_prefix length]. unfold prefix_size.
    rewrite Z.shiftr_div_pow2 by lia. change (2 ^ 8) with 256.
    assert (Hq : 0 <= n / 256 < 64) by (Z.div_mod_to_equations; lia).
    rewrite (or_marker 0x80 (n / 256)) by lia.
    rewrite !octet_to_char. rewrite (Z.mod_small (n / 256 + 0x80)) by lia.
    assert ((0xE0 <=? n / 256 + 0x80) = false) as -> by lia.
    assert ((0xC0 <=? n / 256 + 0x80) = false) as -> by lia.
    assert ((0x80 <=? n / 256 + 0x80) = true) as -> by lia.
    reflexivity. }
  destruct (n <? 0x200000) eqn:E3.
  { intros E; apply Some_inj in E; subst prefix.
    cbn [app long_prefix length]. unfold prefix_size.
    rewrite !Z.shiftr_div_pow2 by lia. change (2 ^ 16) with 65536.
    assert (Hq : 0 <= n / 65536 < 32) by (Z.div_mod_to_equations; lia).
    rewrite (or_marker 0xC0 (n / 65536)) by lia.
    rewrite !octet_to_char. rewrite (Z.mod_small (n / 65536 + 0xC0)) by lia.
    assert ((0xE0 <=? n / 65536 + 0xC0) = false) as -> by lia.
    assert ((0xC0 <=? n / 65536 + 0xC0) = true) as -> by lia.
    assert ((0x80 <=? n / 65536 + 0xC0) = true) as -> by lia.
    reflexivity. }
  destruct (n <? 0x10000000) eqn:E4; [|lia].
  intros E; apply Some_inj in E; subst prefix.
  cbn [app long_prefix length]. unfold prefix_size.
  rewrite !Z.shiftr_div_pow2 by lia. change (2 ^ 24) with 16777216.
  assert (Hq : 0 <= n / 16777216 < 16) by (Z.div_mod_to_equations; lia).
  rewrite (or_marker 0xE0 (n / 16777216)) by lia.
  rewrite !octet_to_char. rewrite (Z.mod_small (n / 16777216 + 0xE0)) by lia.
  assert ((0xE0 <=? n / 16777216 + 0xE0) = true) as -> by lia.
  assert ((0x80 <=? n / 16777216 + 0xE0) = true) as -> by lia.
  reflexivity.
Qed.

(** What [read_prefix] can return: a failure code, or a length of at
    most 29 bits, at or above 2^28 only behind a first byte of 0xF0 or
    more. *)
Lemma read_prefix_range (bytes : list byte) :
  -4 <= fst (read_prefix bytes) < 0x20000000
  /\ (0x10000000 <= fst (read_prefix bytes) ->
      exists b rest, bytes = b :: rest /\ 0xF0 <= octet b).
Proof.
  destruct bytes as [|b r]; [cbn; lia|].
  pose proof (octet_range b) as Hb. unfold read_prefix.
  destruct (0xE0 <=? octet b) eqn:E4.
  { destruct r as [|b2 [|b1 [|b0 r']]]; cbn [fst]; try lia.
    pose proof (octet_range b2). pose proof (octet_range b1). pose proof (octet_range b0).
    split; [Z.div_mod_to_equations; lia|].
    intros Hge. exists b, (b2 :: b1 :: b0 :: r'). split; [reflexivity|].
    Z.div_mod_to_equations; lia. }
  destruct (0xC0 <=? octet b) eqn:E3.
  { destruct r as [|b1 [|b0 r']]; cbn [fst]; try lia.
    pose proof (octet_range b1). pose proof (octet_range b0).
    split; [Z.div_mod_to_equations; lia|].
    intros Hge. exfalso. Z.div_mod_to_equations; lia. }
  destruct (0x80 <=? octet b) eqn:E2.
  { destruct r as [|b0 r']; cbn [fst]; try lia.
    pose proof (octet_range b0).
    split; [Z.div_mod_to_equations; lia|].
    intros Hge. exfalso. Z.div_mod_to_equations; lia. }
  cbn [fst]. lia.
Qed.

Section Codec.

Context {sentenceAPI : SentenceAPI}.
Variable Q_BYTE_ORDER : ByteOrder.

Lemma with_rx_self (c : Comm) : with_rx (rx (m_sock c)) c = c.
Proof. now destruct c as [[? ? ? ?] ? ? ? ? ? ? ? ? ?]. Qed.

Lemma int_of_four (b3 b2 b1 b0 : byte) :
  octet b3 < 128 ->
  int_wrap (octet b0 + Z.shiftl (octet b1) 8 + Z.shiftl (octet b2) 16
            + Z.shiftl (octet b3) 24)
  = octet b3 * 2 ^ 24 + octet b2 * 2 ^ 16 + octet b1 * 2 ^ 8 + octet b0.
Proof.
  intros H.
  pose proof (octet_range b0). pose proof (octet_range b1).
  pose proof (octet_range b2). pose proof (octet_range b3).
  rewrite !Z.shiftl_mul_pow2 by lia.
  rewrite int_wrap_small; unfold INT_MIN, INT_MAX; lia.
Qed.

Lemma octet_x00 : octet x00 = 0.
Proof. reflexivity. Qed.

(** The two releases at the end of [readLength]: with [messageLength]
    on the block of [lengthData], the second release finds the block
    given back, and the value read is never returned. *)
Lemma readLength_end_aliased (v : Z) (c : Comm) :
  readLength_end [calloc_block] calloc_block calloc_block v c = Aborted c.
Proof. reflexivity. Qed.

(** With [messageLength] on a block of its own, both releases go
    through. *)
Lemma readLength_end_apart (v : Z) (c : Comm) :
  readLength_end [malloc_block; calloc_block] calloc_block malloc_block v c = Ret v c.
Proof. reflexivity. Qed.

(** What [readLength] does with the readable bytes, in either byte
    order: it takes the bytes that [read_prefix] takes; behind a whole
    prefix of more than one byte the program is ended in it, and otherwise
    it returns what [read_prefix] computes. *)
Lemma readLength_read_prefix (c : Comm) :
  readLength Q_BYTE_ORDER c
  = if long_prefix (rx (m_sock c))
    then Aborted (with_rx (snd (read_prefix (rx (m_sock c)))) c)
    else Ret (fst (read_prefix (rx (m_sock c))))
             (with_rx (snd (read_prefix (rx (m_sock c)))) c).
Proof.
  destruct c as [[st bytes tx_ btw] u p w s sc l ws id em].
  destruct bytes as [|b r]; [reflexivity|].
  unfold readLength, read_prefix, long_prefix, prefix_size, bind, m_sock_read1;
    cbn [m_sock rx socket_read1].
  rewrite marker_E0, marker_C0, marker_80.
  destruct (0xE0 <=? octet b) eqn:E4.
  { assert ((0x80 <=? octet b) = true) as -> by lia.
    destruct Q_BYTE_ORDER, r as [|b2 [|b1 [|b0 r']]]; try reflexivity;
      unfold read_into, bind, m_sock_read1;
      cbn [m_sock rx socket_read1 set_m_sock state tx bytesToWrite];
      rewrite readLength_end_aliased; reflexivity. }
  destruct (0xC0 <=? octet b) eqn:E3.
  { assert ((0x80 <=? octet b) = true) as -> by lia.
    destruct Q_BYTE_ORDER, r as [|b1 [|b0 r']]; try reflexivity;
      unfold read_into, bind, m_sock_read1;
      cbn [m_sock rx socket_read1 set_m_sock state tx bytesToWrite];
      rewrite readLength_end_aliased; reflexivity. }
  destruct (0x80 <=? octet b) eqn:E2.
  { destruct Q_BYTE_ORDER, r as [|b0 r']; try reflexivity;
      unfold read_into, bind, m_sock_read1;
      cbn [m_sock rx socket_read1 set_m_sock state tx bytesToWrite];
      rewrite readLength_end_aliased; reflexivity. }
  cbn [andb]. rewrite readLength_end_apart.
  unfold with_rx, set_m_sock, int_of_char; cbn.
  assert ((octet b <? 128) = true) as -> by lia. reflexivity.
Qed.

(** A first byte below 0x80, or a prefix that is not whole, is not a
    whole prefix of more than one byte. *)
Lemma long_prefix_one (b : byte) (rest : list byte) :
  octet b < 0x80 -> long_prefix (b :: rest) = false.
Proof.
  intros H. unfold long_prefix.
  assert ((0x80 <=? octet b) = false) as -> by lia. reflexivity.
Qed.

Lemma long_prefix_short (b : byte) (more : list byte) :
  (S (length more) < prefix_size b)%nat -> long_prefix (b :: more) = false.
Proof.
  intros H. unfold long_prefix. cbn [length].
  assert ((prefix_size b <=? S (length more))%nat = false) as ->
    by (apply Nat.leb_gt; exact H).
  apply andb_false_r.
Qed.

Lemma long_prefix_nil : long_prefix [] = false.
Proof. reflexivity. Qed.

(** Where [readLength] returns: what [read_prefix] computes. *)
Lemma readLength_returns (c : Comm) :
  long_prefix (rx (m_sock c)) = false ->
  readLength Q_BYTE_ORDER c
  = Ret (fst (read_prefix (rx (m_sock c))))
        (with_rx (snd (read_prefix (rx (m_sock c)))) c).
Proof. intros H. now rewrite readLength_read_prefix, H. Qed.

(** Where the program is ended in [readLength]: the prefix was taken from
    the socket. *)
Lemma readLength_aborts (c : Comm) :
  long_prefix (rx (m_sock c)) = true ->
  readLength Q_BYTE_ORDER c
  = Aborted (with_rx (snd (read_prefix (rx (m_sock c)))) c).
Proof. intros H. now rewrite readLength_read_prefix, H. Qed.

(** Above one byte, and for one byte on a little-endian build, the bytes
    written are those of the specification's table. *)
Lemma encodedLengthData_spec_encode (n : Z) :
  Q_BYTE_ORDER = Q_LITTLE_ENDIAN \/ 0x80 <= n ->
  encodedLengthData Q_BYTE_ORDER n = spec_encode n.
Proof.
  intros Hbo. unfold encodedLengthData, spec_encode.
  destruct (n <? 0x80) eqn:E1.
  { destruct Hbo as [-> | Hbo]; [reflexivity | lia]. }
  destruct (n <? 0x4000) eqn:E2.
  { assert (0 <= Z.shiftr n 8 < 256)
      by (rewrite Z.shiftr_div_pow2 by lia; change (2 ^ 8) with 256;
          Z.div_mod_to_equations; lia).
    destruct Q_BYTE_ORDER; unfold int_bytes, at_; cbn [nth];
      change (8 * 0) with 0; change (8 * 1) with 8; rewrite Z.shiftr_0_r;
      rewrite char_or_to_char by assumption; reflexivity. }
  destruct (n <? 0x200000) eqn:E3.
  { assert (0 <= Z.shiftr n 16 < 256)
      by (rewrite Z.shiftr_div_pow2 by lia; change (2 ^ 16) with 65536;
          Z.div_mod_to_equations; lia).
    destruct Q_BYTE_ORDER; unfold int_bytes, at_; cbn [nth];
      change (8 * 0) with 0; change (8 * 1) with 8; change (8 * 2) with 16;
      rewrite Z.shiftr_0_r;
      rewrite char_or_to_char by assumption; reflexivity. }
  destruct (n <? 0x10000000) eqn:E4; [|reflexivity].
  assert (0 <= Z.shiftr n 24 < 256)
    by (rewrite Z.shiftr_div_pow2 by lia; change (2 ^ 24) with 16777216;
        Z.div_mod_to_equations; lia).
  destruct Q_BYTE_ORDER; unfold int_bytes, at_; cbn [nth];
    change (8 * 0) with 0; change (8 * 1) with 8; change (8 * 2) with 16;
    change (8 * 3) with 24; rewrite Z.shiftr_0_r;
    rewrite char_or_to_char by assumption; reflexivity.
Qed.

Lemma with_rx_with_rx (a b : list byte) (c : Comm) :
  with_rx a (with_rx b c) = with_rx a c.
Proof. reflexivity. Qed.

Lemma rx_with_rx (a : list byte) (c : Comm) : rx (m_sock (with_rx a c)) = a.
Proof. reflexivity. Qed.

Lemma encodedLengthData_too_long (n : Z) :
  0x10000000 <= n -> encodedLengthData Q_BYTE_ORDER n = None.
Proof.
  intros H. unfold encodedLengthData.
  assert ((n <? 0x80) = false) as -> by lia.
  assert ((n <? 0x4000) = false) as -> by lia.
  assert ((n <? 0x200000) = false) as -> by lia.
  assert ((n <? 0x10000000) = false) as -> by lia.
  reflexivity.
Qed.

Lemma encodedLengthData_short (n : Z) :
  n < 0x10000000 -> exists prefix, encodedLengthData Q_BYTE_ORDER n = Some prefix.
Proof.
  intros H. unfold encodedLengthData.
  destruct (n <? 0x80); [eauto|].
  destruct (n <? 0x4000); [destruct Q_BYTE_ORDER; eauto|].
  destruct (n <? 0x200000); [destruct Q_BYTE_ORDER; eauto|].
  assert ((n <? 0x10000000) = true) as -> by lia.
  destruct Q_BYTE_ORDER; eauto.
Qed.

(** The first byte that [writeLength] writes for a length is below 0xF0. *)
Lemma encodedLengthData_first_byte (n : Z) (prefix : list byte) :
  0 <= n ->
  encodedLengthData Q_BYTE_ORDER n = Some prefix ->
  exists b rest, prefix = b :: rest /\ octet b < 0xF0.
Proof.
  intros Hn. destruct (Z.ltb_spec n 0x80) as [Hs|Hs].
  - unfold encodedLengthData. assert ((n <? 0x80) = true) as -> by lia.
    intros E; apply Some_inj in E; subst prefix.
    eexists _, _. split; [reflexivity|].
    unfold at_, int_bytes. destruct Q_BYTE_ORDER; cbn [nth];
      rewrite octet_to_char, Z.shiftr_div_pow2 by lia.
    + change (2 ^ (8 * 0)) with 1. rewrite Z.div_1_r, Z.mod_small; lia.
    + change (2 ^ (8 * 3)) with 16777216. rewrite Z.div_small by lia. reflexivity.
  - rewrite encodedLengthData_spec_encode by (right; exact Hs).
    unfold spec_encode. assert ((n <? 0x80) = false) as -> by lia.
    destruct (n <? 0x4000) eqn:E2.
    { intros E; apply Some_inj in E; subst prefix.
      eexists _, _. split; [reflexivity|].
      rewrite Z.shiftr_div_pow2 by lia. change (2 ^ 8) with 256.
      rewrite (or_marker 0x80 (n / 256)) by (left; split; [reflexivity|];
        Z.div_mod_to_equations; lia).
      rewrite octet_to_char. Z.div_mod_to_equations; lia. }
    destruct (n <? 0x200000) eqn:E3.
    { intros E; apply Some_inj in E; subst prefix.
      eexists _, _. split; [reflexivity|].
      rewrite Z.shiftr_div_pow2 by lia. change (2 ^ 16) with 65536.
      rewrite (or_marker 0xC0 (n / 65536)) by (right; left; split; [reflexivity|];
        Z.div_mod_to_equations; lia).
      rewrite octet_to_char. Z.div_mod_to_equations; lia. }
    destruct (n <? 0x10000000) eqn:E4; [|discriminate].
    intros E; apply Some_inj in E; subst prefix.
    eexists _, _. split; [reflexivity|].
    rewrite Z.shiftr_div_pow2 by lia. change (2 ^ 24) with 16777216.
    rewrite (or_marker 0xE0 (n / 16777216)) by (right; right; split; [reflexivity|];
      Z.div_mod_to_equations; lia).
    rewrite octet_to_char. Z.div_mod_to_equations; lia.
Qed.

(** Behind a first byte below 0x80, or a prefix that is not whole,
    [read_prefix] gives less than 0x80. *)
Lemma read_prefix_small (bytes : list byte) :
  long_prefix bytes = false -> -4 <= fst (read_prefix bytes) < 0x80.
Proof.
  destruct bytes as [|b r]; [cbn; lia|].
  pose proof (octet_range b) as Hb.
  unfold long_prefix, read_prefix, prefix_size. cbn [length].
  destruct (0xE0 <=? octet b) eqn:E4.
  { assert ((0x80 <=? octet b) = true) as -> by lia.
    destruct r as [|b2 [|b1 [|b0 r']]]; cbn; intros; (lia || discriminate). }
  destruct (0xC0 <=? octet b) eqn:E3.
  { assert ((0x80 <=? octet b) = true) as -> by lia.
    destruct r as [|b1 [|b0 r']]; cbn; intros; (lia || discriminate). }
  destruct (0x80 <=? octet b) eqn:E2.
  { destruct r as [|b0 r']; cbn; intros; (lia || discriminate). }
  cbn [fst]. lia.
Qed.

(** The one byte that a big-endian build writes for a length below 0x80:
    [lengthData[0]], the high byte of the [int]. *)
Lemma encodedLengthData_big_endian_one (n : Z) :
  0 <= n < 0x80 -> encodedLengthData Q_BIG_ENDIAN n = Some [x00].
Proof.
  intros Hn. unfold encodedLengthData.
  assert ((n <? 0x80) = true) as -> by lia.
  unfold at_, int_bytes. cbn [nth]. do 2 f_equal.
  rewrite Z.shiftr_div_pow2 by lia. change (2 ^ (8 * 3)) with 16777216.
  assert (n / 16777216 = 0) as ->; [|reflexivity].
  Z.div_mod_to_equations; lia.
Qed.

(** C1, where the code departs from the round trip. A length below 0x80
    that [writeLength] encodes on a little-endian build is read back by
    [readLength] as the same length, with exactly the prefix consumed.
    From 0x80 to below 0x10000000, in either byte order, [writeLength]
    writes the prefix and [readLength], having read the whole of it into
    the block of [lengthData], gives that block back twice: the program
    is ended in it and no length is returned. On a big-endian build the
    one-byte branch of [writeLength], the only one without a byte-order
    case, writes the high byte of the [int]: every length below 0x80 goes
    out as 00 and is read back as 0. [writeLength] throws "Word too long"
    from 0x10000000 on, and [readLength] returns nothing but a failure
    code or a length below 0x80. *)
Theorem length_codec_divergence :
  (forall n c, 0 <= n < 0x80 -> Q_BYTE_ORDER = Q_LITTLE_ENDIAN ->
     exists prefix,
       writeLength Q_BYTE_ORDER n c = Ret tt (wrote prefix c)
       /\ forall rest c',
            readLength Q_BYTE_ORDER (with_rx (prefix ++ rest) c')
            = Ret n (with_rx rest c'))
  /\ (forall n c, 0x80 <= n < 0x10000000 ->
        exists prefix,
          writeLength Q_BYTE_ORDER n c = Ret tt (wrote prefix c)
          /\ forall rest c',
               readLength Q_BYTE_ORDER (with_rx (prefix ++ rest) c')
               = Aborted (with_rx rest c'))
  /\ (forall n c, 0 <= n < 0x80 -> Q_BYTE_ORDER = Q_BIG_ENDIAN ->
        writeLength Q_BYTE_ORDER n c = Ret tt (wrote [x00] c)
        /\ forall rest c',
             readLength Q_BYTE_ORDER (with_rx (x00 :: rest) c')
             = Ret 0 (with_rx rest c'))
  /\ (forall n c, 0x10000000 <= n ->
        writeLength Q_BYTE_ORDER n c = Throw "Word too long" c)
  /\ (forall c n, returned (readLength Q_BYTE_ORDER c) = Some n ->
        -4 <= n < 0x80).
Proof.
  split; [|split; [|split; [|split]]].
  - intros n c Hn Hbo.
    pose proof (encodedLengthData_spec_encode n (or_introl Hbo)) as Hspec.
    destruct (encodedLengthData_short n) as [prefix Hp]; [lia|].
    exists prefix. split.
    + unfold writeLength. now rewrite Hp.
    + intros rest c'. rewrite readLength_read_prefix, rx_with_rx.
      rewrite (long_prefix_spec_encode n prefix rest) by (lia || congruence).
      assert ((0x80 <=? n) = false) as -> by lia.
      rewrite (read_prefix_spec_encode n prefix rest) by (lia || congruence).
      reflexivity.
  - intros n c Hn.
    assert (Hbo : Q_BYTE_ORDER = Q_LITTLE_ENDIAN \/ 0x80 <= n) by (right; lia).
    pose proof (encodedLengthData_spec_encode n Hbo) as Hspec.
    destruct (encodedLengthData_short n) as [prefix Hp]; [lia|].
    exists prefix. split.
    + unfold writeLength. now rewrite Hp.
    + intros rest c'. rewrite readLength_read_prefix, rx_with_rx.
      rewrite (long_prefix_spec_encode n prefix rest) by (lia || congruence).
      assert ((0x80 <=? n) = true) as -> by lia.
      rewrite (read_prefix_spec_encode n prefix rest) by (lia || congruence).
      reflexivity.
  - intros n c Hn Hbo. split.
    + unfold writeLength. rewrite Hbo, encodedLengthData_big_endian_one by exact Hn.
      reflexivity.
    + intros rest c'. rewrite readLength_read_prefix, rx_with_rx. reflexivity.
  - intros n c Hn. unfold writeLength.
    now rewrite encodedLengthData_too_long.
  - intros c n. rewrite readLength_read_prefix.
    destruct (long_prefix (rx (m_sock c))) eqn:E; cbn [returned]; [discriminate|].
    intros H; apply Some_inj in H; subst n.
    apply read_prefix_small, E.
Qed.

End Codec.

(** C1 at sample lengths: 5 travels on a little-endian build; behind the
    prefix 81 2C of 300 the program is ended in [readLength], in either
    byte order; and on a big-endian build 5 is written as 00 and read back
    as 0. *)
Lemma length_codec_divergence_witness :
  (exists prefix,
     writeLength Q_LITTLE_ENDIAN 5 (Sample.connected LogedIn [])
     = Ret tt (wrote prefix (Sample.connected LogedIn []))
     /\ forall rest (c' : @Comm Sample.sentences),
          readLength Q_LITTLE_ENDIAN (with_rx (prefix ++ rest) c')
          = Ret 5 (with_rx rest c'))
  /\ (exists prefix,
        writeLength Q_BIG_ENDIAN 300 (Sample.connected LogedIn [])
        = Ret tt (wrote prefix (Sample.connected LogedIn []))
        /\ forall rest (c' : @Comm Sample.sentences),
             readLength Q_BIG_ENDIAN (with_rx (prefix ++ rest) c')
             = Aborted (with_rx rest c'))
  /\ (writeLength Q_BIG_ENDIAN 5 (Sample.connected LogedIn [])
      = Ret tt (wrote [x00] (Sample.connected LogedIn []))
      /\ forall rest (c' : @Comm Sample.sentences),
           readLength Q_BIG_ENDIAN (with_rx (x00 :: rest) c')
           = Ret 0 (with_rx rest c')).
Proof.
  split; [|split].
  - destruct (@length_codec_divergence Sample.sentences Q_LITTLE_ENDIAN) as [H _].
    apply (H 5 (Sample.connected LogedIn [])); [lia | reflexivity].
  - destruct (@length_codec_divergence Sample.sentences Q_BIG_ENDIAN) as [_ [H _]].
    apply (H 300 (Sample.connected LogedIn [])); lia.
  - destruct (@length_codec_divergence Sample.sentences Q_BIG_ENDIAN) as [_ [_ [H _]]].
    apply (H 5 (Sample.connected LogedIn [])); [lia | reflexivity].
Defined.

(** The same, evaluated: the bytes 81 2C, of the length 300, and the byte
    41 behind them. *)
Example readLength_300 :
  writeLength Q_LITTLE_ENDIAN 300 (Sample.connected LogedIn [])
  = Ret tt (wrote [x81; x2c] (Sample.connected LogedIn []))
  /\ readLength Q_LITTLE_ENDIAN (Sample.connected LogedIn [x81; x2c; x41])
     = Aborted (Sample.connected LogedIn [x41])
  /\ readLength Q_BIG_ENDIAN (Sample.connected LogedIn [x81; x2c; x41])
     = Aborted (Sample.connected LogedIn [x41]).
Proof. repeat split; reflexivity. Qed.

(** ** The word framer *)

Section WordFramer.

Context {sentenceAPI : SentenceAPI}.
Variable Q_BYTE_ORDER : ByteOrder.

(** A first byte below 0x80 is the length itself. *)
Lemma read_prefix_one (b : byte) (rest : list byte) :
  octet b < 0x80 -> read_prefix (b :: rest) = (octet b, rest).
Proof.
  intros H. unfold read_prefix.
  assert ((0xE0 <=? octet b) = false) as -> by lia.
  assert ((0xC0 <=? octet b) = false) as -> by lia.
  assert ((0x80 <=? octet b) = false) as -> by lia.
  reflexivity.
Qed.

(** The length byte alone: the length is noted and more data is needed. *)
Lemma readWord_length_only (c : Comm) (b : byte) :
  incomingWordSize c <= 0 ->
  rx (m_sock c) = [b] ->
  0 < octet b < 0x80 ->
  readWord Q_BYTE_ORDER c = Ret (-1) (set_incomingWordSize (octet b) (with_rx [] c)).
Proof.
  intros Hs Hrx Hb. unfold readWord, bind, get.
  assert ((incomingWordSize c <=? 0) = true) as -> by lia.
  rewrite readLength_read_prefix, Hrx, long_prefix_one, read_prefix_one by lia.
  cbn [fst snd modify].
  destruct (octet b) as [|p|p] eqn:E; try lia.
  destruct c as [[st bytes tx_ btw] u pw w s sc l ws id em].
  unfold ret, m_sock_read, socket_read.
  cbn [with_rx set_m_sock set_incomingWordSize m_sock rx state tx bytesToWrite
       m_Username m_Password incomingWord incomingSentence sentenceCompleted
       m_loginState incomingWordSize ID emitted].
  rewrite firstn_nil, skipn_nil. reflexivity.
Qed.

(** A part of the body: it is appended to what is buffered, and the word
    is complete when nothing remains to be read. *)
Lemma readWord_body (c : Comm) (data : list byte) :
  0 < incomingWordSize c ->
  rx (m_sock c) = data ->
  data <> [] ->
  count data <= incomingWordSize c ->
  readWord Q_BYTE_ORDER c
  = Ret (if incomingWordSize c =? count data then 1 else -1)
        (set_incomingWord (incomingWord c ++ data)
           (set_incomingWordSize (incomingWordSize c - count data) (with_rx [] c))).
Proof.
  intros Hs Hrx Hne Hle. unfold readWord, bind, get.
  assert ((incomingWordSize c <=? 0) = false) as -> by lia.
  unfold ret, m_sock_read, socket_read, count in *.
  assert (Hf : firstn (Z.to_nat (incomingWordSize c)) (rx (m_sock c)) = data)
    by (rewrite Hrx; apply firstn_all2; lia).
  assert (Hk : skipn (Z.to_nat (incomingWordSize c)) (rx (m_sock c)) = [])
    by (rewrite Hrx; apply skipn_all2; lia).
  rewrite Hf, Hk.
  assert (Z.of_nat (length data) <> 0) by (destruct data; [congruence | cbn; lia]).
  assert ((Z.of_nat (length data) =? 0) = false) as -> by lia.
  destruct c as [[st bytes tx_ btw] u pw w s sc l ws id em].
  cbn in *.
  destruct (ws =? Z.of_nat (length data)) eqn:E.
  - assert ((ws - Z.of_nat (length data) =? 0) = true) as -> by lia. reflexivity.
  - assert ((ws - Z.of_nat (length data) =? 0) = false) as -> by lia. reflexivity.
Qed.

(** Length byte and body at once. *)
Lemma readWord_whole (c : Comm) (b : byte) (word : list byte) :
  incomingWordSize c <= 0 ->
  rx (m_sock c) = b :: word ->
  octet b = count word ->
  0 < octet b < 0x80 ->
  readWord Q_BYTE_ORDER c
  = Ret 1 (set_incomingWord (incomingWord c ++ word)
             (set_incomingWordSize 0 (with_rx [] c))).
Proof.
  intros Hs Hrx Hlen Hb. unfold readWord, bind, get.
  assert ((incomingWordSize c <=? 0) = true) as -> by lia.
  rewrite readLength_read_prefix, Hrx, long_prefix_one, read_prefix_one by lia.
  cbn [fst snd modify].
  destruct (octet b) as [|p|p] eqn:E; try lia.
  unfold ret, m_sock_read, socket_read, count in *.
  destruct c as [[st bytes tx_ btw] u pw w s sc l ws id em].
  cbn in Hrx |- *. cbn [m_sock rx].
  rewrite firstn_all2, skipn_all2 by lia.
  assert ((Z.of_nat (length word) =? 0) = false) as -> by lia.
  cbn -[Z.sub Z.of_nat]. rewrite Hlen, Z.sub_diag. reflexivity.
Qed.

(** One byte of a body that it does not complete. *)
Lemma readWord_body_byte (c : Comm) (b : byte) :
  rx (m_sock c) = [] ->
  1 < incomingWordSize c ->
  readWord Q_BYTE_ORDER (arrive [b] c)
  = Ret (-1) (set_incomingWord (incomingWord c ++ [b])
                (set_incomingWordSize (incomingWordSize c - 1) c)).
Proof.
  intros Hrx Hs.
  rewrite (readWord_body (arrive [b] c) [b]).
  - change (incomingWordSize (arrive [b] c)) with (incomingWordSize c).
    change (count [b]) with 1.
    assert ((incomingWordSize c =? 1) = false) as -> by (apply Z.eqb_neq; lia).
    f_equal. destruct c as [[st bytes tx_ btw] u pw w s sc l ws id em].
    cbn in Hrx. subst bytes. reflexivity.
  - change (incomingWordSize (arrive [b] c)) with (incomingWordSize c). lia.
  - unfold arrive. cbn. now rewrite Hrx.
  - discriminate.
  - change (incomingWordSize (arrive [b] c)) with (incomingWordSize c).
    change (count [b]) with 1. lia.
Qed.

(** The byte that completes a body. *)
Lemma readWord_body_last (c : Comm) (b : byte) :
  rx (m_sock c) = [] ->
  incomingWordSize c = 1 ->
  readWord Q_BYTE_ORDER (arrive [b] c)
  = Ret 1 (set_incomingWord (incomingWord c ++ [b]) (set_incomingWordSize 0 c)).
Proof.
  intros Hrx Hs.
  rewrite (readWord_body (arrive [b] c) [b]).
  - change (incomingWordSize (arrive [b] c)) with (incomingWordSize c).
    change (count [b]) with 1. rewrite Hs. cbn [Z.eqb Pos.eqb Z.sub Z.add Z.opp Z.pos_sub].
    f_equal. destruct c as [[st bytes tx_ btw] u pw w s sc l ws id em].
    cbn in Hrx. subst bytes. reflexivity.
  - change (incomingWordSize (arrive [b] c)) with (incomingWordSize c). lia.
  - unfold arrive. cbn. now rewrite Hrx.
  - discriminate.
  - change (incomingWordSize (arrive [b] c)) with (incomingWordSize c).
    change (count [b]) with 1. lia.
Qed.

(** While the body is incomplete, each byte polled is appended to the
    buffered word and the poll asks for more. *)
Lemma poll_bytewise_partial (data : list byte) :
  forall c : Comm,
    rx (m_sock c) = [] ->
    count data < incomingWordSize c ->
    poll_bytewise Q_BYTE_ORDER data c
    = (repeat (Some (-1)) (length data),
       set_incomingWord (incomingWord c ++ data)
         (set_incomingWordSize (incomingWordSize c - count data) c)).
Proof.
  induction data as [|b rest IH]; intros c Hrx Hlt.
  - destruct c as [[st bytes tx_ btw] u pw w s sc l ws id em].
    unfold count; cbn -[Z.sub]. now rewrite app_nil_r, Z.sub_0_r.
  - assert (Hc : count (b :: rest) = 1 + count rest) by (unfold count; cbn [length]; lia).
    rewrite Hc in *.
    assert (0 <= count rest) by (unfold count; lia).
    cbn [poll_bytewise].
    rewrite readWord_body_byte by (assumption || lia).
    cbn [final returned]. rewrite IH.
    + cbn [set_incomingWord set_incomingWordSize incomingWord incomingWordSize
           m_sock m_Username m_Password incomingSentence sentenceCompleted
           m_loginState ID emitted length repeat].
      rewrite <- app_assoc. cbn [app].
      replace (incomingWordSize c - 1 - count rest)
        with (incomingWordSize c - (1 + count rest)) by lia.
      reflexivity.
    + exact Hrx.
    + change (count rest < incomingWordSize c - 1). lia.
Qed.

Lemma poll_bytewise_app (a b : list byte) (c : Comm) :
  poll_bytewise Q_BYTE_ORDER (a ++ b) c
  = (fst (poll_bytewise Q_BYTE_ORDER a c)
       ++ fst (poll_bytewise Q_BYTE_ORDER b (snd (poll_bytewise Q_BYTE_ORDER a c))),
     snd (poll_bytewise Q_BYTE_ORDER b (snd (poll_bytewise Q_BYTE_ORDER a c)))).
Proof.
  revert c. induction a as [|x a IH]; intros c.
  - cbn. now destruct (poll_bytewise Q_BYTE_ORDER b c).
  - cbn [app poll_bytewise]. rewrite IH.
    destruct (poll_bytewise Q_BYTE_ORDER a _) as [rs c'].
    cbn [fst snd]. reflexivity.
Qed.

(** A whole body polled byte by byte. *)
Lemma poll_bytewise_body (word : list byte) (c : Comm) :
  word <> [] ->
  rx (m_sock c) = [] ->
  incomingWordSize c = count word ->
  poll_bytewise Q_BYTE_ORDER word c
  = (repeat (Some (-1)) (length word - 1) ++ [Some 1],
     set_incomingWord (incomingWord c ++ word) (set_incomingWordSize 0 c)).
Proof.
  intros Hne Hrx Hs.
  destruct (exists_last Hne) as [init [b ->]].
  assert (Hci : count (init ++ [b]) = count init + 1)
    by (unfold count; rewrite length_app; cbn [length]; lia).
  rewrite Hci in Hs.
  rewrite poll_bytewise_app, poll_bytewise_partial by (try exact Hrx; lia).
  cbn [fst snd poll_bytewise].
  rewrite readWord_body_last.
  - cbn [final returned set_incomingWord set_incomingWordSize incomingWord
         incomingWordSize m_sock m_Username m_Password incomingSentence
         sentenceCompleted m_loginState ID emitted].
    rewrite <- app_assoc, length_app. cbn [length app].
    replace (length init + 1 - 1)%nat with (length init) by lia.
    reflexivity.
  - exact Hrx.
  - cbn [set_incomingWord set_incomingWordSize incomingWordSize]. lia.
Qed.

(** C5: Word reading is resumable. For a word of 1 to 127 bytes, such as
    "hello", whose length takes one byte: delivering the length byte and
    then the body one byte at a time, with one [readWord] for each byte,
    returns -1 (more data needed) on every call before the last byte and
    1 on the call that sees the last byte, leaving the word in
    [incomingWord]; a single [readWord] over all the bytes at once returns
    1 and leaves the same object; and after the length byte and any [k]
    bytes of the body, the [k] bytes are buffered in [incomingWord]. *)
Theorem readWord_resumable (c : Comm) (word : list byte) :
  0 < count word < 0x80 ->
  incomingWordSize c <= 0 ->
  incomingWord c = [] ->
  rx (m_sock c) = [] ->
  let frame := to_char (count word) :: word in
  let done := set_incomingWord word (set_incomingWordSize 0 c) in
  poll_bytewise Q_BYTE_ORDER frame c
  = (repeat (Some (-1)) (length word) ++ [Some 1], done)
  /\ readWord Q_BYTE_ORDER (arrive frame c) = Ret 1 done
  /\ forall k, (k < length word)%nat ->
       incomingWord (snd (poll_bytewise Q_BYTE_ORDER (firstn (S k) frame) c))
       = firstn k word.
Proof.
  intros Hlen Hs Hw Hrx frame done.
  assert (Hb : octet (to_char (count word)) = count word)
    by (rewrite octet_to_char; apply Z.mod_small; lia).
  assert (Hfirst : readWord Q_BYTE_ORDER (arrive [to_char (count word)] c)
                   = Ret (-1) (set_incomingWordSize (count word) c)).
  { rewrite (readWord_length_only _ (to_char (count word))).
    - rewrite Hb. f_equal.
      destruct c as [[st bytes tx_ btw] u pw w s sc l ws id em].
      cbn in Hrx. subst bytes. reflexivity.
    - exact Hs.
    - unfold arrive. cbn. now rewrite Hrx.
    - lia. }
  split; [|split].
  - unfold frame. cbn [poll_bytewise]. rewrite Hfirst. cbn [final returned].
    rewrite poll_bytewise_body.
    + cbn [set_incomingWord set_incomingWordSize incomingWord incomingWordSize
           m_sock m_Username m_Password incomingSentence sentenceCompleted
           m_loginState ID emitted].
      rewrite Hw. cbn [app]. unfold done. f_equal.
      destruct word as [|x word']; [unfold count in Hlen; cbn in Hlen; lia|].
      cbn [length]. rewrite Nat.sub_succ, Nat.sub_0_r. reflexivity.
    + intros ->. unfold count in Hlen. cbn in Hlen. lia.
    + exact Hrx.
    + reflexivity.
  - unfold frame. rewrite (readWord_whole _ (to_char (count word)) word).
    + unfold done.
      change (incomingWord (arrive (to_char (count word) :: word) c))
        with (incomingWord c).
      rewrite Hw. cbn [app]. f_equal.
      destruct c as [[st bytes tx_ btw] u pw w s sc l ws id em].
      cbn in Hrx. subst bytes. reflexivity.
    + exact Hs.
    + unfold arrive. cbn. now rewrite Hrx.
    + exact Hb.
    + lia.
  - intros k Hk. unfold frame. cbn [firstn poll_bytewise].
    rewrite Hfirst. cbn [final returned].
    assert (Hck : count (firstn k word) = Z.of_nat k)
      by (unfold count; rewrite length_firstn; lia).
    rewrite poll_bytewise_partial.
    + cbn [snd set_incomingWord set_incomingWordSize incomingWord]. now rewrite Hw.
    + exact Hrx.
    + cbn [incomingWordSize set_incomingWordSize]. unfold count in *. lia.
Qed.

(** C2, as amended: when the first byte of a prefix announces more
    prefix bytes than are available, [readLength] returns -2, -3 or -4
    (never the -1 of "nothing read"), by the first byte it could not
    read, having taken the bytes that were available from the socket and
    kept them nowhere; [readWord] then throws
    "Incomplete word length arrived.", with that code left in
    [incomingWordSize]. *)
Theorem readWord_incomplete_length (c : Comm) (b : byte) (more : list byte) :
  incomingWordSize c <= 0 ->
  rx (m_sock c) = b :: more ->
  (S (length more) < prefix_size b)%nat ->
  let code := - (2 + count more) in
  -4 <= code <= -2
  /\ readLength Q_BYTE_ORDER c = Ret code (with_rx [] c)
  /\ readWord Q_BYTE_ORDER c
     = Throw "Incomplete word length arrived."
             (set_incomingWordSize code (with_rx [] c)).
Proof.
  intros Hs Hrx Hshort code.
  assert (Hp : read_prefix (b :: more) = (code, []) /\ -4 <= code <= -2).
  { unfold prefix_size in Hshort. unfold read_prefix, code, count.
    destruct (0xE0 <=? octet b).
    { destruct more as [|? [|? [|? ?]]]; cbn in Hshort |- *; (split; [reflexivity|lia]) || lia. }
    destruct (0xC0 <=? octet b).
    { destruct more as [|? [|? ?]]; cbn in Hshort |- *; (split; [reflexivity|lia]) || lia. }
    destruct (0x80 <=? octet b).
    { destruct more as [|? ?]; cbn in Hshort |- *; (split; [reflexivity|lia]) || lia. }
    lia. }
  destruct Hp as [Hp Hcode].
  assert (Hl : readLength Q_BYTE_ORDER c = Ret code (with_rx [] c))
    by (now rewrite readLength_read_prefix, Hrx, long_prefix_short, Hp).
  split; [exact Hcode|]. split; [exact Hl|].
  unfold readWord, bind, get.
  assert ((incomingWordSize c <=? 0) = true) as -> by lia.
  rewrite Hl. cbn [modify].
  assert (code = -2 \/ code = -3 \/ code = -4) as [-> | [-> | ->]] by lia;
    reflexivity.
Qed.

End WordFramer.

(** C5, witness: the word "hello", behind its length byte 05. *)
Lemma readWord_resumable_witness :
  let c := Sample.connected LogedIn [] in
  let word := list_byte_of_string "hello" in
  let frame := to_char (count word) :: word in
  let done := set_incomingWord word (set_incomingWordSize 0 c) in
  poll_bytewise Q_LITTLE_ENDIAN frame c
  = (repeat (Some (-1)) (length word) ++ [Some 1], done)
  /\ readWord Q_LITTLE_ENDIAN (arrive frame c) = Ret 1 done
  /\ forall k, (k < length word)%nat ->
       incomingWord (snd (poll_bytewise Q_LITTLE_ENDIAN (firstn (S k) frame) c))
       = firstn k word.
Proof.
  apply (@readWord_resumable Sample.sentences Q_LITTLE_ENDIAN
           (Sample.connected LogedIn []) (list_byte_of_string "hello")).
  - vm_compute. split; reflexivity.
  - vm_compute. discriminate.
  - reflexivity.
  - reflexivity.
Defined.

(** The same run, evaluated: six polls, the last one returning the word. *)
Example hello_bytewise :
  poll_bytewise Q_BIG_ENDIAN (x05 :: list_byte_of_string "hello")
                (Sample.connected LogedIn [])
  = ([Some (-1); Some (-1); Some (-1); Some (-1); Some (-1); Some 1],
     set_incomingWord (list_byte_of_string "hello")
       (set_incomingWordSize 0 (Sample.connected LogedIn []))).
Proof. reflexivity. Qed.

(** C2, witness: 81, the first byte of a two-byte prefix, alone. *)
Lemma readWord_incomplete_length_witness :
  let c := Sample.connected LogedIn [x81] in
  let code := - (2 + count (@nil byte)) in
  -4 <= code <= -2
  /\ readLength Q_LITTLE_ENDIAN c = Ret code (with_rx [] c)
  /\ readWord Q_LITTLE_ENDIAN c
     = Throw "Incomplete word length arrived."
             (set_incomingWordSize code (with_rx [] c)).
Proof.
  apply (@readWord_incomplete_length Sample.sentences Q_LITTLE_ENDIAN
           (Sample.connected LogedIn [x81]) x81 []).
  - vm_compute. discriminate.
  - reflexivity.
  - vm_compute. apply le_n.
Defined.

(** C2, counterexample: the prefix 81 00 announces a word of 256 bytes.
    When 81 arrives alone, [readWord] throws; when 00 arrives
    afterwards, the next [readWord] takes it for the prefix of an empty
    word and returns 0: the byte 81 was not retained. *)
Lemma readWord_incomplete_length_counterexample :
  let c := Sample.connected LogedIn [] in
  spec_encode 256 = Some [x81; x00]
  /\ readWord Q_LITTLE_ENDIAN (arrive [x81] c)
     = Throw "Incomplete word length arrived." (set_incomingWordSize (-2) c)
  /\ readWord Q_LITTLE_ENDIAN
       (arrive [x00] (final (readWord Q_LITTLE_ENDIAN (arrive [x81] c))))
     = Ret 0 (set_incomingWordSize 0 c).
Proof. repeat split; reflexivity. Qed.

(** ** Connection state and the read-only queries *)

Section Connection.

Context {sentenceAPI : SentenceAPI}.
Variable Q_BYTE_ORDER : ByteOrder.
Variable loginRequest_slot : QString * QString -> QString * QString.

(** C9: [isLoged] holds exactly when the socket is in [ConnectedState] and
    the login state is [LogedIn]; so it implies [isConnected], and it is
    false whenever the connection is not up, whatever the login state
    still is. *)
Theorem isLoged_implies_isConnected (c : Comm) :
  (isLoged c = true <->
     state (m_sock c) = ConnectedState /\ m_loginState c = LogedIn)
  /\ (isLoged c = true -> isConnected c = true)
  /\ (isConnected c = false -> isLoged c = false).
Proof.
  unfold isLoged, isConnected.
  destruct (state (m_sock c)), (m_loginState c); cbn;
    repeat split; intros; try discriminate; try reflexivity;
    try (destruct H; discriminate).
Qed.

(** C3, as amended: [closeCom(true)] always returns. When the socket is
    in [ConnectedState] it leaves the socket in [UnconnectedState], with
    nothing left to read, and emits [comStateChanged(Unconnected)], once
    from the socket's notification and once itself, and then
    [comError("forced abort/close on socket")]; in any other state it
    changes nothing. In both cases [incomingWord], [incomingWordSize],
    [incomingSentence], [sentenceCompleted] and [m_loginState] keep their
    values. *)
Theorem closeCom_force (c : Comm) :
  let c' := final (closeCom Q_BYTE_ORDER loginRequest_slot true c) in
  closeCom Q_BYTE_ORDER loginRequest_slot true c = Ret tt c'
  /\ (isConnected c = true ->
        state (m_sock c') = UnconnectedState
        /\ rx (m_sock c') = []
        /\ emitted c'
           = emitted c ++ [comStateChanged Unconnected; comStateChanged Unconnected;
                           comError (QS "forced abort/close on socket")])
  /\ (isConnected c = false -> c' = c)
  /\ incomingWord c' = incomingWord c
  /\ incomingWordSize c' = incomingWordSize c
  /\ incomingSentence c' = incomingSentence c
  /\ sentenceCompleted c' = sentenceCompleted c
  /\ m_loginState c' = m_loginState c.
Proof.
  destruct c as [[st bytes tx_ btw] u pw w s sc l ws id em].
  destruct st; cbn; repeat split; intros; try discriminate; try reflexivity.
  now rewrite <- !app_assoc.
Qed.

End Connection.

(** C3, counterexample: forced close of a connection that is still being
    set up leaves it in [ConnectingState]; and forced close of a
    connection that is logged in and has read the first two bytes of a
    five-byte word leaves [LogedIn], the two bytes and the three bytes
    still expected in place. *)
Lemma closeCom_force_counterexample :
  let connecting :=
    set_m_sock (mkSocket ConnectingState [] [] 0) (Sample.connected NoLoged []) in
  let reading :=
    final (deliver Q_LITTLE_ENDIAN Sample.digest16 Sample.credentials
             (x05 :: list_byte_of_string "he") (Sample.connected LogedIn [])) in
  let closed := final (closeCom Q_LITTLE_ENDIAN Sample.credentials true reading) in
  state (m_sock (final (closeCom Q_LITTLE_ENDIAN Sample.credentials true connecting)))
  = ConnectingState
  /\ state (m_sock closed) = UnconnectedState
  /\ m_loginState closed = LogedIn
  /\ incomingWordSize closed = 3
  /\ incomingWord closed = list_byte_of_string "he".
Proof. repeat split; reflexivity. Qed.

(** After a forced close the login state can still be [LogedIn], and
    [isLoged] is false. *)
Example isLoged_after_forced_close :
  let closed :=
    final (closeCom Q_LITTLE_ENDIAN Sample.credentials true (Sample.connected LogedIn [])) in
  m_loginState closed = LogedIn /\ isLoged closed = false.
Proof. split; reflexivity. Qed.

(** ** Decimal numerals *)

Lemma nb_digits_double (d : uint) :
  (nb_digits (Little.double d) <= S (nb_digits d)
   /\ nb_digits (Little.succ_double d) <= S (nb_digits d))%nat.
Proof.
  induction d; cbn [Little.double Little.succ_double nb_digits]; lia.
Qed.

Lemma nb_digits_to_little_uint (p : positive) :
  (nb_digits (Pos.to_little_uint p) <= Pos.size_nat p)%nat.
Proof.
  induction p; cbn [Pos.to_little_uint Pos.size_nat nb_digits];
    try pose proof (nb_digits_double (Pos.to_little_uint p)); lia.
Qed.

Lemma length_string_of_uint (d : uint) :
  String.length (NilEmpty.string_of_uint d) = nb_digits d.
Proof. induction d; cbn; congruence. Qed.

Lemma length_string_of_pos (p : positive) :
  (String.length (NilZero.string_of_uint (Pos.to_uint p)) <= Pos.size_nat p)%nat.
Proof.
  pose proof (DecimalPos.Unsigned.to_uint_nonnil p) as Hn.
  unfold NilZero.string_of_uint.
  destruct (Pos.to_uint p) eqn:E; try congruence;
    rewrite length_string_of_uint, <- E; unfold Pos.to_uint;
    rewrite DecimalFacts.nb_digits_rev; apply nb_digits_to_little_uint.
Qed.

Lemma length_QS (s : string) : length (QS s) = String.length s.
Proof.
  unfold QS. rewrite length_map. induction s; cbn; congruence.
Qed.

Lemma QS_inj (s t : string) : QS s = QS t -> s = t.
Proof.
  unfold QS. intros H.
  rewrite <- (string_of_list_ascii_of_string s), <- (string_of_list_ascii_of_string t).
  f_equal. revert H.
  generalize (list_ascii_of_string s) (list_ascii_of_string t).
  induction l as [|a l IH]; intros [|b l']; cbn; try congruence.
  intros [= Hab Hl]. f_equal; [|now apply IH].
  now rewrite <- (ascii_N_embedding a), <- (ascii_N_embedding b), Hab.
Qed.

(** The numeral of an [int] has at most 34 characters. *)
Lemma length_numeral_bound (p : positive) :
  Z.pos p < 4294967296 ->
  (String.length (NilZero.string_of_uint (Pos.to_uint p)) <= 33)%nat.
Proof.
  intros Hp.
  assert (Hlt : (p < 4294967296)%positive).
  { destruct (Pos.ltb_spec p 4294967296) as [L|G]; [exact L|].
    exfalso. apply Pos2Z.pos_le_pos in G. lia. }
  apply Pos.size_nat_monotone in Hlt.
  eapply Nat.le_trans; [apply length_string_of_pos | exact Hlt].
Qed.
Lemma count_number (n : Z) : INT_MIN <= n <= INT_MAX -> count (number n) <= 34.
Proof.
  unfold INT_MIN, INT_MAX, count, number. intros H. rewrite length_QS.
  destruct n as [|p|p]; cbn [Z.to_int NilZero.string_of_int String.length].
  - cbn. lia.
  - assert (Hp : Z.pos p < 4294967296) by lia.
    apply length_numeral_bound in Hp. revert Hp.
    generalize (String.length (NilZero.string_of_uint (Pos.to_uint p))). lia.
  - assert (Hp : Z.pos p < 4294967296) by lia.
    apply length_numeral_bound in Hp. revert Hp.
    generalize (String.length (NilZero.string_of_uint (Pos.to_uint p))). lia.
Qed.

(** Different numbers have different numerals. *)
Lemma number_inj (a b : Z) : number a = number b -> a = b.
Proof.
  unfold number. intros H. apply QS_inj in H.
  apply DecimalZ.to_int_inj.
  assert (N : forall z, Z.to_int z <> Pos Nil /\ Z.to_int z <> Neg Nil).
  { intros [|p|p]; cbn; split; try discriminate;
      intros [= E]; now apply (DecimalPos.Unsigned.to_uint_nonnil p). }
  assert (E : Some (Z.to_int a) = Some (Z.to_int b)).
  { rewrite <- (NilZero.isi (Z.to_int a)), <- (NilZero.isi (Z.to_int b));
      try apply N. now rewrite H. }
  congruence.
Qed.

(** ** The sentence sender *)

Section Sender.

Context {sentenceAPI : SentenceAPI}.
Variable Q_BYTE_ORDER : ByteOrder.

Lemma wrote_nil (c : Comm) : wrote [] c = c.
Proof.
  destruct c as [[st bytes tx_ btw] u pw w s sc l ws id em].
  unfold wrote, socket_write, set_m_sock, count. cbn.
  now rewrite app_nil_r, Z.add_0_r.
Qed.

Lemma wrote_wrote (a b : list byte) (c : Comm) :
  wrote b (wrote a c) = wrote (a ++ b) c.
Proof.
  destruct c as [[st bytes tx_ btw] u pw w s sc l ws id em].
  unfold wrote, socket_write, set_m_sock, count. cbn [m_sock m_Username m_Password
    incomingWord incomingSentence sentenceCompleted m_loginState incomingWordSize
    ID emitted state rx tx bytesToWrite].
  rewrite <- app_assoc, length_app, Nat2Z.inj_add, Z.add_assoc. reflexivity.
Qed.

(** [sendWord] writes the frame of a word, or throws when it is too long. *)
Lemma sendWord_frame (word : QString) (c : Comm) :
  sendWord Q_BYTE_ORDER word c
  = if sendable word then Ret tt (wrote (frame Q_BYTE_ORDER word) c)
    else Throw "Word too long" c.
Proof.
  unfold sendWord, writeLength, bind, frame, sendable.
  destruct (count word <? 0x10000000) eqn:E.
  - destruct (encodedLengthData_short Q_BYTE_ORDER (count word)) as [prefix Hp]; [lia|].
    rewrite Hp. unfold m_sock_write, modify. now rewrite <- wrote_wrote.
  - rewrite encodedLengthData_too_long by lia. reflexivity.
Qed.

Lemma foreach_sendWord (words : list QString) (c : Comm) :
  foreach words (sendWord Q_BYTE_ORDER) c
  = if forallb sendable words
    then Ret tt (wrote (frames Q_BYTE_ORDER words) c)
    else Throw "Word too long" (wrote (frames Q_BYTE_ORDER words) c).
Proof.
  revert c. induction words as [|w rest IH]; intros c.
  - cbn. now rewrite wrote_nil.
  - cbn [foreach forallb frames]. unfold bind. rewrite sendWord_frame.
    destruct (sendable w); cbn [andb].
    + rewrite IH, wrote_wrote. reflexivity.
    + now rewrite wrote_nil.
Qed.

Lemma foreach_app {A} (a b : list A) (body : A -> M unit) (c : Comm) :
  foreach (a ++ b) body c = (foreach a body ;; foreach b body) c.
Proof.
  revert c. induction a as [|x a IH]; intros c; [reflexivity|].
  cbn [app foreach]. unfold bind. destruct (body x c); [apply IH | reflexivity ..].
Qed.

(** The first four statements of [sendSentence] send the head words. *)
Lemma sendSentence_head (sent : QSentence) (c : Comm) :
  (sendWord Q_BYTE_ORDER (command sent) ;;
   foreach (attributes_toWords sent) (sendWord Q_BYTE_ORDER) ;;
   foreach (APIattributes_toWords sent) (sendWord Q_BYTE_ORDER) ;;
   foreach (queries_toWords sent) (sendWord Q_BYTE_ORDER)) c
  = foreach (head_words sent) (sendWord Q_BYTE_ORDER) c.
Proof.
  unfold head_words. cbn [foreach]. unfold bind.
  destruct (sendWord Q_BYTE_ORDER (command sent) c) as [[] c1| |]; [|reflexivity ..].
  rewrite !foreach_app. unfold bind.
  destruct (foreach (attributes_toWords sent) _ c1) as [[] c2| |]; [|reflexivity ..].
  now rewrite foreach_app.
Qed.

Lemma arg_tag (word : QString) : arg (QS ".tag=%1") word = QS ".tag=" ++ word.
Proof. cbn. now rewrite app_nil_r. Qed.

Lemma sendable_nil : sendable [] = true.
Proof. reflexivity. Qed.

Lemma int_wrap_range (z : Z) : INT_MIN <= int_wrap z <= INT_MAX.
Proof.
  unfold int_wrap, INT_MIN, INT_MAX.
  pose proof (Z.mod_pos_bound (z + 2 ^ 31) (2 ^ 32)). lia.
Qed.

Lemma sendable_auto_tag (n : Z) :
  INT_MIN <= n <= INT_MAX -> sendable (arg (QS ".tag=%1") (number n)) = true.
Proof.
  intros H. rewrite arg_tag. unfold sendable.
  pose proof (count_number n H) as Hc. unfold count in *.
  rewrite length_app. change (length (QS ".tag=")) with 5%nat.
  apply Z.ltb_lt. rewrite Nat2Z.inj_add.
  revert Hc. generalize (Z.of_nat (length (number n))). intros k Hk.
  change (Z.of_nat 5) with 5. lia.
Qed.

(** [sendSentence] sends the head words and then runs its last three
    statements. *)
Lemma sendSentence_unfold (sent : QSentence) (addTag : bool) (c : Comm) :
  sendSentence Q_BYTE_ORDER sent addTag c
  = match foreach (head_words sent) (sendWord Q_BYTE_ORDER) c with
    | Ret _ c1 =>
        (word <- (if addTag then
                    word <- (if isEmpty (tag sent) then
                               modify (fun c => set_ID (int_wrap (ID c + 1)) c) ;;
                               c <- get ;;
                               ret (number (ID c))
                             else ret (tag sent)) ;;
                    sendWord Q_BYTE_ORDER (arg (QS ".tag=%1") word) ;;
                    ret word
                  else ret []) ;;
         sendWord Q_BYTE_ORDER [] ;;
         ret word) c1
    | Throw what c1 => Throw what c1
    | Aborted c1 => Aborted c1
    end.
Proof.
  rewrite <- sendSentence_head. unfold sendSentence, bind.
  destruct (sendWord Q_BYTE_ORDER (command sent) c) as [[] c1| |]; [|reflexivity ..].
  destruct (foreach (attributes_toWords sent) _ c1) as [[] c2| |]; [|reflexivity ..].
  destruct (foreach (APIattributes_toWords sent) _ c2) as [[] c3| |]; [|reflexivity ..].
  destruct (foreach (queries_toWords sent) _ c3) as [[] c4| |]; reflexivity.
Qed.

(** A sentence without a tag, sent with [addTag]: the counter is
    incremented and its numeral is the tag. *)
Lemma sendSentence_auto (sent : QSentence) (c : Comm) :
  tag sent = [] ->
  forallb sendable (head_words sent) = true ->
  let id := int_wrap (ID c + 1) in
  sendSentence Q_BYTE_ORDER sent true c
  = Ret (number id)
        (wrote (frame Q_BYTE_ORDER (QS ".tag=" ++ number id) ++ frame Q_BYTE_ORDER [])
           (set_ID id (wrote (frames Q_BYTE_ORDER (head_words sent)) c))).
Proof.
  intros Ht Hs id. rewrite sendSentence_unfold, foreach_sendWord, Hs, Ht.
  cbn [isEmpty]. unfold bind, modify, get, ret.
  rewrite sendWord_frame.
  cbn [ID set_ID wrote set_m_sock].
  rewrite (sendable_auto_tag (int_wrap (ID c + 1))) by apply int_wrap_range.
  rewrite sendWord_frame, sendable_nil, wrote_wrote, arg_tag. reflexivity.
Qed.

(** A sentence with a tag, sent with [addTag]: the tag is sent and
    returned as it is. *)
Lemma sendSentence_explicit (sent : QSentence) (c : Comm) :
  tag sent <> [] ->
  forallb sendable (head_words sent) = true ->
  sendable (QS ".tag=" ++ tag sent) = true ->
  sendSentence Q_BYTE_ORDER sent true c
  = Ret (tag sent)
        (wrote (frames Q_BYTE_ORDER (head_words sent)
                ++ frame Q_BYTE_ORDER (QS ".tag=" ++ tag sent)
                ++ frame Q_BYTE_ORDER []) c).
Proof.
  intros Ht Hs Hw. rewrite sendSentence_unfold, foreach_sendWord, Hs.
  destruct (tag sent) as [|x t] eqn:E; [congruence|].
  cbn [isEmpty]. unfold bind, ret.
  rewrite sendWord_frame, arg_tag, Hw, sendWord_frame, sendable_nil, !wrote_wrote.
  reflexivity.
Qed.

(** The counter after a send. *)
Lemma sendSentence_ID (sent : QSentence) (addTag : bool) (c : Comm) :
  ID (final (sendSentence Q_BYTE_ORDER sent addTag c))
  = if addTag && isEmpty (tag sent) && forallb sendable (head_words sent)
    then int_wrap (ID c + 1) else ID c.
Proof.
  rewrite sendSentence_unfold, foreach_sendWord.
  destruct (forallb sendable (head_words sent)); [|now rewrite !andb_false_r].
  rewrite andb_true_r.
  destruct addTag; cbn [andb].
  - destruct (isEmpty (tag sent)); unfold bind, modify, get, ret;
      rewrite sendWord_frame.
    + cbn [ID set_ID wrote set_m_sock].
      rewrite (sendable_auto_tag (int_wrap (ID c + 1))) by apply int_wrap_range.
      now rewrite sendWord_frame, sendable_nil.
    + destruct (sendable _); [|reflexivity].
      now rewrite sendWord_frame, sendable_nil.
  - unfold bind, ret. now rewrite sendWord_frame, sendable_nil.
Qed.

(** What a send returns depends on the object only through the counter. *)
Lemma sendSentence_returned (sent : QSentence) (addTag : bool) (c : Comm) :
  returned (sendSentence Q_BYTE_ORDER sent addTag c)
  = if forallb sendable (head_words sent) then
      if addTag then
        if isEmpty (tag sent) then Some (number (int_wrap (ID c + 1)))
        else if sendable (arg (QS ".tag=%1") (tag sent)) then Some (tag sent)
             else None
      else Some []
    else None.
Proof.
  rewrite sendSentence_unfold, foreach_sendWord.
  destruct (forallb sendable (head_words sent)); [|reflexivity].
  destruct addTag.
  - destruct (isEmpty (tag sent)); unfold bind, modify, get, ret;
      rewrite sendWord_frame.
    + cbn [ID set_ID wrote set_m_sock].
      rewrite (sendable_auto_tag (int_wrap (ID c + 1))) by apply int_wrap_range.
      now rewrite sendWord_frame, sendable_nil.
    + destruct (sendable _); [|reflexivity].
      now rewrite sendWord_frame, sendable_nil.
  - unfold bind, ret. now rewrite sendWord_frame, sendable_nil.
Qed.

(** C8: Tag allocation. Two consecutive sends with [addTag] of sentences
    that carry no tag and whose words are not too long return the
    numerals of the counter plus one and plus two, which are strictly
    increasing and distinct, as long as the 32-bit counter does not
    overflow; the counter of a new program is 0, and from 0 the first tag
    returned is "1"; and a send with [addTag] of a sentence that carries a
    tag returns that tag and writes the word [.tag=<tag>] with it, before
    the empty word that ends the sentence. *)
Theorem sendSentence_tags (c : Comm) (first second tagged : QSentence) :
  tag first = [] -> forallb sendable (head_words first) = true ->
  tag second = [] -> forallb sendable (head_words second) = true ->
  INT_MIN <= ID c -> ID c + 2 <= INT_MAX ->
  tag tagged <> [] -> forallb sendable (head_words tagged) = true ->
  sendable (QS ".tag=" ++ tag tagged) = true ->
  let r1 := sendSentence Q_BYTE_ORDER first true c in
  let r2 := sendSentence Q_BYTE_ORDER second true (final r1) in
  returned r1 = Some (number (ID c + 1))
  /\ returned r2 = Some (number (ID c + 2))
  /\ ID c + 1 < ID c + 2
  /\ number (ID c + 1) <> number (ID c + 2)
  /\ (forall indeterminate, ID (Comm_ctor indeterminate) = 0)
  /\ (ID c = 0 -> returned r1 = Some (QS "1"))
  /\ sendSentence Q_BYTE_ORDER tagged true c
     = Ret (tag tagged)
           (wrote (frames Q_BYTE_ORDER (head_words tagged)
                   ++ frame Q_BYTE_ORDER (QS ".tag=" ++ tag tagged)
                   ++ frame Q_BYTE_ORDER []) c).
Proof.
  intros Ht1 Hs1 Ht2 Hs2 Hlo Hhi Ht3 Hs3 Hw3 r1 r2.
  assert (H1 : returned r1 = Some (number (ID c + 1))).
  { unfold r1. rewrite sendSentence_returned, Hs1, Ht1. cbn [isEmpty].
    rewrite int_wrap_small by (unfold INT_MIN, INT_MAX in *; lia). reflexivity. }
  assert (HID : ID (final r1) = ID c + 1).
  { unfold r1. rewrite sendSentence_ID, Hs1, Ht1. cbn [isEmpty andb].
    apply int_wrap_small. unfold INT_MIN, INT_MAX in *; lia. }
  repeat split.
  - exact H1.
  - unfold r2. rewrite sendSentence_returned, Hs2, Ht2, HID. cbn [isEmpty].
    rewrite int_wrap_small by (unfold INT_MIN, INT_MAX in *; lia).
    do 2 f_equal. lia.
  - lia.
  - intros E. apply number_inj in E. lia.
  - intros E. rewrite H1, E. reflexivity.
  - now apply sendSentence_explicit.
Qed.

(** C10: Sending with [addTag] a sentence that carries a tag leaves the
    counter as it was, whether the send returns or throws; so any later
    send returns what it would have returned had this send not taken
    place, in particular the same generated tag; and a send changes the
    counter only when it is made with [addTag] for a sentence without a
    tag. *)
Theorem explicit_tag_keeps_counter (c : Comm) (sent : QSentence) :
  tag sent <> [] ->
  let r := sendSentence Q_BYTE_ORDER sent true c in
  ID (final r) = ID c
  /\ (forall (later : QSentence) (addTag : bool),
        returned (sendSentence Q_BYTE_ORDER later addTag (final r))
        = returned (sendSentence Q_BYTE_ORDER later addTag c))
  /\ (forall (other : QSentence) (addTag : bool),
        ID (final (sendSentence Q_BYTE_ORDER other addTag c)) <> ID c ->
        addTag = true /\ tag other = []).
Proof.
  intros Ht r.
  assert (H : ID (final r) = ID c).
  { unfold r. rewrite sendSentence_ID.
    destruct (tag sent); [congruence|]. reflexivity. }
  split; [exact H|]. split.
  - intros later addTag. now rewrite !sendSentence_returned, H.
  - intros other addTag. rewrite sendSentence_ID.
    destruct addTag; [|cbn; congruence].
    destruct (tag other); [auto|cbn; congruence].
Qed.

End Sender.

(** C8, witness: two untagged commands and one tagged "abc", on a
    connection whose counter is 0. *)
Lemma sendSentence_tags_witness :
  let c := Sample.connected LogedIn [] in
  let first : @QSentence Sample.sentences := Sample.mkSentence (QS "/interface/print") [] [] [] [] in
  let second : @QSentence Sample.sentences := Sample.mkSentence (QS "/ip/address/print") [] [] [] [] in
  let tagged : @QSentence Sample.sentences := Sample.mkSentence (QS "/ping") [] [] [] (QS "abc") in
  let r1 := sendSentence Q_LITTLE_ENDIAN first true c in
  let r2 := sendSentence Q_LITTLE_ENDIAN second true (final r1) in
  returned r1 = Some (number (ID c + 1))
  /\ returned r2 = Some (number (ID c + 2))
  /\ ID c + 1 < ID c + 2
  /\ number (ID c + 1) <> number (ID c + 2)
  /\ (forall indeterminate, ID (@Comm_ctor Sample.sentences indeterminate) = 0)
  /\ (ID c = 0 -> returned r1 = Some (QS "1"))
  /\ sendSentence Q_LITTLE_ENDIAN tagged true c
     = Ret (tag tagged)
           (wrote (frames Q_LITTLE_ENDIAN (head_words tagged)
                   ++ frame Q_LITTLE_ENDIAN (QS ".tag=" ++ tag tagged)
                   ++ frame Q_LITTLE_ENDIAN []) c).
Proof.
  apply (@sendSentence_tags Sample.sentences Q_LITTLE_ENDIAN
           (Sample.connected LogedIn [])
           (Sample.mkSentence (QS "/interface/print") [] [] [] [])
           (Sample.mkSentence (QS "/ip/address/print") [] [] [] [])
           (Sample.mkSentence (QS "/ping") [] [] [] (QS "abc")));
    try reflexivity; vm_compute; discriminate.
Defined.

(** The run of the witness, evaluated: the tags "1" and "2", and the
    bytes written for the tagged sentence. *)
Example sendSentence_tags_run :
  let c := Sample.connected LogedIn [] in
  let r1 := @sendSentence Sample.sentences Q_LITTLE_ENDIAN
              (Sample.mkSentence (QS "/interface/print") [] [] [] []) true c in
  let r2 := @sendSentence Sample.sentences Q_LITTLE_ENDIAN
              (Sample.mkSentence (QS "/ip/address/print") [] [] [] []) true (final r1) in
  let r3 := @sendSentence Sample.sentences Q_LITTLE_ENDIAN
              (Sample.mkSentence (QS "/ping") [] [] [] (QS "abc")) true c in
  returned r1 = Some (QS "1") /\ returned r2 = Some (QS "2")
  /\ returned r3 = Some (QS "abc")
  /\ tx (m_sock (final r3))
     = x05 :: list_byte_of_string "/ping"
       ++ x08 :: list_byte_of_string ".tag=abc" ++ [x00].
Proof. repeat split; reflexivity. Qed.

(** C10, witness: a sentence tagged "abc", on a connection whose counter
    is 0. *)
Lemma explicit_tag_keeps_counter_witness :
  let c := Sample.connected LogedIn [] in
  let sent : @QSentence Sample.sentences := Sample.mkSentence (QS "/ping") [] [] [] (QS "abc") in
  let r := sendSentence Q_LITTLE_ENDIAN sent true c in
  ID (final r) = ID c
  /\ (forall (later : @QSentence Sample.sentences) (addTag : bool),
        returned (sendSentence Q_LITTLE_ENDIAN later addTag (final r))
        = returned (sendSentence Q_LITTLE_ENDIAN later addTag c))
  /\ (forall (other : @QSentence Sample.sentences) (addTag : bool),
        ID (final (sendSentence Q_LITTLE_ENDIAN other addTag c)) <> ID c ->
        addTag = true /\ tag other = []).
Proof.
  apply (@explicit_tag_keeps_counter Sample.sentences Q_LITTLE_ENDIAN
           (Sample.connected LogedIn [])
           (Sample.mkSentence (QS "/ping") [] [] [] (QS "abc"))).
  vm_compute. discriminate.
Defined.

(** Running the statements that only update the object and emit. *)
Ltac run :=
  cbv beta iota zeta delta
    [bind ret get modify emit throw setLoginState clear_incomingSentence
     m_sock_close m_sock_disconnectFromHost m_sock_enter m_sock_abort
     m_sock_bytesWritten
     onSocketStateChanges final returned isConnected isLoged
     SocketState_eqb LoginState_eqb negb andb
     set_m_sock set_credentials set_incomingWord set_incomingSentence
     set_sentenceCompleted set_m_loginState set_incomingWordSize set_ID
     set_emitted socket_set_state wrote with_rx socket_write
     m_sock m_Username m_Password incomingWord incomingSentence
     sentenceCompleted m_loginState incomingWordSize ID emitted
     state rx tx bytesToWrite].

(** ** Hex helpers and C strings *)

Lemma length_QMD5_ToBinary (n : nat) :
  forall s : QString, length s = (2 * n)%nat -> length (QMD5_ToBinary s) = n.
Proof.
  induction n as [|n IH]; intros s H.
  - destruct s; [reflexivity | discriminate].
  - destruct s as [|hi [|lo rest]]; cbn [length] in H; try lia.
    cbn [QMD5_ToBinary length]. f_equal. apply IH. lia.
Qed.

Lemma length_QMD5_DigestToHexString (digest : list byte) :
  length (QMD5_DigestToHexString digest) = (2 * length digest)%nat.
Proof.
  unfold QMD5_DigestToHexString.
  induction digest as [|b rest IH]; [reflexivity|].
  cbn [flat_map length app]. rewrite IH. lia.
Qed.

(** Decoding the hex spelling of bytes gives the bytes back. *)
Lemma QMD5_ToBinary_DigestToHexString (bytes : list byte) :
  toLatin1 (QMD5_ToBinary (QMD5_DigestToHexString bytes)) = bytes.
Proof.
  induction bytes as [|b rest IH]; [reflexivity|].
  unfold QMD5_DigestToHexString in *. cbn [flat_map app QMD5_ToBinary toLatin1 map].
  fold (toLatin1 (QMD5_ToBinary (flat_map
    (fun b => [hex_digit (Byte.to_N b / 16); hex_digit (Byte.to_N b mod 16)]) rest))).
  rewrite IH. f_equal. destruct b; reflexivity.
Qed.

Lemma firstn_strlen (ba : QByteArray) : firstn (strlen ba) ba = c_str ba.
Proof.
  unfold strlen. induction ba as [|b rest IH]; [reflexivity|].
  cbn [c_str]. destruct (Byte.eqb b x00); [reflexivity|].
  cbn [length firstn]. now rewrite IH.
Qed.

Lemma toLatin1_char_NUL (ch : QChar) : toLatin1_char ch = x00 -> ch = 0%N.
Proof.
  unfold toLatin1_char. destruct (Byte.of_N ch) as [b|] eqn:E; [|discriminate].
  intros ->. now apply Byte.to_of_N in E.
Qed.

(** A string without a NUL character is all of its C string. *)
Lemma c_str_toLatin1 (s : QString) :
  forallb (fun ch => negb (ch =? 0)%N) s = true -> c_str (toLatin1 s) = toLatin1 s.
Proof.
  induction s as [|ch rest IH]; [reflexivity|].
  cbn [forallb toLatin1 map c_str]. intros H.
  apply andb_true_iff in H. destruct H as [Hc Hr].
  destruct (Byte.eqb (toLatin1_char ch) x00) eqn:E.
  - apply Byte.byte_dec_bl in E. apply toLatin1_char_NUL in E. subst ch. discriminate.
  - f_equal. now apply IH.
Qed.

(** ** What a method leaves unchanged *)

Section Frames.

Context {sentenceAPI : SentenceAPI}.
Variable R : Comm -> Comm -> Prop.
Hypothesis R_refl : forall c, R c c.
Hypothesis R_trans : forall a b c, R a b -> R b c -> R a c.

Lemma keeps_ret {A} (a : A) : keeps R (ret a).
Proof. intros c. apply R_refl. Qed.

Lemma keeps_throw {A} (what : string) : keeps R (@throw _ A what).
Proof. intros c. apply R_refl. Qed.

Lemma keeps_get : keeps R get.
Proof. intros c. apply R_refl. Qed.

Lemma keeps_modify (f : Comm -> Comm) : (forall c, R c (f c)) -> keeps R (modify f).
Proof. intros H c. apply H. Qed.

Lemma keeps_bind {A B} (m : M A) (k : A -> M B) :
  keeps R m -> (forall a, keeps R (k a)) -> keeps R (bind m k).
Proof.
  intros Hm Hk c. unfold bind. specialize (Hm c).
  destruct (m c) as [a c'|what c'|c']; cbn [final] in *.
  - eapply R_trans; [exact Hm | apply Hk].
  - exact Hm.
  - exact Hm.
Qed.

Lemma keeps_foreach {A} (words : list A) (body : A -> M unit) :
  (forall w, keeps R (body w)) -> keeps R (foreach words body).
Proof.
  intros H. induction words as [|w rest IH]; cbn [foreach].
  - apply keeps_ret.
  - apply keeps_bind; [apply H | intros _; exact IH].
Qed.

End Frames.

Section Delivery.

Context {sentenceAPI : SentenceAPI}.
Variable Q_BYTE_ORDER : ByteOrder.
Variable MD5 : list byte -> list byte.
Variable loginRequest_slot : QString * QString -> QString * QString.

Lemma quiet_refl (c : Comm) : quiet c c.
Proof. exists []. split; [now rewrite app_nil_r | constructor]. Qed.

Lemma quiet_trans (a b c : Comm) : quiet a b -> quiet b c -> quiet a c.
Proof.
  intros [n1 [E1 F1]] [n2 [E2 F2]]. exists (n1 ++ n2). split.
  - now rewrite E2, E1, app_assoc.
  - apply Forall_app. now split.
Qed.

Lemma quiet_same (c c' : Comm) : emitted c' = emitted c -> quiet c c'.
Proof. intros E. exists []. split; [now rewrite app_nil_r | constructor]. Qed.

Lemma quiet_emit (s : Signal) :
  (forall x, s <> comReceive x) -> keeps quiet (emit s).
Proof.
  intros H c. exists [s]. split; [reflexivity | now constructor].
Qed.

Lemma quiet_modify (f : Comm -> Comm) :
  (forall c, emitted (f c) = emitted c) -> keeps quiet (modify f).
Proof. intros H. apply keeps_modify. intros c. now apply quiet_same. Qed.

Lemma quiet_ret {A} (a : A) : keeps quiet (ret a).
Proof. apply keeps_ret, quiet_refl. Qed.

Lemma quiet_throw {A} (what : string) : keeps quiet (@throw _ A what).
Proof. apply keeps_throw, quiet_refl. Qed.

Lemma quiet_get : keeps quiet get.
Proof. apply keeps_get, quiet_refl. Qed.

Create HintDb quiet.

#[local] Hint Resolve quiet_refl quiet_ret quiet_throw quiet_get : quiet.

Lemma quiet_bind {A B} (m : M A) (k : A -> M B) :
  keeps quiet m -> (forall a, keeps quiet (k a)) -> keeps quiet (bind m k).
Proof. apply keeps_bind, quiet_trans. Qed.

Lemma quiet_setLoginState (l : LoginState) : keeps quiet (setLoginState l).
Proof.
  unfold setLoginState. apply quiet_bind; [auto with quiet|]. intros c.
  destruct (negb _).
  - apply quiet_bind; [now apply quiet_modify|].
    intros _. apply quiet_emit. discriminate.
  - now apply quiet_modify.
Qed.

Lemma quiet_sendWord (word : QString) : keeps quiet (sendWord Q_BYTE_ORDER word).
Proof.
  intros c. rewrite sendWord_frame.
  destruct (sendable word); cbn [final]; now apply quiet_same.
Qed.

Lemma quiet_m_sock_enter_Closing :
  keeps quiet (m_sock_enter Q_BYTE_ORDER loginRequest_slot ClosingState).
Proof.
  unfold m_sock_enter. apply quiet_bind; [now apply quiet_modify|].
  intros _. apply quiet_emit. discriminate.
Qed.

Lemma quiet_m_sock_enter_Unconnected :
  keeps quiet (m_sock_enter Q_BYTE_ORDER loginRequest_slot UnconnectedState).
Proof.
  unfold m_sock_enter. apply quiet_bind; [now apply quiet_modify|].
  intros _. apply quiet_emit. discriminate.
Qed.

Lemma quiet_m_sock_disconnectFromHost :
  keeps quiet (m_sock_disconnectFromHost Q_BYTE_ORDER loginRequest_slot).
Proof.
  unfold m_sock_disconnectFromHost.
  apply quiet_bind; [auto with quiet|]. intros c.
  destruct (state (m_sock c)); auto with quiet;
    (apply quiet_bind;
     [ cbn [SocketState_eqb]; auto using quiet_m_sock_enter_Closing with quiet
     | intros _; apply quiet_bind; [auto with quiet|]; intros c';
       destruct (_ =? 0); auto using quiet_m_sock_enter_Unconnected with quiet ]).
Qed.

Lemma quiet_m_sock_close :
  keeps quiet (m_sock_close Q_BYTE_ORDER loginRequest_slot).
Proof.
  unfold m_sock_close.
  apply quiet_bind; [now apply quiet_modify|]. intros _.
  apply quiet_m_sock_disconnectFromHost.
Qed.

Lemma quiet_clear_incomingSentence : keeps quiet clear_incomingSentence.
Proof. now apply quiet_modify. Qed.

#[local] Hint Resolve quiet_setLoginState quiet_sendWord quiet_m_sock_close
  quiet_clear_incomingSentence : quiet.

(** [doLogin] emits no [comReceive]. *)
Lemma quiet_doLogin :
  keeps quiet (doLogin Q_BYTE_ORDER MD5 loginRequest_slot).
Proof.
  unfold doLogin. apply quiet_bind; [auto with quiet|]. intros c.
  destruct (m_loginState c); auto with quiet.
  - repeat match goal with
           | |- keeps quiet (if ?b then _ else _) => destruct b
           | |- keeps quiet (bind _ _) => apply quiet_bind; [|intros ?]
           | |- keeps quiet (emit (comError _)) => apply quiet_emit; discriminate
           | |- keeps quiet (modify _) => now apply quiet_modify
           | |- _ => solve [auto with quiet]
           end.
  - repeat match goal with
           | |- keeps quiet (if ?b then _ else _) => destruct b
           | |- keeps quiet (bind _ _) => apply quiet_bind; [|intros ?]
           | |- keeps quiet (emit (comError _)) => apply quiet_emit; discriminate
           | |- keeps quiet (modify _) => now apply quiet_modify
           | |- _ => solve [auto with quiet]
           end.
Qed.

(** [readWord] by the cases of its [switch]. *)
Lemma readWord_cases (c : Comm) :
  readWord Q_BYTE_ORDER c
  = if incomingWordSize c <=? 0 then
      if long_prefix (rx (m_sock c)) then
        Aborted (with_rx (snd (read_prefix (rx (m_sock c)))) c)
      else
        let n := fst (read_prefix (rx (m_sock c))) in
        let c1 := set_incomingWordSize n
                    (with_rx (snd (read_prefix (rx (m_sock c)))) c) in
        if n =? -1 then Ret (-1) c1
        else if n <? 0 then Throw "Incomplete word length arrived." c1
        else if n =? 0 then Ret 0 (set_incomingWord [] c1)
        else read_body c1
    else read_body c.
Proof.
  unfold readWord, bind, get.
  destruct (incomingWordSize c <=? 0).
  - rewrite readLength_read_prefix.
    destruct (long_prefix (rx (m_sock c))); [reflexivity|].
    pose proof (read_prefix_range (rx (m_sock c))) as [[Hlo _] _].
    cbv zeta. cbn [modify].
    set (n := fst (read_prefix (rx (m_sock c)))) in *.
    set (c1 := set_incomingWordSize n _).
    assert (Hn : n = -4 \/ n = -3 \/ n = -2 \/ n = -1 \/ n = 0 \/ 0 < n) by lia.
    destruct Hn as [Hn | [Hn | [Hn | [Hn | [Hn | Hn]]]]];
      try (rewrite Hn; reflexivity).
    destruct n as [|q|q]; try lia. cbn [Z.eqb Z.ltb Z.compare].
    unfold read_body, ret, m_sock_read, socket_read, modify, with_rx.
    destruct (count _ =? 0) eqn:E; cbn [negb]; reflexivity.
  - unfold read_body, ret, m_sock_read, socket_read, modify, with_rx.
    destruct (count _ =? 0) eqn:E; cbn [negb]; reflexivity.
Qed.

Lemma silent_read_body (c : Comm) : silent c (final (read_body c)).
Proof. unfold read_body. cbv zeta. destruct (count _ =? 0); split; reflexivity. Qed.

(** [readWord] changes neither the login state nor the signals. *)
Lemma silent_readWord (c : Comm) : silent c (final (readWord Q_BYTE_ORDER c)).
Proof.
  rewrite readWord_cases.
  destruct (incomingWordSize c <=? 0); [|apply silent_read_body].
  destruct (long_prefix _); [split; reflexivity|].
  cbv zeta.
  destruct (_ =? -1); [split; reflexivity|].
  destruct (_ <? 0); [split; reflexivity|].
  destruct (_ =? 0); [split; reflexivity|].
  apply (silent_read_body (set_incomingWordSize _ (with_rx _ c))).
Qed.

Lemma read_body_consumes (c c' : Comm) (r : Z) :
  read_body c = Ret r c' ->
  0 <= r ->
  0 < incomingWordSize c ->
  (length (rx (m_sock c')) < length (rx (m_sock c)))%nat.
Proof.
  unfold read_body. cbv zeta. intros E Hr Hs.
  destruct (count _ =? 0) eqn:En.
  - injection E as <- <-. cbn [with_rx set_m_sock incomingWordSize] in Hr.
    destruct (incomingWordSize c =? 0) eqn:E0; lia.
  - injection E as <- <-.
    cbn [with_rx set_m_sock set_incomingWord set_incomingWordSize m_sock rx].
    apply Z.eqb_neq in En. unfold count in En.
    rewrite length_firstn in En. rewrite length_skipn. lia.
Qed.

Lemma read_prefix_consumes (bytes : list byte) :
  bytes <> [] -> (length (snd (read_prefix bytes)) < length bytes)%nat.
Proof.
  destruct bytes as [|b rest]; [congruence|]. intros _. unfold read_prefix.
  destruct (0xE0 <=? octet b); [destruct rest as [|? [|? [|? ?]]]; cbn; lia|].
  destruct (0xC0 <=? octet b); [destruct rest as [|? [|? ?]]; cbn; lia|].
  destruct (0x80 <=? octet b); [destruct rest as [|? ?]; cbn; lia|].
  cbn; lia.
Qed.

(** A [readWord] that returns 0 or 1 has taken at least one byte. *)
Lemma readWord_consumes (c c' : Comm) (r : Z) :
  readWord Q_BYTE_ORDER c = Ret r c' ->
  0 <= r ->
  (length (rx (m_sock c')) < length (rx (m_sock c)))%nat.
Proof.
  rewrite readWord_cases.
  destruct (incomingWordSize c <=? 0) eqn:Es.
  - cbv zeta.
    destruct (rx (m_sock c)) as [|b0 bytes] eqn:Erx.
    { cbn. intros [= <- _]. lia. }
    pose proof (read_prefix_consumes (b0 :: bytes) ltac:(discriminate)) as Hp.
    destruct (long_prefix (b0 :: bytes)); [discriminate|].
    destruct (read_prefix (b0 :: bytes)) as [n rest]. cbn [fst snd] in *.
    destruct (n =? -1) eqn:E1; [intros [= <- _]; lia|].
    destruct (n <? 0) eqn:E2; [discriminate|].
    destruct (n =? 0) eqn:E3.
    + intros [= <- <-] _. cbn [set_incomingWord set_incomingWordSize with_rx
                                 set_m_sock m_sock rx]. exact Hp.
    + intros E Hr. apply read_body_consumes in E; [|exact Hr|cbn; lia].
      cbn [set_incomingWordSize with_rx set_m_sock m_sock rx] in E. lia.
  - intros E Hr. apply read_body_consumes in E; [exact E | exact Hr | lia].
Qed.

(** The loop of [readSentence] ends within its fuel. *)
Lemma readSentence_loop_total (fuel : nat) :
  forall c : Comm,
    (length (rx (m_sock c)) < fuel)%nat ->
    exists r, readSentence_loop Q_BYTE_ORDER fuel c = Some r.
Proof.
  induction fuel as [|fuel IH]; intros c Hf; [lia|].
  cbn [readSentence_loop].
  destruct (readWord Q_BYTE_ORDER c) as [r c'|what c'|c'] eqn:E; [|eauto ..].
  destruct (r >=? 0) eqn:Er; [|eauto].
  destruct (isEmpty (incomingWord c')); [eauto|].
  apply IH. cbn [set_incomingWordSize set_incomingWord set_incomingSentence m_sock].
  pose proof (readWord_consumes c c' r E ltac:(lia)). lia.
Qed.

(** [readSentence] never runs out of fuel: it is the loop of the source. *)
Lemma readSentence_total (c : Comm) :
  exists r,
    readSentence_loop Q_BYTE_ORDER (S (length (rx (m_sock c)))) c = Some r
    /\ readSentence Q_BYTE_ORDER c = r.
Proof.
  destruct (readSentence_loop_total (S (length (rx (m_sock c)))) c) as [r Hr]; [lia|].
  exists r. split; [exact Hr|]. unfold readSentence. now rewrite Hr.
Qed.

Lemma silent_readSentence_loop (fuel : nat) :
  forall (c : Comm) r,
    readSentence_loop Q_BYTE_ORDER fuel c = Some r -> silent c (final r).
Proof.
  induction fuel as [|fuel IH]; intros c r; [discriminate|].
  cbn [readSentence_loop].
  pose proof (silent_readWord c) as [Hl He].
  destruct (readWord Q_BYTE_ORDER c) as [x c'|what c'|c']; cbn [final] in *.
  - destruct (x >=? 0).
    + destruct (isEmpty (incomingWord c')).
      * intros [= <-]. now split.
      * intros H. apply IH in H. destruct H as [Hl' He'].
        cbn [set_incomingWordSize set_incomingWord set_incomingSentence
             m_loginState emitted] in *.
        split; congruence.
    + intros [= <-]. now split.
  - intros [= <-]. now split.
  - intros [= <-]. now split.
Qed.

(** [readSentence] changes neither the login state nor the signals. *)
Lemma silent_readSentence (c : Comm) :
  silent c (final (readSentence Q_BYTE_ORDER c)).
Proof.
  destruct (readSentence_total c) as [r [Hr E]]. rewrite E.
  exact (silent_readSentence_loop _ c r Hr).
Qed.

(** [onReadyRead] emits [comReceive] only for a sentence that
    [readSentence] completed while the login state is [LogedIn]; while it
    is not, a completed sentence is handed to [doLogin]. *)
Lemma onReadyRead_delivery (c : Comm) :
  let r := onReadyRead Q_BYTE_ORDER MD5 loginRequest_slot c in
  exists news,
    emitted (final r) = emitted c ++ news
    /\ (forall s, In (comReceive s) news ->
          m_loginState c = LogedIn
          /\ m_loginState (final r) = LogedIn
          /\ news = [comReceive s]
          /\ exists c1, readSentence Q_BYTE_ORDER c = Ret tt c1
                        /\ sentenceCompleted c1 = true
                        /\ m_loginState c1 = LogedIn
                        /\ s = incomingSentence c1)
    /\ (m_loginState c <> LogedIn ->
        (forall s, ~ In (comReceive s) news)
        /\ forall c1, readSentence Q_BYTE_ORDER c = Ret tt c1 ->
                      sentenceCompleted c1 = true ->
                      m_loginState c1 = m_loginState c
                      /\ r = (doLogin Q_BYTE_ORDER MD5 loginRequest_slot ;;
                              modify (set_sentenceCompleted false)) c1).
Proof.
  intros r. unfold r, onReadyRead, bind, get.
  pose proof (silent_readSentence c) as [Hl He].
  destruct (readSentence Q_BYTE_ORDER c) as [[] c1|what c1|c1]; cbn [final] in Hl, He.
  - destruct (sentenceCompleted c1) eqn:Ec.
    + destruct (m_loginState c1) eqn:El1; cbn [LoginState_eqb negb].
      1-3: pose proof (quiet_doLogin c1) as [news [En Fn]];
        destruct (doLogin Q_BYTE_ORDER MD5 loginRequest_slot c1) as [[] c2|what c2|c2] eqn:Ed;
        cbn [final modify set_sentenceCompleted emitted] in *;
        exists news; rewrite <- He;
        (split; [exact En|]);
        (split; [intros s Hs; rewrite Forall_forall in Fn;
                 exfalso; exact (Fn _ Hs s eq_refl)|]);
        intros _; (split; [intros s Hs; rewrite Forall_forall in Fn;
                           exact (Fn _ Hs s eq_refl)|]);
        intros c1' [= <-] _; (split; [congruence | now rewrite Ed]).
      exists [comReceive (incomingSentence c1)].
      cbn [emit modify clear_incomingSentence final set_sentenceCompleted
           set_incomingSentence set_emitted emitted m_loginState].
      rewrite <- He. split; [reflexivity|]. split.
      * intros s [Hs|[]]. injection Hs as <-.
        repeat split; try congruence. exists c1. repeat split; congruence.
      * intros Hn. congruence.
    + exists []. cbn [ret final]. rewrite app_nil_r. split; [congruence|].
      split; [intros s []|]. intros _. split; [intros s []|].
      intros c1' [= <-]. congruence.
  - exists []. cbn [final]. rewrite app_nil_r. split; [congruence|].
    split; [intros s []|]. intros _. split; [intros s []|]. discriminate.
  - exists []. cbn [final]. rewrite app_nil_r. split; [congruence|].
    split; [intros s []|]. intros _. split; [intros s []|]. discriminate.
Qed.

Lemma quiet_sendSentence (sent : QSentence) (addTag : bool) :
  keeps quiet (sendSentence Q_BYTE_ORDER sent addTag).
Proof.
  unfold sendSentence.
  repeat match goal with
         | |- keeps quiet (if ?b then _ else _) => destruct b
         | |- keeps quiet (bind _ _) => apply quiet_bind; [|intros ?]
         | |- keeps quiet (foreach _ _) => apply keeps_foreach; [apply quiet_refl|apply quiet_trans|intros ?]
         | |- keeps quiet (modify _) => now apply quiet_modify
         | |- _ => solve [auto with quiet]
         end.
Qed.

Lemma quiet_m_sock_enter (st : SocketState) :
  keeps quiet (m_sock_enter Q_BYTE_ORDER loginRequest_slot st).
Proof.
  unfold m_sock_enter. apply quiet_bind; [now apply quiet_modify|]. intros _.
  destruct st; cbn [onSocketStateChanges]; auto with quiet;
    try (apply quiet_emit; discriminate).
  repeat match goal with
         | |- keeps quiet (bind _ _) => apply quiet_bind; [|intros ?]
         | |- keeps quiet (emit _) => apply quiet_emit; discriminate
         | |- keeps quiet (modify _) => now apply quiet_modify
         | |- keeps quiet (sendSentence _ _ _) => apply quiet_sendSentence
         | |- _ => solve [auto with quiet]
         end.
Qed.

Lemma quiet_closeCom (force : bool) :
  keeps quiet (closeCom Q_BYTE_ORDER loginRequest_slot force).
Proof.
  unfold closeCom, m_sock_abort. apply quiet_bind; [auto with quiet|]. intros c.
  destruct (isConnected c); [|auto with quiet].
  destruct force.
  - apply quiet_bind.
    + apply quiet_bind; [auto with quiet|]. intros c'.
      destruct (state (m_sock c')); auto with quiet;
        (apply quiet_bind; [now apply quiet_modify | intros _; apply quiet_m_sock_enter]).
    + intros _. apply quiet_bind; [auto with quiet|]. intros _.
      apply quiet_bind; [apply quiet_emit; discriminate|]. intros _.
      apply quiet_emit; discriminate.
  - apply quiet_m_sock_disconnectFromHost.
Qed.

Lemma quiet_m_sock_bytesWritten :
  keeps quiet (m_sock_bytesWritten Q_BYTE_ORDER loginRequest_slot).
Proof.
  unfold m_sock_bytesWritten.
  apply quiet_bind; [now apply quiet_modify|]. intros _.
  apply quiet_bind; [auto with quiet|]. intros c.
  destruct (SocketState_eqb _ _); [apply quiet_m_sock_enter | auto with quiet].
Qed.

(** C6: Whatever runs a method of the object (a call of [sendSentence]
    or [closeCom], a change of state of the socket, the end of a write,
    the arrival of bytes), [comReceive] is emitted only on the arrival of
    bytes, for a
    sentence that [readSentence] completed while the login state is
    [LogedIn], which it still is afterwards; it is then the only signal
    emitted. While the login state is not [LogedIn], a sentence that the
    arrival of bytes completes is handed to [doLogin] instead, and
    nothing is delivered. *)
Theorem comReceive_only_when_LogedIn (e : Entry) (c : Comm) :
  let r := enter Q_BYTE_ORDER MD5 loginRequest_slot e c in
  exists news,
    emitted (final r) = emitted c ++ news
    /\ (forall s, In (comReceive s) news ->
          m_loginState c = LogedIn
          /\ m_loginState (final r) = LogedIn
          /\ news = [comReceive s]
          /\ exists data c1,
               e = socket_readyRead data
               /\ readSentence Q_BYTE_ORDER (arrive data c) = Ret tt c1
               /\ sentenceCompleted c1 = true
               /\ m_loginState c1 = LogedIn
               /\ s = incomingSentence c1)
    /\ (m_loginState c <> LogedIn ->
        (forall s, ~ In (comReceive s) news)
        /\ forall data c1,
             e = socket_readyRead data ->
             readSentence Q_BYTE_ORDER (arrive data c) = Ret tt c1 ->
             sentenceCompleted c1 = true ->
             m_loginState c1 = m_loginState c
             /\ r = (doLogin Q_BYTE_ORDER MD5 loginRequest_slot ;;
                     modify (set_sentenceCompleted false)) c1).
Proof.
  intros r.
  assert (Q : forall (m : M unit), r = m c -> keeps quiet m ->
              (forall data, e <> socket_readyRead data) ->
              exists news,
                emitted (final r) = emitted c ++ news
                /\ (forall s, In (comReceive s) news ->
                      m_loginState c = LogedIn
                      /\ m_loginState (final r) = LogedIn
                      /\ news = [comReceive s]
                      /\ exists data c1,
                           e = socket_readyRead data
                           /\ readSentence Q_BYTE_ORDER (arrive data c) = Ret tt c1
                           /\ sentenceCompleted c1 = true
                           /\ m_loginState c1 = LogedIn
                           /\ s = incomingSentence c1)
                /\ (m_loginState c <> LogedIn ->
                    (forall s, ~ In (comReceive s) news)
                    /\ forall data c1,
                         e = socket_readyRead data ->
                         readSentence Q_BYTE_ORDER (arrive data c) = Ret tt c1 ->
                         sentenceCompleted c1 = true ->
                         m_loginState c1 = m_loginState c
                         /\ r = (doLogin Q_BYTE_ORDER MD5 loginRequest_slot ;;
                                 modify (set_sentenceCompleted false)) c1)).
  { intros m Hr Hm Hne. destruct (Hm c) as [news [En Fn]]. rewrite <- Hr in En.
    exists news. rewrite Forall_forall in Fn. split; [exact En|]. split.
    - intros s Hs. exfalso. exact (Fn _ Hs s eq_refl).
    - intros _. split.
      + intros s Hs. exact (Fn _ Hs s eq_refl).
      + intros data c1 He. exfalso. exact (Hne data He). }
  destruct e as [sent addTag | force | st | | data].
  - apply (Q (sendSentence Q_BYTE_ORDER sent addTag ;; ret tt)); [reflexivity | | discriminate].
    apply quiet_bind; [apply quiet_sendSentence | auto with quiet].
  - apply (Q (closeCom Q_BYTE_ORDER loginRequest_slot force));
      [reflexivity | apply quiet_closeCom | discriminate].
  - apply (Q (m_sock_enter Q_BYTE_ORDER loginRequest_slot st));
      [reflexivity | apply quiet_m_sock_enter | discriminate].
  - apply (Q (m_sock_bytesWritten Q_BYTE_ORDER loginRequest_slot));
      [reflexivity | apply quiet_m_sock_bytesWritten | discriminate].
  - clear Q. unfold r. cbn [enter]. unfold deliver, bind, modify.
    fold (arrive data c).
    destruct (onReadyRead_delivery (arrive data c)) as [news [En [Hin Hout]]].
    exists news. split; [exact En|]. split.
    + intros s Hs. destruct (Hin s Hs) as [H1 [H2 [H3 [c1 H4]]]].
      repeat split; try assumption. exists data, c1. split; [reflexivity | exact H4].
    + intros Hn. destruct (Hout Hn) as [H1 H2]. split; [exact H1|].
      intros data' c1 [= <-]. apply H2.
Qed.

End Delivery.

(** ** The login machine *)

Section Login.

Context {sentenceAPI : SentenceAPI}.
Variable Q_BYTE_ORDER : ByteOrder.
Variable MD5 : list byte -> list byte.
Variable loginRequest_slot : QString * QString -> QString * QString.

(** C7: In [LoginRequested], a sentence whose [ret] attribute does not
    have 32 characters makes [doLogin] return after emitting one
    [comError], setting the login state to [NoLoged] (with
    [loginStateChanged(NoLoged)]) and closing the socket, which is then not
    connected and notifies only its changes of state; nothing is written
    to the peer. When the sentence is a successful result with exactly
    one attribute, the message is the one for a [ret] of the wrong
    length, different from the three other login errors, if [ret] is not
    empty (31 or 33 characters, for example), and the one for a missing
    [ret] if it is empty. *)
Theorem doLogin_rejects_wrong_length (c : Comm) :
  m_loginState c = LoginRequested ->
  count (attribute (incomingSentence c) (QS "ret")) <> 32 ->
  let r := doLogin Q_BYTE_ORDER MD5 loginRequest_slot c in
  let wrong_length :=
    QS "Unknown remote login sentence format: 'ret' field doesn't contains 32 characters" in
  let missing :=
    QS "Unknown remote login sentence format: Doesn't receive 'ret' namefield" in
  exists msg notes,
    r = Ret tt (final r)
    /\ emitted (final r)
       = emitted c ++ comError msg :: loginStateChanged NoLoged :: notes
    /\ Forall (fun s => exists st, s = comStateChanged st) notes
    /\ m_loginState (final r) = NoLoged
    /\ isConnected (final r) = false
    /\ tx (m_sock (final r)) = tx (m_sock c)
    /\ (resultType_is_Done (incomingSentence c) = true ->
        attributes_count (incomingSentence c) = 1 ->
        msg = (if count (attribute (incomingSentence c) (QS "ret")) =? 0
               then missing else wrong_length))
    /\ wrong_length <> missing
    /\ wrong_length <> QS "Cannot login"
    /\ wrong_length
       <> QS "Unknown remote login sentence format: didn't receive anything".
Proof.
  intros Hl Hret r wrong_length missing. unfold r, doLogin, bind, get.
  rewrite Hl.
  assert (H32 : (count (attribute (incomingSentence c) (QS "ret")) =? 32) = false)
    by (apply Z.eqb_neq; exact Hret).
  rewrite H32. clear H32 Hret.
  destruct c as [[st bytes tx_ btw] u pw w s sc l ws id em].
  cbn [incomingSentence m_loginState] in *. subst l.
  destruct (resultType_is_Done s), (Z.eqb_spec (attributes_count s) 1) as [E1|E1],
    (count (attribute s (QS "ret")) =? 0) eqn:E0;
    destruct st; run; destruct (btw =? 0); run;
    eexists _, _; rewrite <- ?app_assoc; cbn [app];
    (repeat split; try reflexivity; try discriminate; intros;
     try congruence; repeat constructor; eauto).
Qed.

Lemma arg_name (user : QString) : arg (QS "=name=%1") user = QS "=name=" ++ user.
Proof. cbn. now rewrite app_nil_r. Qed.

Lemma arg_response (hex : QString) :
  arg (QS "=response=00%1") hex = QS "=response=" ++ QS "00" ++ hex.
Proof. cbn. now rewrite app_nil_r. Qed.

(** The bytes hashed, for a challenge of 32 characters: the password
    enters as a C string, up to its first NUL character if it has one. *)
Lemma login_digest_spec (password ret_ : QString) :
  count ret_ = 32 ->
  login_digest MD5 password ret_
  = MD5 (x00 :: c_str (toLatin1 password) ++ toLatin1 (QMD5_ToBinary ret_)).
Proof.
  intros Hr. unfold login_digest, QMD5_finish, QMD5_append, QMD5_init.
  rewrite firstn_strlen.
  change (firstn 1 [x00]) with [x00].
  rewrite (@firstn_all2 _ 16 (toLatin1 (QMD5_ToBinary ret_))).
  - cbn [app]. reflexivity.
  - unfold toLatin1, count in *. rewrite length_map.
    rewrite (length_QMD5_ToBinary 16); lia.
Qed.

(** C4: In [LoginRequested], on a successful result whose only attribute
    [ret] has 32 hex characters, [doLogin] writes the four words [/login],
    [=name=<username>], [=response=00<hex>] and the empty word, where
    [<hex>] is the 32-character spelling of the MD5 digest of one 00 byte,
    the bytes of the stored password and the 16 bytes that [ret] spells,
    and then is in [UserPassSended], having emitted
    [loginStateChanged(UserPassSended)]. The bytes of the password are
    those of its Latin-1 form read as a C string: all of them when the
    password has no NUL character. The user name is short enough for its
    word to be sent. *)
Theorem doLogin_sends_response (c : Comm) (ret_ : QString) :
  m_loginState c = LoginRequested ->
  resultType_is_Done (incomingSentence c) = true ->
  attributes_count (incomingSentence c) = 1 ->
  attribute (incomingSentence c) (QS "ret") = ret_ ->
  count ret_ = 32 ->
  forallb is_hex ret_ = true ->
  sendable (QS "=name=" ++ m_Username c) = true ->
  (forall message, length (MD5 message) = 16%nat) ->
  let challenge := toLatin1 (QMD5_ToBinary ret_) in
  let password := c_str (toLatin1 (m_Password c)) in
  let response :=
    QS "00" ++ QMD5_DigestToHexString (MD5 (x00 :: password ++ challenge)) in
  let words :=
    [QS "/login"; QS "=name=" ++ m_Username c; QS "=response=" ++ response; []] in
  let r := doLogin Q_BYTE_ORDER MD5 loginRequest_slot c in
  length challenge = 16%nat
  /\ (forallb (fun ch => negb (ch =? 0)%N) (m_Password c) = true ->
      password = toLatin1 (m_Password c))
  /\ count response = 34
  /\ forallb sendable words = true
  /\ r = Ret tt (final r)
  /\ tx (m_sock (final r)) = tx (m_sock c) ++ frames Q_BYTE_ORDER words
  /\ m_loginState (final r) = UserPassSended
  /\ emitted (final r) = emitted c ++ [loginStateChanged UserPassSended]
  /\ incomingWordSize (final r) = -1
  /\ incomingSentence (final r) = clear (incomingSentence c).
Proof.
  intros Hl Hdone Hcount Hret H32 Hhex Huser Hmd5 challenge password response words r.
  assert (Hch : length challenge = 16%nat).
  { unfold challenge, toLatin1, count in *. rewrite length_map.
    apply length_QMD5_ToBinary. lia. }
  assert (Hresp : count response = 34).
  { unfold response, count. rewrite length_app, length_QMD5_DigestToHexString, Hmd5.
    reflexivity. }
  assert (Hsend_resp : sendable (QS "=response=" ++ response) = true).
  { unfold sendable, count in *. rewrite length_app.
    change (length (QS "=response=")) with 10%nat.
    rewrite Nat2Z.inj_add, Hresp. reflexivity. }
  assert (Hwords : forallb sendable words = true).
  { unfold words. cbn [forallb]. rewrite Huser, Hsend_resp. reflexivity. }
  assert (Hr : r = Ret tt
                 (set_emitted (emitted c ++ [loginStateChanged UserPassSended])
                    (set_m_loginState UserPassSended
                       (set_incomingWordSize (-1)
                          (set_incomingSentence (clear (incomingSentence c))
                             (wrote (frames Q_BYTE_ORDER words) c)))))).
  { unfold r, doLogin, bind, get. rewrite Hl, Hdone, Hcount, Hret, H32.
    cbn [negb Z.eqb Pos.eqb].
    rewrite login_digest_spec by assumption.
    rewrite arg_name, arg_response.
    fold challenge. fold password. fold response.
    rewrite sendWord_frame. change (sendable (QS "/login")) with true. cbv beta iota.
    rewrite sendWord_frame, Huser. cbv beta iota.
    rewrite sendWord_frame, Hsend_resp. cbv beta iota.
    rewrite sendWord_frame, sendable_nil. cbv beta iota.
    rewrite !wrote_wrote.
    unfold words, frames. rewrite Huser, Hsend_resp.
    change (sendable (QS "/login")) with true. rewrite sendable_nil.
    cbv beta iota. rewrite app_nil_r.
    destruct c as [[st bytes tx_ btw] u pw w s sc l ws id em].
    cbn [m_loginState] in Hl. subst l. run. reflexivity. }
  rewrite Hr. cbn [final].
  repeat split; try reflexivity; try assumption.
  apply c_str_toLatin1.
Qed.

End Login.

(** ** The theorems of the login machine at a sample connection *)

Lemma length_digest16 (message : list byte) :
  length (Sample.digest16 message) = 16%nat.
Proof.
  unfold Sample.digest16.
  rewrite length_firstn, length_app, repeat_length. lia.
Qed.

(** C4, witness: the challenge 00112233445566778899aabbccddeeff for the
    user "admin" with the password "secret". *)
Lemma doLogin_sends_response_witness :
  let c := Sample.awaiting_challenge "00112233445566778899aabbccddeeff" in
  let ret_ := QS "00112233445566778899aabbccddeeff" in
  let challenge := toLatin1 (QMD5_ToBinary ret_) in
  let password := c_str (toLatin1 (m_Password c)) in
  let response :=
    QS "00" ++ QMD5_DigestToHexString
                 (Sample.digest16 (x00 :: password ++ challenge)) in
  let words :=
    [QS "/login"; QS "=name=" ++ m_Username c; QS "=response=" ++ response; []] in
  let r := doLogin Q_LITTLE_ENDIAN Sample.digest16 Sample.credentials c in
  length challenge = 16%nat
  /\ (forallb (fun ch => negb (ch =? 0)%N) (m_Password c) = true ->
      password = toLatin1 (m_Password c))
  /\ count response = 34
  /\ forallb sendable words = true
  /\ r = Ret tt (final r)
  /\ tx (m_sock (final r)) = tx (m_sock c) ++ frames Q_LITTLE_ENDIAN words
  /\ m_loginState (final r) = UserPassSended
  /\ emitted (final r) = emitted c ++ [loginStateChanged UserPassSended]
  /\ incomingWordSize (final r) = -1
  /\ incomingSentence (final r) = clear (incomingSentence c).
Proof.
  apply (@doLogin_sends_response Sample.sentences Q_LITTLE_ENDIAN Sample.digest16
           Sample.credentials
           (Sample.awaiting_challenge "00112233445566778899aabbccddeeff")
           (QS "00112233445566778899aabbccddeeff"));
    try reflexivity.
  apply length_digest16.
Defined.

(** The bytes of that run: the 16 bytes of the challenge, and the three
    words and the empty word written behind their length bytes. *)
Example doLogin_sends_response_run :
  let c := Sample.awaiting_challenge "00112233445566778899aabbccddeeff" in
  let r := doLogin Q_LITTLE_ENDIAN Sample.digest16 Sample.credentials c in
  toLatin1 (QMD5_ToBinary (QS "00112233445566778899aabbccddeeff"))
  = [x00; x11; x22; x33; x44; x55; x66; x77; x88; x99; xaa; xbb; xcc; xdd; xee; xff]
  /\ Sample.digest16 (x00 :: list_byte_of_string "secret"
                      ++ [x00; x11; x22; x33; x44; x55; x66; x77; x88])
     = x00 :: list_byte_of_string "secret"
       ++ [x00; x11; x22; x33; x44; x55; x66; x77; x88]
  /\ tx (m_sock (final r))
     = x06 :: list_byte_of_string "/login"
       ++ x0b :: list_byte_of_string "=name=admin"
       ++ x2c :: list_byte_of_string
                   "=response=0000736563726574001122334455667788"
       ++ [x00].
Proof. repeat split; reflexivity. Qed.

(** C7, witness: a [ret] of 31 characters. *)
Lemma doLogin_rejects_wrong_length_witness :
  let c := Sample.awaiting_challenge "00112233445566778899aabbccddeef" in
  let r := doLogin Q_LITTLE_ENDIAN Sample.digest16 Sample.credentials c in
  let wrong_length :=
    QS "Unknown remote login sentence format: 'ret' field doesn't contains 32 characters" in
  let missing :=
    QS "Unknown remote login sentence format: Doesn't receive 'ret' namefield" in
  exists msg notes,
    r = Ret tt (final r)
    /\ emitted (final r)
       = emitted c ++ comError msg :: loginStateChanged NoLoged :: notes
    /\ Forall (fun s => exists st, s = comStateChanged st) notes
    /\ m_loginState (final r) = NoLoged
    /\ isConnected (final r) = false
    /\ tx (m_sock (final r)) = tx (m_sock c)
    /\ (resultType_is_Done (incomingSentence c) = true ->
        attributes_count (incomingSentence c) = 1 ->
        msg = (if count (attribute (incomingSentence c) (QS "ret")) =? 0
               then missing else wrong_length))
    /\ wrong_length <> missing
    /\ wrong_length <> QS "Cannot login"
    /\ wrong_length
       <> QS "Unknown remote login sentence format: didn't receive anything".
Proof.
  apply (@doLogin_rejects_wrong_length Sample.sentences Q_LITTLE_ENDIAN
           Sample.digest16 Sample.credentials
           (Sample.awaiting_challenge "00112233445566778899aabbccddeef")).
  - reflexivity.
  - vm_compute. discriminate.
Defined.

(** A [ret] of 33 characters arriving on the socket: the sentence is
    assembled, [doLogin] rejects it and nothing is written. *)
Example login_rejects_33_characters :
  let c := Sample.connected LoginRequested [] in
  let r := deliver Q_LITTLE_ENDIAN Sample.digest16 Sample.credentials
             (x05 :: list_byte_of_string "!done"
              ++ x26 :: list_byte_of_string "=ret=00112233445566778899aabbccddeeff0"
              ++ [x00]) c in
  emitted (final r)
  = [comError (QS "Unknown remote login sentence format: 'ret' field doesn't contains 32 characters");
     loginStateChanged NoLoged; comStateChanged Closing; comStateChanged Unconnected]
  /\ m_loginState (final r) = NoLoged
  /\ state (m_sock (final r)) = UnconnectedState
  /\ tx (m_sock (final r)) = [].
Proof. repeat split; reflexivity. Qed.

(** A whole session: the socket connects, the peer sends the challenge
    and then accepts the response, and a reply arrives. Only the reply,
    which completes while the state is [LogedIn], is delivered. *)
Example session_delivers_after_login :
  let bo := Q_LITTLE_ENDIAN in
  let c0 := @Comm_ctor Sample.sentences false in
  let c1 := final (m_sock_enter bo Sample.credentials ConnectedState c0) in
  let c2 := final (deliver bo Sample.digest16 Sample.credentials
                     (x05 :: list_byte_of_string "!done"
                      ++ x25 :: list_byte_of_string "=ret=00112233445566778899aabbccddeeff"
                      ++ [x00]) c1) in
  let c3 := final (deliver bo Sample.digest16 Sample.credentials
                     (x05 :: list_byte_of_string "!done" ++ [x00]) c2) in
  let c4 := final (deliver bo Sample.digest16 Sample.credentials
                     (x03 :: list_byte_of_string "!re"
                      ++ x0b :: list_byte_of_string "=name=ether" ++ [x00]) c3) in
  m_loginState c1 = LoginRequested
  /\ tx (m_sock c1) = x06 :: list_byte_of_string "/login" ++ [x00]
  /\ m_loginState c2 = UserPassSended
  /\ m_loginState c3 = LogedIn
  /\ emitted c3
     = [comStateChanged Connected; loginRequest; loginStateChanged LoginRequested;
        loginStateChanged UserPassSended; loginStateChanged LogedIn]
  /\ emitted c4
     = emitted c3
       ++ [@comReceive Sample.sentences
             (Sample.mkSentence (QS "!re") [(QS "name", QS "ether")] [] [] [])].
Proof. vm_compute. repeat split; reflexivity. Qed.

(** * Further properties *)

(** ** The prefix, by size class *)

Section Prefixes.

Context {sentenceAPI : SentenceAPI}.
Variable Q_BYTE_ORDER : ByteOrder.

Lemma octet_or_marker (k x : Z) :
  (k = 0x80 /\ 0 <= x < 64) \/ (k = 0xC0 /\ 0 <= x < 32) \/ (k = 0xE0 /\ 0 <= x < 16) ->
  octet (to_char (Z.lor k x)) = x + k.
Proof.
  intros H. rewrite (or_marker k x H), octet_to_char. apply Z.mod_small. lia.
Qed.

(** X1: for every length that can be sent, the prefix has one, two, three
    or four bytes by the size class of the length, and its first byte
    announces that number of bytes to the reader, in either byte order. *)
Theorem prefix_length_classes (n : Z) :
  0 <= n < 0x10000000 ->
  exists b rest,
    encodedLengthData Q_BYTE_ORDER n = Some (b :: rest)
    /\ length (b :: rest)
       = (if n <? 0x80 then 1%nat else if n <? 0x4000 then 2%nat
          else if n <? 0x200000 then 3%nat else 4%nat)
    /\ prefix_size b = length (b :: rest).
Proof.
  intros Hn. destruct (n <? 0x80) eqn:E1.
  { unfold encodedLengthData. rewrite E1. eexists _, _. split; [reflexivity|].
    split; [reflexivity|]. unfold prefix_size, at_, int_bytes.
    destruct Q_BYTE_ORDER; cbn [nth]; rewrite octet_to_char.
    - change (8 * 0) with 0. rewrite Z.shiftr_0_r, Z.mod_small by lia.
      assert ((0xE0 <=? n) = false) as -> by lia.
      assert ((0xC0 <=? n) = false) as -> by lia.
      assert ((0x80 <=? n) = false) as -> by lia. reflexivity.
    - rewrite Z.shiftr_div_pow2 by lia. change (2 ^ (8 * 3)) with 16777216.
      assert (n / 16777216 = 0) as -> by (Z.div_mod_to_equations; lia).
      reflexivity. }
  rewrite encodedLengthData_spec_encode by lia.
  unfold spec_encode. rewrite E1.
  destruct (n <? 0x4000) eqn:E2.
  { eexists _, _. split; [reflexivity|]. split; [reflexivity|].
    unfold prefix_size. rewrite Z.shiftr_div_pow2 by lia. change (2 ^ 8) with 256.
    assert (Hq : 0 <= n / 256 < 64) by (Z.div_mod_to_equations; lia).
    rewrite (octet_or_marker 0x80 (n / 256)) by lia.
    assert ((0xE0 <=? n / 256 + 0x80) = false) as -> by lia.
    assert ((0xC0 <=? n / 256 + 0x80) = false) as -> by lia.
    assert ((0x80 <=? n / 256 + 0x80) = true) as -> by lia. reflexivity. }
  destruct (n <? 0x200000) eqn:E3.
  { eexists _, _. split; [reflexivity|]. split; [reflexivity|].
    unfold prefix_size. rewrite Z.shiftr_div_pow2 by lia. change (2 ^ 16) with 65536.
    assert (Hq : 0 <= n / 65536 < 32) by (Z.div_mod_to_equations; lia).
    rewrite (octet_or_marker 0xC0 (n / 65536)) by lia.
    assert ((0xE0 <=? n / 65536 + 0xC0) = false) as -> by lia.
    assert ((0xC0 <=? n / 65536 + 0xC0) = true) as -> by lia. reflexivity. }
  assert ((n <? 0x10000000) = true) as -> by lia.
  eexists _, _. split; [reflexivity|]. split; [reflexivity|].
  unfold prefix_size. rewrite Z.shiftr_div_pow2 by lia. change (2 ^ 24) with 16777216.
  assert (Hq : 0 <= n / 16777216 < 16) by (Z.div_mod_to_equations; lia).
  rewrite (octet_or_marker 0xE0 (n / 16777216)) by lia.
  assert ((0xE0 <=? n / 16777216 + 0xE0) = true) as -> by lia. reflexivity.
Qed.

(** The bytes that [read_prefix] leaves are those behind the prefix that
    the first byte announces. *)
Lemma read_prefix_skipn (b : byte) (more : list byte) :
  snd (read_prefix (b :: more)) = skipn (prefix_size b) (b :: more).
Proof.
  unfold read_prefix, prefix_size.
  destruct (0xE0 <=? octet b).
  { now destruct more as [|b2 [|b1 [|b0 r']]]. }
  destruct (0xC0 <=? octet b).
  { now destruct more as [|b1 [|b0 r']]. }
  destruct (0x80 <=? octet b).
  { now destruct more as [|b0 r']. }
  reflexivity.
Qed.

(** Behind a prefix that is not whole, [read_prefix] gives the code that
    counts the bytes it took. *)
Lemma read_prefix_code (b : byte) (more : list byte) :
  (length (b :: more) < prefix_size b)%nat ->
  fst (read_prefix (b :: more)) = - (1 + count (b :: more))
  /\ -4 <= - (1 + count (b :: more)) <= -2.
Proof.
  unfold prefix_size, read_prefix, count. intros Hshort.
  destruct (0xE0 <=? octet b).
  { destruct more as [|? [|? [|? ?]]]; cbn in Hshort |- *; (split; [reflexivity|lia]) || lia. }
  destruct (0xC0 <=? octet b).
  { destruct more as [|? [|? ?]]; cbn in Hshort |- *; (split; [reflexivity|lia]) || lia. }
  destruct (0x80 <=? octet b).
  { destruct more as [|? ?]; cbn in Hshort |- *; (split; [reflexivity|lia]) || lia. }
  cbn in Hshort. lia.
Qed.

(** X2: [readLength] takes from the socket the bytes of the prefix that
    the first byte announces, or all the bytes when fewer are there.
    Behind a first byte below 0x80 it returns that byte, which is the
    length. When the first byte announces more bytes and they are all
    there, the program is ended in it, the block of [lengthData] being
    given back twice, and no length is returned. When bytes of the prefix
    are missing, it returns a code from -2 to -4 that tells how many bytes
    it took. *)
Theorem readLength_consumes_prefix (c : Comm) (b : byte) (more : list byte) :
  rx (m_sock c) = b :: more ->
  let c' := with_rx (skipn (prefix_size b) (b :: more)) c in
  (octet b < 0x80 -> readLength Q_BYTE_ORDER c = Ret (octet b) c')
  /\ (0x80 <= octet b -> (prefix_size b <= length (b :: more))%nat ->
      readLength Q_BYTE_ORDER c = Aborted c')
  /\ ((length (b :: more) < prefix_size b)%nat ->
      readLength Q_BYTE_ORDER c = Ret (- (1 + count (b :: more))) c'
      /\ -4 <= - (1 + count (b :: more)) <= -2).
Proof.
  intros Hrx c'. rewrite readLength_read_prefix, Hrx, read_prefix_skipn. fold c'.
  split; [|split].
  - intros Hb. rewrite long_prefix_one, read_prefix_one by lia. reflexivity.
  - intros Hb Hlen.
    assert (long_prefix (b :: more) = true) as ->; [|reflexivity].
    unfold long_prefix. apply andb_true_intro.
    split; [apply Z.leb_le; exact Hb | apply Nat.leb_le; exact Hlen].
  - intros Hlen. destruct (read_prefix_code b more Hlen) as [Hc Hr].
    rewrite long_prefix_short, Hc by (cbn [length] in Hlen; lia).
    split; [reflexivity | exact Hr].
Qed.

(** X3: the prefixes are uniquely decodable: when the prefixes of two
    lengths, each followed by any bytes, give the same bytes, the lengths
    are the same and so is what follows. *)
Theorem prefix_uniquely_decodable (n m : Z) (p q r s : list byte) :
  0 <= n < 0x10000000 ->
  0 <= m < 0x10000000 ->
  Q_BYTE_ORDER = Q_LITTLE_ENDIAN \/ (0x80 <= n /\ 0x80 <= m) ->
  encodedLengthData Q_BYTE_ORDER n = Some p ->
  encodedLengthData Q_BYTE_ORDER m = Some q ->
  p ++ r = q ++ s ->
  n = m /\ p = q /\ r = s.
Proof.
  intros Hn Hm Hbo Ep Eq_ Happ.
  rewrite encodedLengthData_spec_encode in Ep, Eq_ by tauto.
  pose proof (read_prefix_spec_encode n p r Hn Ep) as Rn.
  pose proof (read_prefix_spec_encode m q s Hm Eq_) as Rm.
  rewrite Happ, Rm in Rn.
  assert (m = n) by congruence. assert (s = r) by congruence. subst.
  repeat split. congruence.
Qed.

End Prefixes.

(** ** Whole sentences in the socket *)

Section Reader.

Context {sentenceAPI : SentenceAPI}.
Variable Q_BYTE_ORDER : ByteOrder.

Lemma spec_encode_short (n : Z) :
  n < 0x10000000 -> exists prefix, spec_encode n = Some prefix.
Proof.
  intros H. unfold spec_encode.
  destruct (n <? 0x80); [eauto|]. destruct (n <? 0x4000); [eauto|].
  destruct (n <? 0x200000); [eauto|].
  assert ((n <? 0x10000000) = true) as -> by lia. eauto.
Qed.

Lemma read_prefix_wire (word rest : list byte) :
  count word < 0x10000000 ->
  read_prefix (wire word ++ rest) = (count word, word ++ rest).
Proof.
  intros H. unfold wire. destruct (spec_encode_short _ H) as [p Hp].
  rewrite Hp, <- app_assoc. apply read_prefix_spec_encode; [|exact Hp].
  unfold count in *. lia.
Qed.

Lemma length_wire (word : list byte) :
  0 < count word < 0x80 -> (0 < length (wire word))%nat.
Proof.
  intros H. unfold wire. destruct (spec_encode_short (count word)) as [p Hp]; [lia|].
  rewrite Hp, length_app. unfold count in H. lia.
Qed.

Lemma long_prefix_wire (word rest : list byte) :
  count word < 0x80 -> long_prefix (wire word ++ rest) = false.
Proof.
  intros H. unfold wire. destruct (spec_encode_short (count word)) as [p Hp]; [lia|].
  rewrite Hp, <- app_assoc.
  rewrite (long_prefix_spec_encode (count word) p) by (unfold count in *; lia || exact Hp).
  apply Z.leb_gt. exact H.
Qed.

(** A word of fewer than 0x80 bytes that is there whole is read in one
    call. *)
Lemma readWord_wire (c : Comm) (word rest : list byte) :
  incomingWordSize c <= 0 ->
  0 < count word < 0x80 ->
  rx (m_sock c) = wire word ++ rest ->
  readWord Q_BYTE_ORDER c
  = Ret 1 (set_incomingWord (incomingWord c ++ word)
             (set_incomingWordSize 0 (with_rx rest c))).
Proof.
  intros Hs Hw Hrx. rewrite readWord_cases.
  assert ((incomingWordSize c <=? 0) = true) as -> by lia.
  rewrite Hrx, long_prefix_wire, read_prefix_wire by lia. cbv zeta. cbn [fst snd].
  assert ((count word =? -1) = false) as -> by lia.
  assert ((count word <? 0) = false) as -> by lia.
  assert ((count word =? 0) = false) as -> by lia.
  unfold read_body.
  destruct c as [[st bytes tx_ btw] u pw w s sc l ws id em].
  cbn [with_rx set_incomingWordSize set_incomingWord set_m_sock m_sock rx state tx
       bytesToWrite incomingWordSize incomingWord m_Username m_Password
       incomingSentence sentenceCompleted m_loginState ID emitted].
  unfold count in *. rewrite Nat2Z.id.
  rewrite firstn_app, firstn_all, Nat.sub_diag, firstn_O, app_nil_r.
  rewrite skipn_app, skipn_all, Nat.sub_diag, skipn_O, app_nil_l.
  assert ((Z.of_nat (length word) =? 0) = false) as -> by lia.
  cbn [with_rx set_incomingWordSize set_incomingWord set_m_sock m_sock rx state tx
       bytesToWrite incomingWordSize incomingWord m_Username m_Password
       incomingSentence sentenceCompleted m_loginState ID emitted].
  rewrite Z.sub_diag. reflexivity.
Qed.

(** The empty word. *)
Lemma readWord_end (c : Comm) (rest : list byte) :
  incomingWordSize c <= 0 ->
  rx (m_sock c) = x00 :: rest ->
  readWord Q_BYTE_ORDER c
  = Ret 0 (set_incomingWord [] (set_incomingWordSize 0 (with_rx rest c))).
Proof.
  intros Hs Hrx. rewrite readWord_cases.
  assert ((incomingWordSize c <=? 0) = true) as -> by lia.
  cbv zeta. rewrite Hrx. reflexivity.
Qed.

Lemma length_flat_map_wire (words : list QByteArray) :
  Forall (fun w => 0 < count w < 0x80) words ->
  (length words <= length (flat_map wire words))%nat.
Proof.
  induction 1 as [|w ws Hw _ IH]; [reflexivity|].
  cbn [flat_map length]. rewrite length_app.
  pose proof (length_wire w Hw). lia.
Qed.

Lemma readSentence_loop_words (words : list QByteArray) :
  forall (c : Comm) (fuel : nat) (rest : list byte),
    (length words < fuel)%nat ->
    incomingWordSize c <= 0 ->
    incomingWord c = [] ->
    Forall (fun w => 0 < count w < 0x80) words ->
    rx (m_sock c) = flat_map wire words ++ x00 :: rest ->
    readSentence_loop Q_BYTE_ORDER fuel c
    = Some (Ret tt
        (set_sentenceCompleted true
           (set_incomingWord []
              (set_incomingWordSize 0
                 (set_incomingSentence (assembled (incomingSentence c) words)
                    (with_rx rest c)))))).
Proof.
  induction words as [|w ws IH]; intros c fuel rest Hfuel Hs Hw Hall Hrx.
  - destruct fuel as [|fuel]; [cbn in Hfuel; lia|].
    cbn [flat_map app] in Hrx. cbn [readSentence_loop].
    rewrite (readWord_end c rest Hs Hrx).
    destruct c as [[st bytes tx_ btw] u pw w' s sc l ws' id em]. reflexivity.
  - destruct fuel as [|fuel]; [cbn in Hfuel; lia|].
    inversion Hall as [|? ? Hw1 Hall']; subst.
    cbn [flat_map] in Hrx. rewrite <- app_assoc in Hrx.
    cbn [readSentence_loop].
    rewrite (readWord_wire c w _ Hs Hw1 Hrx). rewrite Hw. cbn [app].
    assert ((1 >=? 0) = true) as -> by reflexivity.
    assert (Hne : isEmpty (incomingWord
              (set_incomingWord w (set_incomingWordSize 0
                 (with_rx (flat_map wire ws ++ x00 :: rest) c)))) = false).
    { destruct w; [cbn in Hw1; lia | reflexivity]. }
    rewrite Hne.
    rewrite (IH _ fuel rest); try assumption.
    + destruct c as [[st bytes tx_ btw] u pw w' s sc l ws' id em]. reflexivity.
    + cbn [length] in Hfuel. lia.
    + cbn. lia.
    + reflexivity.
    + destruct c as [[st bytes tx_ btw] u pw w' s sc l ws' id em]. reflexivity.
Qed.

(** A whole sentence of short words in the socket, read in one call. *)
Lemma readSentence_whole (c : Comm) (words : list QByteArray) (rest : list byte) :
  incomingWordSize c <= 0 ->
  incomingWord c = [] ->
  Forall (fun w => 0 < count w < 0x80) words ->
  rx (m_sock c) = flat_map wire words ++ x00 :: rest ->
  readSentence Q_BYTE_ORDER c
  = Ret tt
      (set_sentenceCompleted true
         (set_incomingWord []
            (set_incomingWordSize 0
               (set_incomingSentence (assembled (incomingSentence c) words)
                  (with_rx rest c))))).
Proof.
  intros Hs Hw Hall Hrx. unfold readSentence.
  rewrite (readSentence_loop_words words c _ rest); try assumption; [reflexivity|].
  rewrite Hrx, length_app. pose proof (length_flat_map_wire words Hall). lia.
Qed.

(** X4: [readSentence] on a sentence of short words that is there whole:
    words of 1 to 0x7F bytes, each behind its length byte, and the empty
    word after them. It hands the words on to the sentence in their
    order, marks the sentence as completed, and leaves the bytes that
    follow the empty word in the socket. *)
Theorem readSentence_assembles (c : Comm) (words : list QByteArray)
    (rest : list byte) :
  incomingWordSize c <= 0 ->
  incomingWord c = [] ->
  Forall (fun w => 0 < count w < 0x80) words ->
  rx (m_sock c) = flat_map wire words ++ x00 :: rest ->
  readSentence Q_BYTE_ORDER c
  = Ret tt
      (set_sentenceCompleted true
         (set_incomingWord []
            (set_incomingWordSize 0
               (set_incomingSentence (assembled (incomingSentence c) words)
                  (with_rx rest c))))).
Proof.
  intros Hs Hw Hall Hrx. unfold readSentence.
  rewrite (readSentence_loop_words words c _ rest); try assumption; [reflexivity|].
  rewrite Hrx, length_app. pose proof (length_flat_map_wire words Hall). lia.
Qed.

End Reader.

(** ** One sentence for each notification *)

Section Notification.

Context {sentenceAPI : SentenceAPI}.
Variable Q_BYTE_ORDER : ByteOrder.
Variable MD5 : list byte -> list byte.
Variable loginRequest_slot : QString * QString -> QString * QString.

(** After the login, a sentence that is there whole is handed to the
    application and cleared. *)
Lemma onReadyRead_delivers (c : Comm) (words : list QByteArray) (rest : list byte) :
  m_loginState c = LogedIn ->
  incomingWordSize c <= 0 ->
  incomingWord c = [] ->
  Forall (fun w => 0 < count w < 0x80) words ->
  rx (m_sock c) = flat_map wire words ++ x00 :: rest ->
  let s := assembled (incomingSentence c) words in
  onReadyRead Q_BYTE_ORDER MD5 loginRequest_slot c
  = Ret tt
      (set_sentenceCompleted false
         (set_incomingSentence (clear s)
            (set_emitted (emitted c ++ [comReceive s])
               (set_incomingWord []
                  (set_incomingWordSize 0 (with_rx rest c)))))).
Proof.
  intros Hl Hs Hw Hall Hrx s. unfold onReadyRead, bind.
  rewrite (readSentence_whole Q_BYTE_ORDER c words rest Hs Hw Hall Hrx).
  destruct c as [[st bytes tx_ btw] u pw w' s0 sc l ws' id em].
  cbn in Hl. subst l. reflexivity.
Qed.

(** X6: [onReadyRead] hands on one sentence for each call. When two
    sentences of short words, of 1 to 0x7F bytes each, are there whole,
    the first call delivers the first and leaves the bytes of the second
    unread in the socket; the second is delivered by the next call. *)
Theorem onReadyRead_one_sentence_per_call (c : Comm)
    (first second : list QByteArray) (rest : list byte) :
  m_loginState c = LogedIn ->
  incomingWordSize c <= 0 ->
  incomingWord c = [] ->
  Forall (fun w => 0 < count w < 0x80) first ->
  Forall (fun w => 0 < count w < 0x80) second ->
  rx (m_sock c)
  = (flat_map wire first ++ [x00]) ++ (flat_map wire second ++ [x00]) ++ rest ->
  let s1 := assembled (incomingSentence c) first in
  let s2 := assembled (clear s1) second in
  let r1 := onReadyRead Q_BYTE_ORDER MD5 loginRequest_slot c in
  let r2 := onReadyRead Q_BYTE_ORDER MD5 loginRequest_slot (final r1) in
  returned r1 = Some tt
  /\ emitted (final r1) = emitted c ++ [comReceive s1]
  /\ rx (m_sock (final r1)) = (flat_map wire second ++ [x00]) ++ rest
  /\ returned r2 = Some tt
  /\ emitted (final r2) = emitted c ++ [comReceive s1; comReceive s2]
  /\ rx (m_sock (final r2)) = rest.
Proof.
  intros Hl Hs Hw H1 H2 Hrx s1 s2 r1 r2.
  rewrite <- !app_assoc in Hrx. cbn [app] in Hrx.
  pose proof (onReadyRead_delivers c first _ Hl Hs Hw H1 Hrx) as E1.
  cbv zeta in E1. fold s1 in E1. fold r1 in E1.
  assert (E2 : r2 = onReadyRead Q_BYTE_ORDER MD5 loginRequest_slot (final r1))
    by reflexivity.
  rewrite E1 in E2 |- *. cbn [final] in E2 |- *.
  rewrite (onReadyRead_delivers _ second rest) in E2.
  - rewrite E2. destruct c as [[st bytes tx_ btw] u pw w' s0 sc l ws' id em].
    cbn. rewrite <- !app_assoc. repeat split.
  - destruct c as [[st bytes tx_ btw] u pw w' s0 sc l ws' id em]. exact Hl.
  - destruct c as [[st bytes tx_ btw] u pw w' s0 sc l ws' id em]. cbn. lia.
  - destruct c as [[st bytes tx_ btw] u pw w' s0 sc l ws' id em]. reflexivity.
  - exact H2.
  - destruct c as [[st bytes tx_ btw] u pw w' s0 sc l ws' id em]. reflexivity.
Qed.

End Notification.

(** ** What a send writes *)

Section Sending.

Context {sentenceAPI : SentenceAPI}.
Variable Q_BYTE_ORDER : ByteOrder.

Lemma frames_app (a b : list QString) :
  forallb sendable a = true ->
  frames Q_BYTE_ORDER (a ++ b) = frames Q_BYTE_ORDER a ++ frames Q_BYTE_ORDER b.
Proof.
  induction a as [|w a IH]; [reflexivity|].
  cbn [forallb app frames]. intros H. apply andb_prop in H as [Hw Ha].
  rewrite Hw, IH, app_assoc by exact Ha. reflexivity.
Qed.

Lemma frames_stop (before after : list QString) (w : QString) :
  forallb sendable before = true ->
  sendable w = false ->
  frames Q_BYTE_ORDER (before ++ w :: after) = frames Q_BYTE_ORDER before
  /\ forallb sendable (before ++ w :: after) = false.
Proof.
  intros Hb Hw. rewrite frames_app, forallb_app, Hb by exact Hb.
  cbn [frames forallb]. rewrite Hw, app_nil_r. split; reflexivity.
Qed.

Lemma frame_nil : frame Q_BYTE_ORDER [] = [x00].
Proof. destruct Q_BYTE_ORDER; reflexivity. Qed.

Lemma count_toLatin1 (w : QString) : count (toLatin1 w) = count w.
Proof. unfold count, toLatin1. now rewrite length_map. Qed.

Lemma frame_wire (w : QString) :
  Q_BYTE_ORDER = Q_LITTLE_ENDIAN \/ 0x80 <= count w ->
  frame Q_BYTE_ORDER w = wire (toLatin1 w).
Proof.
  intros H. unfold frame, wire.
  now rewrite count_toLatin1, encodedLengthData_spec_encode.
Qed.

Lemma frames_wire (words : list QString) :
  forallb sendable words = true ->
  Q_BYTE_ORDER = Q_LITTLE_ENDIAN \/ Forall (fun w => 0x80 <= count w) words ->
  frames Q_BYTE_ORDER words = flat_map wire (map toLatin1 words).
Proof.
  induction words as [|w ws IH]; [reflexivity|].
  cbn [forallb frames map flat_map]. intros H Hbo.
  apply andb_prop in H as [Hw Hws]. rewrite Hw, IH, frame_wire; trivial.
  - destruct Hbo as [Hbo | Hbo]; [now left | right; now inversion Hbo].
  - destruct Hbo as [Hbo | Hbo]; [now left | right; now inversion Hbo].
Qed.

Lemma forallb_sendable (words : list QString) :
  Forall (fun w => 0 < count w < 0x80) words -> forallb sendable words = true.
Proof.
  induction 1 as [|w ws Hw _ IH]; [reflexivity|].
  cbn [forallb]. rewrite IH, andb_true_r. unfold sendable. lia.
Qed.

Lemma tx_wrote (bytes : list byte) (c : Comm) :
  tx (m_sock (wrote bytes c)) = tx (m_sock c) ++ bytes.
Proof. reflexivity. Qed.

(** A sentence sent without a tag word. *)
Lemma sendSentence_untagged (sent : QSentence) (c : Comm) :
  forallb sendable (head_words sent) = true ->
  sendSentence Q_BYTE_ORDER sent false c
  = Ret [] (wrote (frames Q_BYTE_ORDER (head_words sent) ++ frame Q_BYTE_ORDER []) c).
Proof.
  intros Hs. rewrite sendSentence_unfold, foreach_sendWord, Hs.
  unfold bind, ret. rewrite sendWord_frame, sendable_nil, wrote_wrote. reflexivity.
Qed.

Lemma tx_set_ID (i : Z) (c : Comm) : tx (m_sock (set_ID i c)) = tx (m_sock c).
Proof. reflexivity. Qed.

Lemma isEmpty_true {A} (l : list A) : isEmpty l = true -> l = [].
Proof. now destruct l. Qed.

Lemma isEmpty_false {A} (l : list A) : isEmpty l = false -> l <> [].
Proof. now destruct l. Qed.

Lemma sendSentence_auto_tx (sent : QSentence) (c : Comm) :
  tag sent = [] ->
  forallb sendable (head_words sent) = true ->
  let t := number (int_wrap (ID c + 1)) in
  let r := sendSentence Q_BYTE_ORDER sent true c in
  r = Ret t (final r)
  /\ tx (m_sock (final r))
     = tx (m_sock c) ++ (frames Q_BYTE_ORDER (head_words sent)
                          ++ frame Q_BYTE_ORDER (QS ".tag=" ++ t)) ++ [x00].
Proof.
  intros E Hh t r. subst r.
  rewrite (sendSentence_auto Q_BYTE_ORDER sent c E Hh). cbv zeta. cbn [final].
  split; [reflexivity|].
  rewrite tx_wrote, frame_nil, tx_set_ID, tx_wrote, <- !app_assoc.
  reflexivity.
Qed.

Lemma sendSentence_explicit_tx (sent : QSentence) (c : Comm) :
  tag sent <> [] ->
  forallb sendable (head_words sent) = true ->
  sendable (QS ".tag=" ++ tag sent) = true ->
  let r := sendSentence Q_BYTE_ORDER sent true c in
  r = Ret (tag sent) (final r)
  /\ tx (m_sock (final r))
     = tx (m_sock c) ++ (frames Q_BYTE_ORDER (head_words sent)
                          ++ frame Q_BYTE_ORDER (QS ".tag=" ++ tag sent)) ++ [x00].
Proof.
  intros E Hh Ht r. subst r.
  rewrite (sendSentence_explicit Q_BYTE_ORDER sent c E Hh Ht). cbn [final].
  split; [reflexivity|]. rewrite tx_wrote, frame_nil, <- !app_assoc. reflexivity.
Qed.

Lemma forallb_one {A} (f : A -> bool) (x : A) : forallb f [x] = f x.
Proof. cbn [forallb]. apply andb_true_r. Qed.

Lemma frames_one (w : QString) :
  sendable w = true -> frames Q_BYTE_ORDER [w] = frame Q_BYTE_ORDER w.
Proof. intros H. cbn [frames]. now rewrite H, app_nil_r. Qed.

(** What a send returns and writes when every word can be framed. *)
Lemma sendSentence_writes (sent : QSentence) (addTag : bool) (c : Comm) :
  let t := if isEmpty (tag sent) then number (int_wrap (ID c + 1)) else tag sent in
  let words := head_words sent ++ (if addTag then [QS ".tag=" ++ t] else []) in
  forallb sendable words = true ->
  let r := sendSentence Q_BYTE_ORDER sent addTag c in
  r = Ret (if addTag then t else []) (final r)
  /\ tx (m_sock (final r))
     = tx (m_sock c) ++ frames Q_BYTE_ORDER words ++ [x00].
Proof.
  intros t words Hs r. subst r words.
  rewrite forallb_app in Hs. apply andb_prop in Hs as [Hh Ht].
  rewrite frames_app by exact Hh.
  destruct addTag.
  - cbv iota in Ht |- *. rewrite forallb_one in Ht.
    rewrite frames_one by exact Ht. subst t.
    destruct (isEmpty (tag sent)) eqn:E.
    + apply isEmpty_true in E. exact (sendSentence_auto_tx sent c E Hh).
    + apply isEmpty_false in E. exact (sendSentence_explicit_tx sent c E Hh Ht).
  - rewrite (sendSentence_untagged sent c Hh). cbn [final].
    split; [reflexivity|]. rewrite tx_wrote, frame_nil. f_equal.
    change (frames Q_BYTE_ORDER []) with (@nil byte). now rewrite app_nil_r.
Qed.

(** X5: on a little-endian build, a sentence of short words that is sent
    is read back as it was sent. When every word of the sentence, the tag
    word included, has from 1 to 0x7F characters, so that its length
    takes one byte, [sendSentence] returns the tag, and [readSentence], on
    the bytes that [sendSentence] wrote, assembles the Latin-1 words in
    their order and leaves what follows them unread. *)
Theorem sentence_round_trip (sent : QSentence) (addTag : bool)
    (c receiver : Comm) (rest : list byte) :
  let t := if isEmpty (tag sent) then number (int_wrap (ID c + 1)) else tag sent in
  let words := head_words sent ++ (if addTag then [QS ".tag=" ++ t] else []) in
  Q_BYTE_ORDER = Q_LITTLE_ENDIAN ->
  Forall (fun w => 0 < count w < 0x80) words ->
  incomingWordSize receiver <= 0 ->
  incomingWord receiver = [] ->
  let r := sendSentence Q_BYTE_ORDER sent addTag c in
  exists bytes,
    r = Ret (if addTag then t else []) (final r)
    /\ tx (m_sock (final r)) = tx (m_sock c) ++ bytes
    /\ readSentence Q_BYTE_ORDER (with_rx (bytes ++ rest) receiver)
       = Ret tt
           (set_sentenceCompleted true
              (set_incomingWord []
                 (set_incomingWordSize 0
                    (set_incomingSentence
                       (assembled (incomingSentence receiver) (map toLatin1 words))
                       (with_rx rest receiver))))).
Proof.
  intros t words Hbo Hall Hs Hw r.
  pose proof (forallb_sendable words Hall) as Hsend.
  destruct (sendSentence_writes sent addTag c Hsend) as [Er Etx].
  fold t in Er, Etx. fold words in Etx. fold r in Er, Etx.
  exists (frames Q_BYTE_ORDER words ++ [x00]).
  split; [exact Er|]. split; [exact Etx|].
  rewrite (frames_wire words Hsend (or_introl Hbo)), <- app_assoc. cbn [app].
  rewrite (readSentence_whole Q_BYTE_ORDER _ (map toLatin1 words) rest).
  - now rewrite with_rx_with_rx.
  - exact Hs.
  - exact Hw.
  - clear -Hall. induction Hall as [|w ws Hw1 _ IH]; constructor.
    + now rewrite count_toLatin1.
    + exact IH.
  - now rewrite rx_with_rx.
Qed.

(** X7: a word that is too long stops the send where it stands. The words
    before it have been written, the word itself and everything after it,
    the tag word and the empty word that ends the sentence included, have
    not; the exception is "Word too long", and the tag counter has not
    moved. *)
Theorem sendSentence_word_too_long (sent : QSentence) (addTag : bool) (c : Comm)
    (before after : list QString) (w : QString) :
  head_words sent = before ++ w :: after ->
  forallb sendable before = true ->
  sendable w = false ->
  sendSentence Q_BYTE_ORDER sent addTag c
  = Throw "Word too long" (wrote (frames Q_BYTE_ORDER before) c).
Proof.
  intros Hh Hb Hw. rewrite sendSentence_unfold, foreach_sendWord, Hh.
  destruct (frames_stop before after w Hb Hw) as [-> ->]. reflexivity.
Qed.

End Sending.

(** ** What a send leaves alone *)

Section SendingFrame.

Context {sentenceAPI : SentenceAPI}.
Variable Q_BYTE_ORDER : ByteOrder.

Lemma sent_only_refl (c : Comm) : sent_only c c.
Proof.
  exists [], (ID c). rewrite wrote_nil.
  now destruct c as [[st bytes tx_ btw] u pw w s sc l ws id em].
Qed.

Lemma sent_only_trans (a b c : Comm) : sent_only a b -> sent_only b c -> sent_only a c.
Proof.
  intros (b1 & i1 & ->) (b2 & i2 & ->). exists (b1 ++ b2), i2.
  rewrite <- wrote_wrote.
  now destruct a as [[st bytes tx_ btw] u pw w s sc l ws id em].
Qed.

Lemma sent_only_sendWord (word : QString) :
  keeps sent_only (sendWord Q_BYTE_ORDER word).
Proof.
  intros c. rewrite sendWord_frame. destruct (sendable word); cbn [final].
  - exists (frame Q_BYTE_ORDER word), (ID c).
    now destruct c as [[st bytes tx_ btw] u pw w s sc l ws id em].
  - apply sent_only_refl.
Qed.

Lemma sent_only_bind {A B} (m : M A) (k : A -> M B) :
  keeps sent_only m -> (forall a, keeps sent_only (k a)) -> keeps sent_only (bind m k).
Proof. apply keeps_bind. exact sent_only_trans. Qed.

Lemma sent_only_sendSentence (sent : QSentence) (addTag : bool) :
  keeps sent_only (sendSentence Q_BYTE_ORDER sent addTag).
Proof.
  pose proof sent_only_refl as Hrefl. pose proof sent_only_trans as Htrans.
  unfold sendSentence.
  repeat match goal with
         | |- keeps sent_only (bind _ _) => apply sent_only_bind; [|intros ?]
         | |- keeps sent_only (if ?b then _ else _) => destruct b
         | |- keeps sent_only (sendWord _ _) => apply sent_only_sendWord
         | |- keeps sent_only (foreach _ _) =>
             apply keeps_foreach; [assumption | assumption | intros ?]
         | |- keeps sent_only (ret _) => apply keeps_ret; assumption
         | |- keeps sent_only get => apply keeps_get; assumption
         | |- keeps sent_only (modify _) => apply keeps_modify; intros c0
         end.
  exists [], (int_wrap (ID c0 + 1)). now rewrite wrote_nil.
Qed.

(** X8: whatever the sentence and however the call ends, [sendSentence]
    changes nothing of the object but what the socket has been given to
    write and the tag counter: it emits no signal and leaves the login
    state, the credentials, the word and the sentence being read and the
    bytes to read as they were. *)
Theorem sendSentence_changes_only_socket_and_counter (sent : QSentence)
    (addTag : bool) (c : Comm) :
  let c' := final (sendSentence Q_BYTE_ORDER sent addTag c) in
  exists bytes,
    c' = set_ID (ID c') (wrote bytes c)
    /\ tx (m_sock c') = tx (m_sock c) ++ bytes
    /\ bytesToWrite (m_sock c') = bytesToWrite (m_sock c) + count bytes
    /\ emitted c' = emitted c
    /\ m_loginState c' = m_loginState c.
Proof.
  intros c'. destruct (sent_only_sendSentence sent addTag c) as (bytes & id & E).
  fold c' in E. exists bytes. rewrite E. repeat split.
Qed.

(** X9: on a big-endian build the one byte written for a length below
    0x80 is the high byte of the [int], which is zero: a word of fewer
    than 0x80 characters goes out behind a zero byte, and a reader takes
    that byte for the empty word that ends the sentence, leaving the
    characters of the word unread. *)
Theorem big_endian_short_word (w : QString) (c : Comm) (rest : list byte) :
  count w < 0x80 ->
  incomingWordSize c <= 0 ->
  rx (m_sock c) = frame Q_BIG_ENDIAN w ++ rest ->
  frame Q_BIG_ENDIAN w = x00 :: toLatin1 w
  /\ readWord Q_BYTE_ORDER c
     = Ret 0 (set_incomingWord []
                (set_incomingWordSize 0 (with_rx (toLatin1 w ++ rest) c))).
Proof.
  intros Hw Hs Hrx.
  assert (E : frame Q_BIG_ENDIAN w = x00 :: toLatin1 w).
  { unfold frame, encodedLengthData.
    assert ((count w <? 0x80) = true) as -> by lia.
    unfold at_, int_bytes. cbn [nth app]. f_equal.
    rewrite Z.shiftr_div_pow2 by lia. change (2 ^ (8 * 3)) with 16777216.
    assert (count w / 16777216 = 0) as ->; [|reflexivity].
    unfold count in *. Z.div_mod_to_equations; lia. }
  split; [exact E|]. rewrite E in Hrx.
  exact (readWord_end Q_BYTE_ORDER c _ Hs Hrx).
Qed.

End SendingFrame.

(** ** The stages of the login *)

Section LoginStages.

Context {sentenceAPI : SentenceAPI}.
Variable Q_BYTE_ORDER : ByteOrder.
Variable MD5 : list byte -> list byte.
Variable loginRequest_slot : QString * QString -> QString * QString.

Lemma arg_remote_msg (message : QString) :
  arg (QS "remote msg: %1") message = QS "remote msg: " ++ message.
Proof. cbn. now rewrite app_nil_r. Qed.

(** X10: the answer to the response, in [UserPassSended]. A successful
    result logs in: the state is [LogedIn], announced by
    [loginStateChanged], and the socket is not touched. Any other result
    resets the state to [NoLoged], then reports two errors, a fixed one
    and one with the attribute [message] of the answer, and closes the
    socket. In both cases nothing is written, the answer is cleared and
    a new word is awaited. *)
Theorem doLogin_answer (c : Comm) :
  m_loginState c = UserPassSended ->
  let r := doLogin Q_BYTE_ORDER MD5 loginRequest_slot c in
  r = Ret tt (final r)
  /\ tx (m_sock (final r)) = tx (m_sock c)
  /\ incomingWordSize (final r) = -1
  /\ incomingSentence (final r) = clear (incomingSentence c)
  /\ (resultType_is_Done (incomingSentence c) = true ->
      m_loginState (final r) = LogedIn
      /\ emitted (final r) = emitted c ++ [loginStateChanged LogedIn]
      /\ m_sock (final r) = m_sock c)
  /\ (resultType_is_Done (incomingSentence c) = false ->
      exists notes,
        m_loginState (final r) = NoLoged
        /\ emitted (final r)
           = emitted c
             ++ [loginStateChanged NoLoged;
                 comError (QS "Invalid Username or Password");
                 comError (QS "remote msg: "
                           ++ attribute (incomingSentence c) (QS "message"))]
             ++ notes
        /\ Forall (fun s => exists st, s = comStateChanged st) notes
        /\ isConnected (final r) = false
        /\ rx (m_sock (final r)) = []).
Proof.
  intros Hl r. unfold r, doLogin, bind, get. rewrite Hl, arg_remote_msg.
  destruct c as [[st bytes tx_ btw] u pw w s sc l ws id em].
  cbn [incomingSentence m_loginState] in *. subst l.
  destruct (resultType_is_Done s).
  - run. repeat split; try reflexivity; intros; discriminate.
  - destruct st; run; destruct (btw =? 0); run;
      (repeat split; try reflexivity; try discriminate; intros _;
       eexists; rewrite <- ?app_assoc; cbn [app];
       repeat split; try reflexivity; repeat constructor; eauto).
Qed.

(** X11: the checks of the challenge, in [LoginRequested], in the order
    of the source: the result must be successful, there must be one
    attribute, [ret] must not be empty and must have 32 characters. The
    first check that fails decides the error that is reported; the login
    state is reset, the socket is closed and nothing is written. The
    sentence is cleared except when the result is not successful, and
    the size of the word being read is left as it was. *)
Theorem doLogin_challenge_checks (c : Comm) (msg : string) :
  m_loginState c = LoginRequested ->
  let s := incomingSentence c in
  (if negb (resultType_is_Done s) then
     Some "Cannot login"%string
   else if negb (attributes_count s =? 1) then
     Some "Unknown remote login sentence format: didn't receive anything"%string
   else if count (attribute s (QS "ret")) =? 0 then
     Some "Unknown remote login sentence format: Doesn't receive 'ret' namefield"%string
   else if negb (count (attribute s (QS "ret")) =? 32) then
     Some "Unknown remote login sentence format: 'ret' field doesn't contains 32 characters"%string
   else None) = Some msg ->
  let r := doLogin Q_BYTE_ORDER MD5 loginRequest_slot c in
  exists notes,
    r = Ret tt (final r)
    /\ emitted (final r)
       = emitted c ++ comError (QS msg) :: loginStateChanged NoLoged :: notes
    /\ Forall (fun s => exists st, s = comStateChanged st) notes
    /\ m_loginState (final r) = NoLoged
    /\ isConnected (final r) = false
    /\ tx (m_sock (final r)) = tx (m_sock c)
    /\ incomingSentence (final r)
       = (if resultType_is_Done s then clear s else s)
    /\ incomingWordSize (final r) = incomingWordSize c.
Proof.
  intros Hl s0 Hv r. unfold r, doLogin, bind, get. rewrite Hl. subst s0.
  destruct c as [[st bytes tx_ btw] u pw w s sc l ws id em].
  cbn [incomingSentence m_loginState] in *. subst l.
  destruct (resultType_is_Done s); cbn [negb] in *;
    [destruct (attributes_count s =? 1); cbn [negb] in *;
     [destruct (count (attribute s (QS "ret")) =? 0);
      [|destruct (count (attribute s (QS "ret")) =? 32); cbn [negb] in *;
        [discriminate|]]|]|];
    apply Some_inj in Hv; subst msg;
    destruct st; run; destruct (btw =? 0); run;
    eexists; rewrite <- ?app_assoc; cbn [app];
    (repeat split; try reflexivity; repeat constructor; eauto).
Qed.

End LoginStages.

(** ** Exceptions *)

Section Exceptions.

Context {sentenceAPI : SentenceAPI}.
Variable Q_BYTE_ORDER : ByteOrder.
Variable MD5 : list byte -> list byte.
Variable loginRequest_slot : QString * QString -> QString * QString.

Lemma throws_only_ret (P : string -> Prop) {A} (a : A) : throws_only P (ret a).
Proof. intros c what c' H. discriminate. Qed.

Lemma throws_only_get (P : string -> Prop) : throws_only P get.
Proof. intros c what c' H. discriminate. Qed.

Lemma throws_only_modify (P : string -> Prop) (f : Comm -> Comm) :
  throws_only P (modify f).
Proof. intros c what c' H. discriminate. Qed.

Lemma throws_only_emit (P : string -> Prop) (s : Signal) : throws_only P (emit s).
Proof. intros c what c' H. discriminate. Qed.

Lemma throws_only_throw (P : string -> Prop) {A} (what : string) :
  P what -> throws_only P (@throw _ A what).
Proof. intros H c what' c' E. unfold throw in E. congruence. Qed.

Lemma throws_only_bind (P : string -> Prop) {A B} (m : M A) (k : A -> M B) :
  throws_only P m -> (forall a, throws_only P (k a)) -> throws_only P (bind m k).
Proof.
  intros Hm Hk c what c' E. unfold bind in E.
  destruct (m c) as [a c1|what1 c1|c1] eqn:Em.
  - exact (Hk a c1 what c' E).
  - apply (Hm c what1 c1) in Em. congruence.
  - discriminate.
Qed.

Lemma throws_only_foreach (P : string -> Prop) {A} (words : list A)
    (body : A -> M unit) :
  (forall w, throws_only P (body w)) -> throws_only P (foreach words body).
Proof.
  intros Hb. induction words as [|w rest IH]; cbn [foreach].
  - apply throws_only_ret.
  - apply throws_only_bind; [apply Hb | intros _; exact IH].
Qed.

Lemma throws_only_sendWord (P : string -> Prop) (word : QString) :
  P "Word too long"%string -> throws_only P (sendWord Q_BYTE_ORDER word).
Proof.
  intros HP c what c' E. rewrite sendWord_frame in E.
  destruct (sendable word); [discriminate|]. congruence.
Qed.

Lemma throws_only_setLoginState (P : string -> Prop) (l : LoginState) :
  throws_only P (setLoginState l).
Proof.
  intros c what c' E. unfold setLoginState, bind, get in E.
  destruct (negb _) in E; discriminate.
Qed.

End Exceptions.

Ltac throws :=
  repeat match goal with
         | |- throws_only _ (bind _ _) => apply throws_only_bind; [|intros ?]
         | |- throws_only _ (ret _) => apply throws_only_ret
         | |- throws_only _ get => apply throws_only_get
         | |- throws_only _ (modify _) => apply throws_only_modify
         | |- throws_only _ (emit _) => apply throws_only_emit
         | |- throws_only _ clear_incomingSentence => apply throws_only_modify
         | |- throws_only _ (setLoginState _) => apply throws_only_setLoginState
         | |- throws_only _ (sendWord _ _) => apply throws_only_sendWord; trivial
         | |- throws_only _ (foreach _ _) => apply throws_only_foreach; intros ?
         | |- throws_only _ (match ?x with _ => _ end) => destruct x
         end.

Section Thrown.

Context {sentenceAPI : SentenceAPI}.
Variable Q_BYTE_ORDER : ByteOrder.
Variable MD5 : list byte -> list byte.
Variable loginRequest_slot : QString * QString -> QString * QString.

Lemma throws_only_sendSentence (P : string -> Prop) (sent : QSentence)
    (addTag : bool) :
  P "Word too long"%string -> throws_only P (sendSentence Q_BYTE_ORDER sent addTag).
Proof. intros HP. unfold sendSentence. throws. Qed.

Lemma throws_only_m_sock_enter (P : string -> Prop) (st : SocketState) :
  (st = ConnectedState -> P "Word too long"%string) ->
  throws_only P (m_sock_enter Q_BYTE_ORDER loginRequest_slot st).
Proof.
  intros HP. unfold m_sock_enter, onSocketStateChanges.
  apply throws_only_bind; [apply throws_only_modify | intros _].
  destruct st; throws. apply throws_only_sendSentence. now apply HP.
Qed.

Lemma throws_only_m_sock_disconnectFromHost (P : string -> Prop) :
  throws_only P (m_sock_disconnectFromHost Q_BYTE_ORDER loginRequest_slot).
Proof.
  unfold m_sock_disconnectFromHost. throws;
    apply throws_only_m_sock_enter; discriminate.
Qed.

Lemma throws_only_m_sock_close (P : string -> Prop) :
  throws_only P (m_sock_close Q_BYTE_ORDER loginRequest_slot).
Proof.
  unfold m_sock_close. throws. apply throws_only_m_sock_disconnectFromHost.
Qed.

Lemma throws_only_m_sock_abort (P : string -> Prop) :
  throws_only P (m_sock_abort Q_BYTE_ORDER loginRequest_slot).
Proof.
  unfold m_sock_abort. throws; apply throws_only_m_sock_enter; discriminate.
Qed.

Lemma throws_only_closeCom (P : string -> Prop) (force : bool) :
  throws_only P (closeCom Q_BYTE_ORDER loginRequest_slot force).
Proof.
  unfold closeCom. throws;
    first [apply throws_only_m_sock_abort | apply throws_only_m_sock_close
          | apply throws_only_m_sock_disconnectFromHost].
Qed.

Lemma throws_only_m_sock_bytesWritten (P : string -> Prop) :
  throws_only P (m_sock_bytesWritten Q_BYTE_ORDER loginRequest_slot).
Proof.
  unfold m_sock_bytesWritten. throws. apply throws_only_m_sock_enter. discriminate.
Qed.

Lemma throws_only_connectTo (P : string -> Prop) (addr : QString) (port : Z)
    (p : Peer) :
  throws_only P (connectTo Q_BYTE_ORDER loginRequest_slot addr port p).
Proof.
  unfold connectTo, m_sock_connectToHost. throws.
  apply throws_only_m_sock_enter. discriminate.
Qed.

Lemma throws_only_onError (P : string -> Prop) (errorString : QString) :
  throws_only P (onError errorString).
Proof. unfold onError. throws. Qed.

Lemma throws_only_readWord :
  throws_only (eq "Incomplete word length arrived."%string) (readWord Q_BYTE_ORDER).
Proof.
  intros c what c' E. rewrite readWord_cases in E. cbv zeta in E.
  unfold read_body in E.
  destruct (incomingWordSize c <=? 0); [|discriminate].
  destruct (long_prefix _) in E; [discriminate|].
  destruct (_ =? -1) in E; [discriminate|].
  destruct (_ <? 0) in E; [congruence|].
  destruct (_ =? 0) in E; discriminate.
Qed.

Lemma readSentence_loop_throws (fuel : nat) :
  forall (c : Comm) what c',
    readSentence_loop Q_BYTE_ORDER fuel c = Some (Throw what c') ->
    what = "Incomplete word length arrived."%string.
Proof.
  induction fuel as [|fuel IH]; intros c what c' E; [discriminate|].
  cbn [readSentence_loop] in E.
  destruct (readWord Q_BYTE_ORDER c) as [r c1|what1 c1|c1] eqn:Ew.
  - destruct (r >=? 0); [|discriminate].
    destruct (isEmpty (incomingWord c1)); [discriminate|].
    exact (IH _ _ _ E).
  - apply throws_only_readWord in Ew. congruence.
  - discriminate.
Qed.

Lemma throws_only_readSentence :
  throws_only (eq "Incomplete word length arrived."%string)
              (readSentence Q_BYTE_ORDER).
Proof.
  intros c what c' E.
  destruct (readSentence_total Q_BYTE_ORDER c) as (r & E1 & E2).
  rewrite E in E2. subst r. symmetry.
  exact (readSentence_loop_throws _ _ _ _ E1).
Qed.

(** The exceptions of [doLogin], by the login state. *)
Lemma doLogin_throws (c : Comm) (what : string) (c' : Comm) :
  doLogin Q_BYTE_ORDER MD5 loginRequest_slot c = Throw what c' ->
  (m_loginState c = LogedIn /\ what = "router is loged already in"%string)
  \/ (m_loginState c = LoginRequested /\ what = "Word too long"%string).
Proof.
  unfold doLogin. unfold bind at 1, get.
  destruct (m_loginState c) eqn:El; intros E.
  - discriminate.
  - right. split; [reflexivity|]. symmetry. revert E.
    match goal with
    | |- ?m c = _ -> _ =>
        assert (T : throws_only (eq "Word too long"%string) m);
          [|exact (T c what c')]
    end.
    throws; apply throws_only_m_sock_close.
  - exfalso. revert E.
    match goal with
    | |- ?m c = _ -> _ =>
        assert (T : throws_only (fun _ => False) m); [|exact (T c what c')]
    end.
    throws; apply throws_only_m_sock_close.
  - left. unfold throw in E. split; congruence.
Qed.

Lemma onReadyRead_throws (c : Comm) (what : string) (c' : Comm) :
  onReadyRead Q_BYTE_ORDER MD5 loginRequest_slot c = Throw what c' ->
  what = "Incomplete word length arrived."%string
  \/ (what = "Word too long"%string /\ m_loginState c = LoginRequested).
Proof.
  unfold onReadyRead, bind, get. intros E.
  pose proof (silent_readSentence Q_BYTE_ORDER c) as [Hl _].
  destruct (readSentence Q_BYTE_ORDER c) as [[] c1|what1 c1|c1] eqn:Er.
  - cbn [final] in Hl.
    destruct (sentenceCompleted c1); [|discriminate].
    destruct (LoginState_eqb (m_loginState c1) LogedIn) eqn:Eb; cbn [negb] in E;
      [discriminate|].
    destruct (doLogin Q_BYTE_ORDER MD5 loginRequest_slot c1) as [[] c2|what2 c2|c2] eqn:Ed;
      [discriminate| |discriminate].
    apply doLogin_throws in Ed.
    destruct Ed as [[Hin _] | [Hreq Hw]].
    + rewrite Hin in Eb. discriminate.
    + right. split; congruence.
  - left. apply throws_only_readSentence in Er. congruence.
  - discriminate.
Qed.

(** X12: the exceptions that leave the object, by what runs it. A call
    of [sendSentence] and the notification that the socket is connected
    throw nothing but "Word too long"; the arrival of bytes throws
    nothing but "Incomplete word length arrived." or, in
    [LoginRequested], "Word too long"; [closeCom], [connectTo], the
    other changes of state, the end of a write and the error
    notification throw nothing. The exception of [doLogin] for a router
    that is logged in already is never thrown. *)
Theorem exceptions_by_event (ev : Event) (p : Peer) (c c' : Comm) (what : string) :
  handle Q_BYTE_ORDER MD5 loginRequest_slot ev p c = Throw what c' ->
  match ev with
  | on_entry (call_sendSentence _ _) => what = "Word too long"%string
  | on_entry (socket_stateChanged ConnectedState) => what = "Word too long"%string
  | on_entry (socket_readyRead _) =>
      what = "Incomplete word length arrived."%string
      \/ (what = "Word too long"%string /\ m_loginState c = LoginRequested)
  | _ => False
  end.
Proof.
  intros E.
  assert (Hbind : forall (P : string -> Prop) (m : M unit),
             throws_only P m -> (m ;; ret p) c = Throw what c' -> P what).
  { intros P m Hm Em. revert Em. apply throws_only_bind; [exact Hm|].
    intros _. apply throws_only_ret. }
  destruct ev as [e|addr port|errorString]; cbn [handle] in E.
  - destruct e as [sent addTag|force|st| |data]; cbn [enter] in E.
    + symmetry. revert E. apply (Hbind (eq "Word too long"%string)).
      apply throws_only_bind; [now apply throws_only_sendSentence|].
      intros _. apply throws_only_ret.
    + revert E. apply (Hbind (fun _ => False)). apply throws_only_closeCom.
    + destruct st;
        try (revert E; apply (Hbind (fun _ => False)); apply throws_only_m_sock_enter; discriminate).
      symmetry. revert E. apply (Hbind (eq "Word too long"%string)). now apply throws_only_m_sock_enter.
    + revert E. apply (Hbind (fun _ => False)). apply throws_only_m_sock_bytesWritten.
    + unfold bind in E.
      destruct (deliver _ _ _ data c) as [[] c1|what1 c1|c1] eqn:Ed;
        [discriminate| |discriminate].
      assert (what1 = what) by congruence. subst what1.
      unfold deliver, bind, modify in Ed.
      apply onReadyRead_throws in Ed. exact Ed.
  - revert E.
    match goal with
    | |- ?m c = _ -> _ =>
        assert (T : throws_only (fun _ => False) m); [|exact (T c what c')]
    end.
    apply throws_only_bind; [apply throws_only_connectTo|].
    intros ?. apply throws_only_ret.
  - revert E. apply (Hbind (fun _ => False)). apply throws_only_onError.
Qed.

End Thrown.

(** ** The login state and its signal *)

Section Steady.

Context {sentenceAPI : SentenceAPI}.

Lemma announced_app (a b : list Signal) :
  forall l, announced l (a ++ b) = announced (announced l a) b.
Proof.
  induction a as [|s a IH]; intros l; [reflexivity|].
  destruct s; cbn [app announced]; apply IH.
Qed.

Lemma announced_steady (news : list Signal) (l : LoginState) :
  Forall (fun s => forall l', s <> loginStateChanged l') news ->
  announced l news = l.
Proof.
  induction 1 as [|s news Hs _ IH]; [reflexivity|].
  destruct s; cbn [announced]; try exact IH. now destruct (Hs s).
Qed.

Lemma steady_refl (c : Comm) : steady c c.
Proof. split; [reflexivity|]. exists []. now rewrite app_nil_r. Qed.

Lemma steady_trans (a b c : Comm) : steady a b -> steady b c -> steady a c.
Proof.
  intros [L1 (n1 & E1 & F1)] [L2 (n2 & E2 & F2)]. split; [congruence|].
  exists (n1 ++ n2). rewrite E2, E1, app_assoc. split; [reflexivity|].
  apply Forall_app. now split.
Qed.

Lemma steady_same (c c' : Comm) :
  m_loginState c' = m_loginState c -> emitted c' = emitted c -> steady c c'.
Proof.
  intros L E. split; [exact L|]. exists []. now rewrite app_nil_r.
Qed.

Lemma steady_sent_only (c c' : Comm) : sent_only c c' -> steady c c'.
Proof. intros (bytes & id & ->). now apply steady_same. Qed.

Lemma steady_silent (c c' : Comm) : silent c c' -> steady c c'.
Proof. intros [L E]. now apply steady_same. Qed.

Lemma steady_emit (s : Signal) :
  (forall l, s <> loginStateChanged l) -> keeps steady (emit s).
Proof.
  intros H c. split; [reflexivity|]. exists [s]. split; [reflexivity|].
  now constructor.
Qed.

Lemma steady_modify (f : Comm -> Comm) :
  (forall c, m_loginState (f c) = m_loginState c) ->
  (forall c, emitted (f c) = emitted c) ->
  keeps steady (modify f).
Proof. intros L E c. apply steady_same; [apply L | apply E]. Qed.

Lemma steady_bind {A B} (m : M A) (k : A -> M B) :
  keeps steady m -> (forall a, keeps steady (k a)) -> keeps steady (bind m k).
Proof. apply keeps_bind. exact steady_trans. Qed.

Lemma mirrored_refl (c : Comm) : mirrored c c.
Proof. exists []. now rewrite app_nil_r. Qed.

Lemma mirrored_trans (a b c : Comm) : mirrored a b -> mirrored b c -> mirrored a c.
Proof.
  intros (n1 & E1 & A1) (n2 & E2 & A2). exists (n1 ++ n2).
  rewrite E2, E1, app_assoc. split; [reflexivity|].
  now rewrite announced_app, A1.
Qed.

Lemma mirrored_steady (c c' : Comm) : steady c c' -> mirrored c c'.
Proof.
  intros [L (news & E & F)]. exists news. split; [exact E|].
  now rewrite announced_steady.
Qed.

Lemma mirrored_bind {A B} (m : M A) (k : A -> M B) :
  keeps mirrored m -> (forall a, keeps mirrored (k a)) -> keeps mirrored (bind m k).
Proof. apply keeps_bind. exact mirrored_trans. Qed.

Lemma mirrored_keeps_steady {A} (m : M A) : keeps steady m -> keeps mirrored m.
Proof. intros H c. apply mirrored_steady, H. Qed.

Lemma mirrored_setLoginState (l : LoginState) : keeps mirrored (setLoginState l).
Proof.
  intros c. unfold setLoginState, bind, get.
  destruct (LoginState_eqb l (m_loginState c)) eqn:E; cbn [negb].
  - exists []. cbn. rewrite app_nil_r. split; [reflexivity|].
    destruct l, (m_loginState c); try discriminate; reflexivity.
  - exists [loginStateChanged l]. split; reflexivity.
Qed.

Lemma final_bind_ret {A B} (m : M A) (b : B) (c : Comm) :
  final ((m ;; ret b) c) = final (m c).
Proof. unfold bind. now destruct (m c). Qed.

End Steady.

Ltac steadies :=
  repeat match goal with
         | |- keeps steady (bind _ _) => apply steady_bind; [|intros ?]
         | |- keeps steady (ret _) => apply keeps_ret; exact steady_refl
         | |- keeps steady get => apply keeps_get; exact steady_refl
         | |- keeps steady (modify _) => apply steady_modify; reflexivity
         | |- keeps steady clear_incomingSentence => apply steady_modify; reflexivity
         | |- keeps steady (emit (comError _)) => apply steady_emit; discriminate
         | |- keeps steady (emit (comStateChanged _)) => apply steady_emit; discriminate
         | |- keeps steady (emit (comReceive _)) => apply steady_emit; discriminate
         | |- keeps steady (emit loginRequest) => apply steady_emit; discriminate
         | |- keeps steady (match ?x with _ => _ end) => destruct x
         end.

Section LoginTrace.

Context {sentenceAPI : SentenceAPI}.
Variable Q_BYTE_ORDER : ByteOrder.
Variable MD5 : list byte -> list byte.
Variable loginRequest_slot : QString * QString -> QString * QString.

Lemma steady_sendWord (word : QString) : keeps steady (sendWord Q_BYTE_ORDER word).
Proof. intros c. apply steady_sent_only, sent_only_sendWord. Qed.

Lemma steady_sendSentence (sent : QSentence) (addTag : bool) :
  keeps steady (sendSentence Q_BYTE_ORDER sent addTag).
Proof. intros c. apply steady_sent_only, sent_only_sendSentence. Qed.

Lemma steady_m_sock_enter (st : SocketState) :
  st <> ConnectedState ->
  keeps steady (m_sock_enter Q_BYTE_ORDER loginRequest_slot st).
Proof.
  intros Hst. unfold m_sock_enter, onSocketStateChanges.
  apply steady_bind; [apply steady_modify; reflexivity | intros _].
  destruct st; try congruence; steadies.
Qed.

Lemma steady_m_sock_disconnectFromHost :
  keeps steady (m_sock_disconnectFromHost Q_BYTE_ORDER loginRequest_slot).
Proof.
  unfold m_sock_disconnectFromHost. steadies;
    apply steady_m_sock_enter; discriminate.
Qed.

Lemma steady_m_sock_close :
  keeps steady (m_sock_close Q_BYTE_ORDER loginRequest_slot).
Proof.
  unfold m_sock_close. steadies. apply steady_m_sock_disconnectFromHost.
Qed.

Lemma steady_m_sock_abort :
  keeps steady (m_sock_abort Q_BYTE_ORDER loginRequest_slot).
Proof.
  unfold m_sock_abort. steadies; apply steady_m_sock_enter; discriminate.
Qed.

Lemma steady_closeCom (force : bool) :
  keeps steady (closeCom Q_BYTE_ORDER loginRequest_slot force).
Proof.
  unfold closeCom. steadies;
    first [apply steady_m_sock_abort | apply steady_m_sock_close
          | apply steady_m_sock_disconnectFromHost].
Qed.

Lemma steady_m_sock_bytesWritten :
  keeps steady (m_sock_bytesWritten Q_BYTE_ORDER loginRequest_slot).
Proof.
  unfold m_sock_bytesWritten. steadies. apply steady_m_sock_enter. discriminate.
Qed.

Lemma steady_connectTo (addr : QString) (port : Z) (p : Peer) :
  keeps steady (connectTo Q_BYTE_ORDER loginRequest_slot addr port p).
Proof.
  unfold connectTo, m_sock_connectToHost. steadies.
  apply steady_m_sock_enter. discriminate.
Qed.

Lemma steady_onError (errorString : QString) : keeps steady (onError errorString).
Proof. unfold onError. steadies. Qed.

Lemma steady_Comm_dtor : keeps steady (Comm_dtor Q_BYTE_ORDER loginRequest_slot).
Proof. apply steady_m_sock_close. Qed.

Lemma steady_readSentence : keeps steady (readSentence Q_BYTE_ORDER).
Proof. intros c. apply steady_silent, silent_readSentence. Qed.

End LoginTrace.

Ltac mirrors :=
  repeat match goal with
         | |- keeps mirrored (bind _ _) => apply mirrored_bind; [|intros ?]
         | |- keeps mirrored (setLoginState _) => apply mirrored_setLoginState
         | |- keeps mirrored (throw _) => apply keeps_throw; exact mirrored_refl
         | |- keeps mirrored (sendWord _ _) =>
             apply mirrored_keeps_steady, steady_sendWord
         | |- keeps mirrored (sendSentence _ _ _) =>
             apply mirrored_keeps_steady, steady_sendSentence
         | |- keeps mirrored (m_sock_close _ _) =>
             apply mirrored_keeps_steady, steady_m_sock_close
         | |- keeps mirrored (readSentence _) =>
             apply mirrored_keeps_steady, steady_readSentence
         | |- keeps mirrored (match ?x with _ => _ end) => destruct x
         | |- keeps mirrored _ => apply mirrored_keeps_steady; solve [steadies]
         end.

Section LoginMachine.

Context {sentenceAPI : SentenceAPI}.
Variable Q_BYTE_ORDER : ByteOrder.
Variable MD5 : list byte -> list byte.
Variable loginRequest_slot : QString * QString -> QString * QString.

Lemma mirrored_doLogin :
  keeps mirrored (doLogin Q_BYTE_ORDER MD5 loginRequest_slot).
Proof. unfold doLogin. mirrors. Qed.

Lemma mirrored_m_sock_enter (st : SocketState) :
  keeps mirrored (m_sock_enter Q_BYTE_ORDER loginRequest_slot st).
Proof.
  destruct st;
    try (apply mirrored_keeps_steady, steady_m_sock_enter; discriminate).
  unfold m_sock_enter, onSocketStateChanges. mirrors.
Qed.

Lemma mirrored_onReadyRead :
  keeps mirrored (onReadyRead Q_BYTE_ORDER MD5 loginRequest_slot).
Proof. unfold onReadyRead. mirrors. apply mirrored_doLogin. Qed.

Lemma mirrored_enter (e : Entry) :
  keeps mirrored (enter Q_BYTE_ORDER MD5 loginRequest_slot e).
Proof.
  destruct e as [sent addTag|force|st| |data]; cbn [enter].
  - mirrors.
  - apply mirrored_keeps_steady, steady_closeCom.
  - apply mirrored_m_sock_enter.
  - apply mirrored_keeps_steady, steady_m_sock_bytesWritten.
  - unfold deliver. mirrors. apply mirrored_onReadyRead.
Qed.

Lemma mirrored_handle (ev : Event) (p : Peer) :
  keeps mirrored (handle Q_BYTE_ORDER MD5 loginRequest_slot ev p).
Proof.
  destruct ev as [e|addr port|errorString]; cbn [handle].
  - apply mirrored_bind; [apply mirrored_enter | intros _; mirrors].
  - apply mirrored_bind; [|intros ?; mirrors].
    apply mirrored_keeps_steady, steady_connectTo.
  - apply mirrored_bind; [|intros ?; mirrors].
    apply mirrored_keeps_steady, steady_onError.
Qed.

(** X13: between its construction and any moment after, whatever has
    run the object, the [loginStateChanged] signals tell its login state:
    the last one emitted carries the state it is in, and it is in
    [NoLoged] while none has been emitted. *)
Theorem loginStateChanged_tells_login_state (evs : list Event) (p : Peer)
    (indeterminate : bool) :
  let c := session Q_BYTE_ORDER MD5 loginRequest_slot evs p
             (Comm_ctor indeterminate) in
  announced NoLoged (emitted c) = m_loginState c.
Proof.
  cbv zeta.
  assert (G : forall (c : Comm) (q : Peer),
             announced NoLoged (emitted c) = m_loginState c ->
             announced NoLoged
               (emitted (session Q_BYTE_ORDER MD5 loginRequest_slot evs q c))
             = m_loginState (session Q_BYTE_ORDER MD5 loginRequest_slot evs q c)).
  { induction evs as [|ev rest IH]; intros c q Hc; [exact Hc|].
    cbn [session]. apply IH.
    destruct (mirrored_handle ev q c) as (news & E & A).
    now rewrite E, announced_app, Hc. }
  apply G. reflexivity.
Qed.

(** The login state that [doLogin] leaves, by the state it finds. *)
Lemma doLogin_transition (c : Comm) :
  let after := m_loginState (final (doLogin Q_BYTE_ORDER MD5 loginRequest_slot c)) in
  match m_loginState c with
  | NoLoged => after = NoLoged
  | LoginRequested =>
      after = NoLoged \/ after = LoginRequested \/ after = UserPassSended
  | UserPassSended =>
      after = if resultType_is_Done (incomingSentence c) then LogedIn else NoLoged
  | LogedIn => after = LogedIn
  end.
Proof.
  cbv zeta. destruct c as [[st bytes tx_ btw] u pw w s sc l ws id em].
  unfold doLogin, bind, get.
  cbn [m_loginState incomingSentence m_Password m_Username]. destruct l.
  - reflexivity.
  - destruct (resultType_is_Done s); cbn [negb];
      [|left; destruct st; run; destruct (btw =? 0); reflexivity].
    destruct (attributes_count s =? 1); cbn [negb];
      [|left; destruct st; run; destruct (btw =? 0); reflexivity].
    destruct (count (attribute s (QS "ret")) =? 0);
      [left; destruct st; run; destruct (btw =? 0); reflexivity|].
    destruct (count (attribute s (QS "ret")) =? 32); cbn [negb];
      [|left; destruct st; run; destruct (btw =? 0); reflexivity].
    right.
    rewrite sendWord_frame. destruct (sendable _); [|left; reflexivity].
    cbv beta iota.
    rewrite sendWord_frame. destruct (sendable _); [|left; reflexivity].
    cbv beta iota.
    rewrite sendWord_frame. destruct (sendable _); [|left; reflexivity].
    cbv beta iota.
    rewrite sendWord_frame, sendable_nil. right. reflexivity.
  - destruct (resultType_is_Done s); [reflexivity|].
    destruct st; run; destruct (btw =? 0); reflexivity.
  - reflexivity.
Qed.

Lemma onReadyRead_transition (c : Comm) :
  let r := onReadyRead Q_BYTE_ORDER MD5 loginRequest_slot c in
  m_loginState (final r) = m_loginState c
  \/ exists c1,
       readSentence Q_BYTE_ORDER c = Ret tt c1
       /\ sentenceCompleted c1 = true
       /\ m_loginState c1 = m_loginState c
       /\ m_loginState c <> LogedIn
       /\ m_loginState (final r)
          = m_loginState (final (doLogin Q_BYTE_ORDER MD5 loginRequest_slot c1)).
Proof.
  cbv zeta. unfold onReadyRead, bind, get.
  pose proof (silent_readSentence Q_BYTE_ORDER c) as [Hl _].
  destruct (readSentence Q_BYTE_ORDER c) as [[] c1|what1 c1|c1] eqn:Er;
    cbn [final] in Hl |- *; [|left; exact Hl ..].
  destruct (sentenceCompleted c1) eqn:Ec; [|left; exact Hl].
  destruct (LoginState_eqb (m_loginState c1) LogedIn) eqn:Eb; cbn [negb].
  - left. exact Hl.
  - right. exists c1. repeat split; trivial.
    + intros Hin. rewrite Hl, Hin in Eb. discriminate.
    + now destruct (doLogin Q_BYTE_ORDER MD5 loginRequest_slot c1) as [[] c2|what2 c2|c2].
Qed.

Lemma connected_transition (c : Comm) :
  m_loginState
    (final (m_sock_enter Q_BYTE_ORDER loginRequest_slot ConnectedState c))
  = LoginRequested.
Proof.
  destruct c as [[st bytes tx_ btw] u pw w s sc l ws id em].
  unfold m_sock_enter, onSocketStateChanges.
  destruct l; run;
    match goal with
    | |- context [sendSentence ?bo ?sent ?a ?c0] =>
        pose proof (steady_sendSentence bo sent a c0) as [Hs _];
        destruct (sendSentence bo sent a c0)
    end; exact Hs.
Qed.

Lemma deliver_transition (data : list byte) (c : Comm) :
  let r := deliver Q_BYTE_ORDER MD5 loginRequest_slot data c in
  m_loginState (final r) = m_loginState c
  \/ exists c1,
       readSentence Q_BYTE_ORDER (arrive data c) = Ret tt c1
       /\ sentenceCompleted c1 = true
       /\ m_loginState c1 = m_loginState c
       /\ m_loginState c <> LogedIn
       /\ m_loginState (final r)
          = m_loginState (final (doLogin Q_BYTE_ORDER MD5 loginRequest_slot c1)).
Proof.
  cbv zeta. unfold deliver, bind, modify. fold (arrive data c).
  exact (onReadyRead_transition (arrive data c)).
Qed.

(** The login state after an event, by the event. *)
Lemma handle_transition (ev : Event) (p : Peer) (c : Comm) :
  let before := m_loginState c in
  let after := m_loginState (final (handle Q_BYTE_ORDER MD5 loginRequest_slot ev p c)) in
  match ev with
  | on_entry (socket_stateChanged ConnectedState) => after = LoginRequested
  | on_entry (socket_readyRead data) =>
      after = before
      \/ exists c1,
           readSentence Q_BYTE_ORDER (arrive data c) = Ret tt c1
           /\ sentenceCompleted c1 = true
           /\ ((before = LoginRequested
                /\ (after = NoLoged \/ after = UserPassSended))
               \/ (before = UserPassSended
                   /\ after = if resultType_is_Done (incomingSentence c1)
                              then LogedIn else NoLoged))
  | _ => after = before
  end.
Proof.
  cbv zeta.
  destruct ev as [e|addr port|errorString]; cbn [handle].
  - rewrite final_bind_ret.
    destruct e as [sent addTag|force|st| |data]; cbn [enter].
    + rewrite final_bind_ret. apply steady_sendSentence.
    + apply steady_closeCom.
    + destruct st; try (apply steady_m_sock_enter; discriminate).
      apply connected_transition.
    + apply steady_m_sock_bytesWritten.
    + destruct (deliver_transition data c) as [H | (c1 & Er & Ec & Hl & Hn & Ha)];
        [left; exact H|].
      pose proof (doLogin_transition c1) as T. cbv zeta in T.
      rewrite <- Ha, Hl in T.
      destruct (m_loginState c) eqn:El.
      * left. exact T.
      * destruct T as [T | [T | T]]; [right | left; exact T | right];
          exists c1; (split; [exact Er|]); (split; [exact Ec|]); left; auto.
      * right. exists c1. split; [exact Er|]. split; [exact Ec|]. right. auto.
      * congruence.
  - unfold bind.
    pose proof (steady_connectTo Q_BYTE_ORDER loginRequest_slot addr port p c) as [H _].
    now destruct (connectTo _ _ addr port p c).
  - rewrite final_bind_ret. apply steady_onError.
Qed.

(** X14: the transitions of the login state. The notification that the
    socket is connected puts it in [LoginRequested], whatever it was. The
    arrival of bytes leaves it as it was, or takes [LoginRequested] to
    [NoLoged] or [UserPassSended], or [UserPassSended] to [NoLoged] or
    [LogedIn]. Nothing else changes it: not [sendSentence], [closeCom] or
    [connectTo], not the other changes of state of the socket, not its
    errors. *)
Theorem login_state_transitions (ev : Event) (p : Peer) (c : Comm) :
  let before := m_loginState c in
  let after := m_loginState (final (handle Q_BYTE_ORDER MD5 loginRequest_slot ev p c)) in
  match ev with
  | on_entry (socket_stateChanged ConnectedState) => after = LoginRequested
  | on_entry (socket_readyRead _) =>
      after = before
      \/ (before = LoginRequested /\ (after = NoLoged \/ after = UserPassSended))
      \/ (before = UserPassSended /\ (after = NoLoged \/ after = LogedIn))
  | _ => after = before
  end.
Proof.
  pose proof (handle_transition ev p c) as T. cbv zeta in T |- *.
  destruct ev as [e|addr port|errorString]; try exact T.
  destruct e as [sent addTag|force|st| |data]; try exact T.
  destruct T as [T | (c1 & _ & _ & [[Hb Ha] | [Hb Ha]])].
  - left. exact T.
  - right. left. auto.
  - right. right. split; [exact Hb|].
    destruct (resultType_is_Done (incomingSentence c1)); auto.
Qed.

(** X15: the only way into [LogedIn]. An object that is not in [LogedIn]
    before an event and is in it after was in [UserPassSended], the event
    was the arrival of bytes, and the bytes completed a sentence with a
    successful result. *)
Theorem LogedIn_only_after_Done (ev : Event) (p : Peer) (c : Comm) :
  m_loginState c <> LogedIn ->
  m_loginState (final (handle Q_BYTE_ORDER MD5 loginRequest_slot ev p c)) = LogedIn ->
  m_loginState c = UserPassSended
  /\ exists data c1,
       ev = on_entry (socket_readyRead data)
       /\ readSentence Q_BYTE_ORDER (arrive data c) = Ret tt c1
       /\ sentenceCompleted c1 = true
       /\ resultType_is_Done (incomingSentence c1) = true.
Proof.
  intros Hn Ha.
  pose proof (handle_transition ev p c) as T. cbv zeta in T. rewrite Ha in T.
  destruct ev as [e|addr port|errorString]; try congruence.
  destruct e as [sent addTag|force|st| |data]; try congruence.
  - destruct st; congruence.
  - destruct T as [T | (c1 & Er & Ec & [[Hb [T | T]] | [Hb T]])]; try congruence.
    split; [exact Hb|]. exists data, c1. repeat split; trivial.
    destruct (resultType_is_Done (incomingSentence c1)); congruence.
Qed.

End LoginMachine.

Ltac news :=
  first [ exists []; split; [symmetry; apply app_nil_r | constructor]
        | eexists; split;
          [rewrite <- ?app_assoc; reflexivity
          |repeat apply Forall_cons; try apply Forall_nil; eauto] ].

(** ** Opening and closing the connection *)

Section ConnectionControl.

Context {sentenceAPI : SentenceAPI}.
Variable Q_BYTE_ORDER : ByteOrder.
Variable loginRequest_slot : QString * QString -> QString * QString.

(** X16: [closeCom] without force. On a connected socket it starts the
    disconnection: the socket is closing while it has bytes to write and
    unconnected otherwise, the bytes not yet read stay readable, and
    once the socket has written its bytes it is unconnected, the
    application having been told [Closing] and then [Unconnected]. On a
    socket that is not connected it does nothing. In no case does it
    touch the login state or what has been read. *)
Theorem closeCom_graceful (c : Comm) :
  let r := closeCom Q_BYTE_ORDER loginRequest_slot false c in
  let c' := final r in
  let c'' := final (m_sock_bytesWritten Q_BYTE_ORDER loginRequest_slot c') in
  r = Ret tt c'
  /\ (isConnected c = false -> c' = c)
  /\ (isConnected c = true ->
      state (m_sock c')
      = (if bytesToWrite (m_sock c) =? 0 then UnconnectedState else ClosingState)
      /\ emitted c'
         = emitted c ++ comStateChanged Closing
             :: (if bytesToWrite (m_sock c) =? 0
                 then [comStateChanged Unconnected] else [])
      /\ rx (m_sock c') = rx (m_sock c)
      /\ bytesToWrite (m_sock c') = bytesToWrite (m_sock c)
      /\ state (m_sock c'') = UnconnectedState
      /\ emitted c''
         = emitted c ++ [comStateChanged Closing; comStateChanged Unconnected])
  /\ connection_only c c'.
Proof.
  destruct c as [[st bytes tx_ btw] u pw w s sc l ws id em].
  unfold closeCom, connection_only.
  destruct st; run; try destruct (btw =? 0) eqn:Eb; run; rewrite ?Eb;
    (repeat split; try reflexivity; try discriminate; intros;
     rewrite <- ?app_assoc; try reflexivity; try news).
Qed.

(** X17: [connectTo] starts a connection only on an unconnected socket.
    There it remembers the peer, puts the socket in the host lookup,
    which the application is told, and returns true; a second call
    before the socket is unconnected again is refused and keeps the peer
    of the first. On any other socket it returns false, reports one
    error and changes nothing else. *)
Theorem connectTo_only_when_unconnected (addr addr2 : QString) (port port2 : Z)
    (p : Peer) (c : Comm) :
  let refused :=
    comError (QS "Trying to connect a allready opened socket") in
  let r := connectTo Q_BYTE_ORDER loginRequest_slot addr port p c in
  (state (m_sock c) <> UnconnectedState ->
   r = Ret (false, p) (set_emitted (emitted c ++ [refused]) c))
  /\ (state (m_sock c) = UnconnectedState ->
      r = Ret (true, mkPeer addr port) (final r)
      /\ state (m_sock (final r)) = HostLookupState
      /\ emitted (final r) = emitted c ++ [comStateChanged HostLookup]
      /\ connectTo Q_BYTE_ORDER loginRequest_slot addr2 port2
                   (mkPeer addr port) (final r)
         = Ret (false, mkPeer addr port)
               (set_emitted (emitted (final r) ++ [refused]) (final r)))
  /\ connection_only c (final r).
Proof.
  destruct c as [[st bytes tx_ btw] u pw w s sc l ws id em].
  unfold connectTo, m_sock_connectToHost, connection_only.
  destruct st; run;
    (repeat split; try reflexivity; try congruence; intros; try news).
Qed.

(** X18: neither [onError] nor the destructor writes to the socket or
    touches the login state, the credentials, the tag counter or what
    has been read, and they emit nothing but changes of the connection
    state and errors. [onError] tells [Unconnected] first unless the
    socket is connected, and the error text last. *)
Theorem onError_and_destructor (errorString : QString) (c : Comm) :
  connection_only c (final (onError errorString c))
  /\ connection_only c (final (Comm_dtor Q_BYTE_ORDER loginRequest_slot c))
  /\ onError errorString c
     = Ret tt (set_emitted
                 (emitted c
                  ++ (if isConnected c then [] else [comStateChanged Unconnected])
                  ++ [comError errorString]) c).
Proof.
  destruct c as [[st bytes tx_ btw] u pw w s sc l ws id em].
  unfold onError, Comm_dtor, connection_only.
  destruct st; run; try destruct (btw =? 0) eqn:Eb; run; rewrite <- ?app_assoc;
    (repeat split; try reflexivity; try news).
Qed.

(** X19: the start of the login. When the socket becomes connected the
    object tells so, resets the login state, asks the application for
    the credentials and stores what it answers, is in [LoginRequested],
    and sends the sentence [/login] without a tag word, the tag counter
    staying as it was. The sentence being read is cleared, but the word
    being read and its size are left from before the connection. *)
Theorem connected_starts_login (c : Comm) :
  let sent := QSentence_ctor (QS "/login") in
  forallb sendable (head_words sent) = true ->
  let r := m_sock_enter Q_BYTE_ORDER loginRequest_slot ConnectedState c in
  let c' := final r in
  r = Ret tt c'
  /\ emitted c'
     = emitted c ++ comStateChanged Connected
         :: (if LoginState_eqb NoLoged (m_loginState c) then []
             else [loginStateChanged NoLoged])
         ++ [loginRequest; loginStateChanged LoginRequested]
  /\ (m_Username c', m_Password c')
     = loginRequest_slot (m_Username c, m_Password c)
  /\ m_loginState c' = LoginRequested
  /\ tx (m_sock c')
     = tx (m_sock c) ++ frames Q_BYTE_ORDER (head_words sent) ++ [x00]
  /\ ID c' = ID c
  /\ incomingSentence c' = clear (incomingSentence c)
  /\ incomingWord c' = incomingWord c
  /\ incomingWordSize c' = incomingWordSize c
  /\ state (m_sock c') = ConnectedState.
Proof.
  intros sent Hs.
  destruct c as [[st bytes tx_ btw] u pw w s sc l ws id em].
  unfold m_sock_enter, onSocketStateChanges.
  destruct l; run; fold sent;
    rewrite (sendSentence_untagged Q_BYTE_ORDER sent _ Hs), frame_nil; run;
    rewrite <- ?app_assoc; cbn [app];
    destruct (loginRequest_slot (u, pw)); repeat split.
Qed.

End ConnectionControl.

(** ** A sentence in two deliveries *)

Section Resumption.

Context {sentenceAPI : SentenceAPI}.
Variable Q_BYTE_ORDER : ByteOrder.

Lemma readSentence_loop_mono (fuel : nat) :
  forall (c : Comm) r,
    readSentence_loop Q_BYTE_ORDER fuel c = Some r ->
    forall fuel', (fuel <= fuel')%nat ->
      readSentence_loop Q_BYTE_ORDER fuel' c = Some r.
Proof.
  induction fuel as [|fuel IH]; intros c r E fuel' Hle; [discriminate|].
  destruct fuel' as [|fuel']; [lia|].
  cbn [readSentence_loop] in E |- *.
  destruct (readWord Q_BYTE_ORDER c) as [n c1|what c1|c1]; [|exact E ..].
  destruct (n >=? 0); [|exact E].
  destruct (isEmpty (incomingWord c1)); [exact E|].
  apply (IH _ _ E). lia.
Qed.

(** The loop with any fuel that suffices gives what [readSentence] gives. *)
Lemma readSentence_by_loop (fuel : nat) (c : Comm) r :
  readSentence_loop Q_BYTE_ORDER fuel c = Some r ->
  readSentence Q_BYTE_ORDER c = r.
Proof.
  intros E. destruct (readSentence_total Q_BYTE_ORDER c) as (r0 & E0 & ->).
  pose proof (readSentence_loop_mono _ _ _ E
                (fuel + S (length (rx (m_sock c)))) ltac:(lia)) as E1.
  pose proof (readSentence_loop_mono _ _ _ E0
                (fuel + S (length (rx (m_sock c)))) ltac:(lia)) as E2.
  congruence.
Qed.

Lemma readSentence_loop_S (fuel : nat) (c : Comm) :
  readSentence_loop Q_BYTE_ORDER (S fuel) c
  = match readWord Q_BYTE_ORDER c with
    | Throw what c' => Some (Throw what c')
    | Aborted c' => Some (Aborted c')
    | Ret r c' =>
        if r >=? 0 then
          if isEmpty (incomingWord c') then
            Some (Ret tt (set_sentenceCompleted true c'))
          else
            readSentence_loop Q_BYTE_ORDER fuel
              (set_incomingWordSize (-1)
                 (set_incomingWord []
                    (set_incomingSentence
                       (addWord (incomingSentence c') (incomingWord c')) c')))
        else
          Some (Ret tt (set_sentenceCompleted false c'))
    end.
Proof. reflexivity. Qed.

Lemma wire_short (w : QByteArray) :
  count w < 0x80 -> wire w = to_char (count w) :: w.
Proof.
  intros H. unfold wire, spec_encode.
  assert ((count w <? 0x80) = true) as -> by lia. reflexivity.
Qed.

(** The loop reads the words that are there whole and goes on with what
    follows them. *)
Lemma readSentence_loop_past_words (words : list QByteArray) :
  forall (c : Comm) (fuel : nat) (tail : list byte),
    incomingWordSize c <= 0 ->
    incomingWord c = [] ->
    Forall (fun w => 0 < count w < 0x80) words ->
    rx (m_sock c) = flat_map wire words ++ tail ->
    exists z,
      z <= 0
      /\ readSentence_loop Q_BYTE_ORDER (length words + fuel) c
         = readSentence_loop Q_BYTE_ORDER fuel
             (set_incomingWordSize z
                (set_incomingSentence (assembled (incomingSentence c) words)
                   (with_rx tail c))).
Proof.
  induction words as [|w ws IH]; intros c fuel tail Hs Hw Hall Hrx.
  - exists (incomingWordSize c). split; [exact Hs|]. cbn [length Nat.add].
    f_equal. destruct c as [[st bytes tx_ btw] u pw w' s sc l ws' id em].
    cbn in Hrx. subst bytes. reflexivity.
  - inversion Hall as [|? ? Hw1 Hall']; subst.
    cbn [flat_map] in Hrx. rewrite <- app_assoc in Hrx.
    cbn [length Nat.add readSentence_loop].
    rewrite (readWord_wire Q_BYTE_ORDER c w _ Hs Hw1 Hrx). rewrite Hw. cbn [app].
    assert ((1 >=? 0) = true) as -> by reflexivity.
    assert (Hne : isEmpty (incomingWord
              (set_incomingWord w (set_incomingWordSize 0
                 (with_rx (flat_map wire ws ++ tail) c)))) = false).
    { destruct w; [cbn in Hw1; lia | reflexivity]. }
    rewrite Hne.
    match goal with
    | |- context [readSentence_loop _ (length ws + fuel) ?c'] =>
        destruct (IH c' fuel tail) as (z & Hz & E)
    end.
    + cbn. lia.
    + reflexivity.
    + exact Hall'.
    + destruct c as [[st bytes tx_ btw] u pw w' s sc l ws' id em]. reflexivity.
    + exists z. split; [exact Hz|]. rewrite E. f_equal.
      destruct c as [[st bytes tx_ btw] u pw w' s sc l ws' id em].
      cbn in Hw. subst w'. reflexivity.
Qed.

(** Nothing more to read: the loop ends, the sentence is not complete. *)
Lemma readSentence_loop_starved (c : Comm) (fuel : nat) :
  incomingWordSize c <= 0 ->
  rx (m_sock c) = [] ->
  readSentence_loop Q_BYTE_ORDER (S fuel) c
  = Some (Ret tt (set_sentenceCompleted false (set_incomingWordSize (-1) c))).
Proof.
  intros Hs Hrx. cbn [readSentence_loop]. rewrite readWord_cases.
  assert ((incomingWordSize c <=? 0) = true) as -> by lia.
  rewrite Hrx. cbv zeta. cbn [long_prefix read_prefix fst snd].
  destruct c as [[st bytes tx_ btw] u pw w' s sc l ws' id em].
  cbn in Hrx. subst bytes. reflexivity.
Qed.

(** The length byte of a word and a part of its body: the loop ends
    with the part buffered and the size of what is missing. *)
Lemma readSentence_loop_mid_word (c : Comm) (fuel : nat) (n : Z) (body : list byte) :
  incomingWordSize c <= 0 ->
  incomingWord c = [] ->
  0 < n < 0x80 ->
  count body < n ->
  rx (m_sock c) = to_char n :: body ->
  readSentence_loop Q_BYTE_ORDER (S fuel) c
  = Some (Ret tt
      (set_sentenceCompleted false
         (set_incomingWord body
            (set_incomingWordSize (n - count body) (with_rx [] c))))).
Proof.
  intros Hs Hw Hn Hb Hrx. cbn [readSentence_loop]. rewrite readWord_cases.
  assert ((incomingWordSize c <=? 0) = true) as -> by lia.
  rewrite Hrx, long_prefix_one, read_prefix_one
    by (rewrite octet_to_char, Z.mod_small; lia).
  cbv zeta.
  rewrite octet_to_char, Z.mod_small by lia. cbn [fst snd].
  assert ((n =? -1) = false) as -> by lia.
  assert ((n <? 0) = false) as -> by lia.
  assert ((n =? 0) = false) as -> by lia.
  unfold read_body.
  destruct c as [[st bytes tx_ btw] u pw w' s sc l ws' id em].
  cbn [with_rx set_incomingWordSize set_incomingWord set_m_sock m_sock rx state tx
       bytesToWrite incomingWordSize incomingWord m_Username m_Password
       incomingSentence sentenceCompleted m_loginState ID emitted] in *.
  subst w'. unfold count in *.
  assert (Hle : (length body <= Z.to_nat n)%nat) by lia.
  rewrite firstn_all2, skipn_all2 by exact Hle.
  destruct body as [|b0 body'].
  - cbn [length]. change (Z.of_nat 0) with 0. rewrite Z.sub_0_r.
    cbn [Z.eqb].
    cbn [with_rx set_incomingWordSize set_incomingWord set_m_sock m_sock rx state tx
         bytesToWrite incomingWordSize incomingWord m_Username m_Password
         incomingSentence sentenceCompleted m_loginState ID emitted].
    assert ((n =? 0) = false) as -> by lia. reflexivity.
  - assert ((Z.of_nat (length (b0 :: body')) =? 0) = false) as ->
      by (apply Z.eqb_neq; cbn [length]; lia).
    cbn [with_rx set_incomingWordSize set_incomingWord set_m_sock m_sock rx state tx
         bytesToWrite incomingWordSize incomingWord m_Username m_Password
         incomingSentence sentenceCompleted m_loginState ID emitted app].
    assert ((n - Z.of_nat (length (b0 :: body')) =? 0) = false) as -> by lia.
    reflexivity.
Qed.

(** The rest of a word whose size is known. *)
Lemma readWord_rest_of_word (c : Comm) (rem tail : list byte) :
  0 < incomingWordSize c ->
  count rem = incomingWordSize c ->
  rx (m_sock c) = rem ++ tail ->
  readWord Q_BYTE_ORDER c
  = Ret 1 (set_incomingWord (incomingWord c ++ rem)
             (set_incomingWordSize 0 (with_rx tail c))).
Proof.
  intros Hs Hc Hrx. rewrite readWord_cases.
  assert ((incomingWordSize c <=? 0) = false) as -> by lia.
  unfold read_body.
  destruct c as [[st bytes tx_ btw] u pw w' s sc l ws' id em].
  cbn [with_rx set_incomingWordSize set_incomingWord set_m_sock m_sock rx state tx
       bytesToWrite incomingWordSize incomingWord m_Username m_Password
       incomingSentence sentenceCompleted m_loginState ID emitted] in *.
  subst bytes. unfold count in *. rewrite <- Hc, Nat2Z.id.
  rewrite firstn_app, firstn_all, Nat.sub_diag, firstn_O, app_nil_r.
  rewrite skipn_app, skipn_all, Nat.sub_diag, skipn_O, app_nil_l.
  assert ((Z.of_nat (length rem) =? 0) = false) as -> by lia.
  cbn [with_rx set_incomingWordSize set_incomingWord set_m_sock m_sock rx state tx
       bytesToWrite incomingWordSize incomingWord m_Username m_Password
       incomingSentence sentenceCompleted m_loginState ID emitted].
  rewrite Z.sub_diag. reflexivity.
Qed.

Lemma assembled_app (s : QSentence) (a b : list QByteArray) :
  assembled s (a ++ b) = assembled (assembled s a) b.
Proof. apply fold_left_app. Qed.

(** The first delivery ends between two words. *)
Lemma readSentence_up_to_word (c : Comm) (words : list QByteArray) :
  incomingWordSize c <= 0 ->
  incomingWord c = [] ->
  rx (m_sock c) = [] ->
  Forall (fun w => 0 < count w < 0x80) words ->
  readSentence Q_BYTE_ORDER (arrive (flat_map wire words) c)
  = Ret tt (set_sentenceCompleted false
              (set_incomingWordSize (-1)
                 (set_incomingSentence (assembled (incomingSentence c) words) c))).
Proof.
  intros Hs Hw Hrx Hall. apply (readSentence_by_loop (length words + 1)).
  destruct (readSentence_loop_past_words words (arrive (flat_map wire words) c)
              1 []) as (z & Hz & E).
  - exact Hs.
  - exact Hw.
  - exact Hall.
  - cbn [arrive set_m_sock m_sock rx]. rewrite Hrx, app_nil_r. reflexivity.
  - rewrite E, readSentence_loop_starved.
    + destruct c as [[st bytes tx_ btw] u pw w' s sc l ws' id em].
      cbn in Hrx. subst bytes. reflexivity.
    + exact Hz.
    + reflexivity.
Qed.

(** The first delivery ends inside a word, after its length byte. *)
Lemma readSentence_into_word (c : Comm) (words : list QByteArray)
    (w : QByteArray) (j : nat) :
  incomingWordSize c <= 0 ->
  incomingWord c = [] ->
  rx (m_sock c) = [] ->
  Forall (fun w => 0 < count w < 0x80) words ->
  0 < count w < 0x80 ->
  (j < length w)%nat ->
  readSentence Q_BYTE_ORDER
    (arrive (flat_map wire words ++ to_char (count w) :: firstn j w) c)
  = Ret tt (set_sentenceCompleted false
              (set_incomingWord (firstn j w)
                 (set_incomingWordSize (count w - Z.of_nat j)
                    (set_incomingSentence (assembled (incomingSentence c) words) c)))).
Proof.
  intros Hs Hw Hrx Hall Hw1 Hj. apply (readSentence_by_loop (length words + 1)).
  destruct (readSentence_loop_past_words words
              (arrive (flat_map wire words ++ to_char (count w) :: firstn j w) c)
              1 (to_char (count w) :: firstn j w)) as (z & Hz & E).
  - exact Hs.
  - exact Hw.
  - exact Hall.
  - cbn [arrive set_m_sock m_sock rx]. rewrite Hrx. reflexivity.
  - assert (Hc : count (firstn j w) = Z.of_nat j).
    { unfold count. rewrite length_firstn. lia. }
    rewrite E, (readSentence_loop_mid_word _ _ (count w) (firstn j w)).
    + rewrite Hc. destruct c as [[st bytes tx_ btw] u pw w' s sc l ws' id em].
      cbn in Hrx. subst bytes. reflexivity.
    + exact Hz.
    + exact Hw.
    + exact Hw1.
    + rewrite Hc. unfold count. lia.
    + reflexivity.
Qed.

(** The second delivery, from inside a word to the end of the sentence. *)
Lemma readSentence_from_word (c : Comm) (rem : list byte)
    (words : list QByteArray) (rest : list byte) :
  0 < incomingWordSize c ->
  count rem = incomingWordSize c ->
  rx (m_sock c) = [] ->
  Forall (fun w => 0 < count w < 0x80) words ->
  readSentence Q_BYTE_ORDER (arrive (rem ++ flat_map wire words ++ x00 :: rest) c)
  = Ret tt
      (set_sentenceCompleted true
         (set_incomingWord []
            (set_incomingWordSize 0
               (set_incomingSentence
                  (assembled (addWord (incomingSentence c) (incomingWord c ++ rem))
                             words)
                  (with_rx rest c))))).
Proof.
  intros Hs Hc Hrx Hall. apply (readSentence_by_loop (S (S (length words)))).
  rewrite readSentence_loop_S.
  rewrite (readWord_rest_of_word _ rem (flat_map wire words ++ x00 :: rest));
    [|exact Hs|exact Hc|cbn [arrive set_m_sock m_sock rx]; now rewrite Hrx].
  assert ((1 >=? 0) = true) as -> by reflexivity.
  assert (Hne : rem <> []).
  { intros ->. unfold count in Hc. cbn in Hc. lia. }
  match goal with
  | |- context [isEmpty (incomingWord ?c1)] =>
      assert (Hi : isEmpty (incomingWord c1) = false)
  end.
  { destruct c as [[st bytes tx_ btw] u pw w' s sc l ws' id em].
    cbn. destruct w', rem; try reflexivity. congruence. }
  rewrite Hi.
  rewrite (readSentence_loop_words Q_BYTE_ORDER words _ _ rest).
  - destruct c as [[st bytes tx_ btw] u pw w' s sc l ws' id em]. reflexivity.
  - lia.
  - cbn. lia.
  - reflexivity.
  - exact Hall.
  - destruct c as [[st bytes tx_ btw] u pw w' s sc l ws' id em]. reflexivity.
Qed.

Lemma readSentence_split_between (c : Comm) (ws1 ws2 : list QByteArray)
    (rest : list byte) :
  incomingWordSize c <= 0 ->
  incomingWord c = [] ->
  rx (m_sock c) = [] ->
  Forall (fun w => 0 < count w < 0x80) ws1 ->
  Forall (fun w => 0 < count w < 0x80) ws2 ->
  let a := flat_map wire ws1 in
  let b := flat_map wire ws2 ++ x00 :: rest in
  let r1 := readSentence Q_BYTE_ORDER (arrive a c) in
  let r2 := readSentence Q_BYTE_ORDER (arrive b (final r1)) in
  r1 = Ret tt (final r1)
  /\ sentenceCompleted (final r1) = false
  /\ r2 = readSentence Q_BYTE_ORDER (arrive (a ++ b) c)
  /\ r2 = Ret tt
            (set_sentenceCompleted true
               (set_incomingWord []
                  (set_incomingWordSize 0
                     (set_incomingSentence
                        (assembled (incomingSentence c) (ws1 ++ ws2))
                        (with_rx rest c))))).
Proof.
  intros Hs Hw Hrx H1 H2. cbv zeta.
  rewrite (readSentence_up_to_word c ws1 Hs Hw Hrx H1). cbn [final].
  rewrite (readSentence_whole Q_BYTE_ORDER _ ws2 rest);
    [|cbn; lia|exact Hw|exact H2
     |cbn [arrive set_m_sock m_sock rx set_sentenceCompleted set_incomingWordSize
           set_incomingSentence]; now rewrite Hrx].
  rewrite (readSentence_whole Q_BYTE_ORDER _ (ws1 ++ ws2) rest);
    [|exact Hs|exact Hw|apply Forall_app; now split
     |cbn [arrive set_m_sock m_sock rx]; now rewrite Hrx, flat_map_app, <- app_assoc].
  rewrite !assembled_app.
  destruct c as [[st bytes tx_ btw] u pw w' s sc l ws' id em].
  cbn in Hw, Hrx. subst w' bytes. repeat split.
Qed.

Lemma readSentence_split_within (c : Comm) (ws1 ws2 : list QByteArray)
    (w : QByteArray) (j : nat) (rest : list byte) :
  incomingWordSize c <= 0 ->
  incomingWord c = [] ->
  rx (m_sock c) = [] ->
  Forall (fun w => 0 < count w < 0x80) ws1 ->
  0 < count w < 0x80 ->
  Forall (fun w => 0 < count w < 0x80) ws2 ->
  (j < length w)%nat ->
  let a := flat_map wire ws1 ++ to_char (count w) :: firstn j w in
  let b := skipn j w ++ flat_map wire ws2 ++ x00 :: rest in
  let r1 := readSentence Q_BYTE_ORDER (arrive a c) in
  let r2 := readSentence Q_BYTE_ORDER (arrive b (final r1)) in
  r1 = Ret tt (final r1)
  /\ sentenceCompleted (final r1) = false
  /\ r2 = readSentence Q_BYTE_ORDER (arrive (a ++ b) c)
  /\ r2 = Ret tt
            (set_sentenceCompleted true
               (set_incomingWord []
                  (set_incomingWordSize 0
                     (set_incomingSentence
                        (assembled (incomingSentence c) (ws1 ++ w :: ws2))
                        (with_rx rest c))))).
Proof.
  intros Hs Hw Hrx H1 Hw1 H2 Hj. cbv zeta.
  rewrite (readSentence_into_word c ws1 w j Hs Hw Hrx H1 Hw1 Hj). cbn [final].
  rewrite (readSentence_from_word _ (skipn j w) ws2 rest);
    [|cbn; unfold count; lia
     |cbn; unfold count; rewrite length_skipn; lia
     |exact Hrx|exact H2].
  assert (Hab : (flat_map wire ws1 ++ to_char (count w) :: firstn j w)
                ++ skipn j w ++ flat_map wire ws2 ++ x00 :: rest
                = flat_map wire (ws1 ++ w :: ws2) ++ x00 :: rest).
  { rewrite flat_map_app. cbn [flat_map]. rewrite (wire_short w) by lia.
    rewrite <- !app_assoc. cbn [app].
    apply (f_equal (app _)), (f_equal (cons _)).
    rewrite app_assoc, firstn_skipn. now rewrite <- ?app_assoc. }
  rewrite Hab.
  rewrite (readSentence_whole Q_BYTE_ORDER _ (ws1 ++ w :: ws2) rest);
    [|exact Hs|exact Hw
     |apply Forall_app; split; [exact H1 | now constructor]
     |cbn [arrive set_m_sock m_sock rx]; now rewrite Hrx].
  rewrite !assembled_app.
  destruct c as [[st bytes tx_ btw] u pw w' s sc l ws' id em].
  cbn in Hw, Hrx. subst w' bytes.
  cbn [incomingWord set_sentenceCompleted set_incomingWord set_incomingWordSize
       set_incomingSentence app].
  rewrite firstn_skipn. repeat split.
Qed.

(** X20: a sentence that arrives in two deliveries is read as if it had
    arrived in one. For words of fewer than 0x80 bytes and a cut
    anywhere before, inside or after the frame of a word of the
    sentence, [readSentence] on the first part returns with the sentence
    not completed, and [readSentence] on the second part gives the
    result, and leaves the object, that one call gives on the two parts
    together: the words assembled in order and the bytes after the
    sentence left unread. *)
Theorem readSentence_resumes (c : Comm) (ws1 ws2 : list QByteArray)
    (w : QByteArray) (k : nat) (rest : list byte) :
  incomingWordSize c <= 0 ->
  incomingWord c = [] ->
  rx (m_sock c) = [] ->
  Forall (fun w => 0 < count w < 0x80) (ws1 ++ w :: ws2) ->
  (k <= length (wire w))%nat ->
  let a := flat_map wire ws1 ++ firstn k (wire w) in
  let b := skipn k (wire w) ++ flat_map wire ws2 ++ x00 :: rest in
  let r1 := readSentence Q_BYTE_ORDER (arrive a c) in
  let r2 := readSentence Q_BYTE_ORDER (arrive b (final r1)) in
  r1 = Ret tt (final r1)
  /\ sentenceCompleted (final r1) = false
  /\ r2 = readSentence Q_BYTE_ORDER (arrive (a ++ b) c)
  /\ r2 = Ret tt
            (set_sentenceCompleted true
               (set_incomingWord []
                  (set_incomingWordSize 0
                     (set_incomingSentence
                        (assembled (incomingSentence c) (ws1 ++ w :: ws2))
                        (with_rx rest c))))).
Proof.
  intros Hs Hw Hrx Hall Hk.
  apply Forall_app in Hall as [H1 Hall]. inversion Hall as [|? ? Hw1 H2]; subst.
  destruct k as [|j].
  - cbn [firstn skipn]. rewrite app_nil_r.
    pose proof (readSentence_split_between c ws1 (w :: ws2) rest Hs Hw Hrx H1 Hall) as G.
    cbn [flat_map] in G. rewrite <- !app_assoc in G. exact G.
  - rewrite (wire_short w) in * by lia. cbn [firstn skipn length] in *.
    destruct (Nat.eq_dec j (length w)) as [-> | Hne].
    + rewrite firstn_all, skipn_all. cbn [app].
      pose proof (readSentence_split_between c (ws1 ++ [w]) ws2 rest Hs Hw Hrx) as G.
      rewrite flat_map_app in G. cbn [flat_map] in G.
      rewrite (wire_short w), app_nil_r, <- !app_assoc in G by lia.
      cbn [app] in G. rewrite <- app_assoc. cbn [app]. apply G; [|exact H2].
      apply Forall_app. split; [exact H1 | now constructor].
    + apply (readSentence_split_within c ws1 ws2 w j rest); trivial. lia.
Qed.

End Resumption.

(** ** Sentences that arrive before the login *)

Section BeforeLogin.

Context {sentenceAPI : SentenceAPI}.
Variable Q_BYTE_ORDER : ByteOrder.
Variable MD5 : list byte -> list byte.
Variable loginRequest_slot : QString * QString -> QString * QString.

(** In [NoLoged] a sentence of short words that is there whole is read
    and kept. *)
Lemma onReadyRead_NoLoged (c : Comm) (words : list QByteArray) (rest : list byte) :
  m_loginState c = NoLoged ->
  incomingWordSize c <= 0 ->
  incomingWord c = [] ->
  Forall (fun w => 0 < count w < 0x80) words ->
  rx (m_sock c) = flat_map wire words ++ x00 :: rest ->
  onReadyRead Q_BYTE_ORDER MD5 loginRequest_slot c
  = Ret tt
      (set_sentenceCompleted false
         (set_incomingWord []
            (set_incomingWordSize 0
               (set_incomingSentence (assembled (incomingSentence c) words)
                  (with_rx rest c))))).
Proof.
  intros Hl Hs Hw Hall Hrx. unfold onReadyRead, bind.
  rewrite (readSentence_whole Q_BYTE_ORDER c words rest Hs Hw Hall Hrx).
  destruct c as [[st bytes tx_ btw] u pw w' s0 sc l ws' id em].
  cbn in Hl. subst l. reflexivity.
Qed.

(** X21: in [NoLoged] a completed sentence is neither handed to the
    application nor answered nor cleared. For sentences of short words,
    of 1 to 0x7F bytes each, that are there whole: [onReadyRead] emits
    nothing and writes nothing, and the words of the sentence that comes
    next are added to the words of the one before. *)
Theorem NoLoged_keeps_the_sentence (c : Comm) (first second : list QByteArray)
    (rest : list byte) :
  m_loginState c = NoLoged ->
  incomingWordSize c <= 0 ->
  incomingWord c = [] ->
  Forall (fun w => 0 < count w < 0x80) first ->
  Forall (fun w => 0 < count w < 0x80) second ->
  rx (m_sock c)
  = (flat_map wire first ++ [x00]) ++ (flat_map wire second ++ [x00]) ++ rest ->
  let r1 := onReadyRead Q_BYTE_ORDER MD5 loginRequest_slot c in
  let r2 := onReadyRead Q_BYTE_ORDER MD5 loginRequest_slot (final r1) in
  r1 = Ret tt (final r1)
  /\ emitted (final r1) = emitted c
  /\ tx (m_sock (final r1)) = tx (m_sock c)
  /\ incomingSentence (final r1) = assembled (incomingSentence c) first
  /\ r2 = Ret tt (final r2)
  /\ emitted (final r2) = emitted c
  /\ tx (m_sock (final r2)) = tx (m_sock c)
  /\ incomingSentence (final r2) = assembled (incomingSentence c) (first ++ second)
  /\ m_loginState (final r2) = NoLoged.
Proof.
  intros Hl Hs Hw H1 H2 Hrx. cbv zeta.
  rewrite <- !app_assoc in Hrx. cbn [app] in Hrx.
  rewrite (onReadyRead_NoLoged c first _ Hl Hs Hw H1 Hrx). cbn [final].
  rewrite (onReadyRead_NoLoged _ second rest).
  - unfold assembled. rewrite fold_left_app.
    destruct c as [[st bytes tx_ btw] u pw w' s0 sc l ws' id em].
    cbn in Hl. subst l. repeat split.
  - destruct c as [[st bytes tx_ btw] u pw w' s0 sc l ws' id em]. exact Hl.
  - destruct c as [[st bytes tx_ btw] u pw w' s0 sc l ws' id em]. cbn. lia.
  - destruct c as [[st bytes tx_ btw] u pw w' s0 sc l ws' id em]. reflexivity.
  - exact H2.
  - destruct c as [[st bytes tx_ btw] u pw w' s0 sc l ws' id em]. reflexivity.
Qed.

End BeforeLogin.

(** ** What a read leaves alone *)

Section ReaderFrame.

Context {sentenceAPI : SentenceAPI}.
Variable Q_BYTE_ORDER : ByteOrder.

Lemma reads_only_intro (c : Comm) (taken bytes : list byte) (size : Z)
    (word : QByteArray) (sent : QSentence) (done : bool) :
  rx (m_sock c) = taken ++ bytes ->
  reads_only c (set_sentenceCompleted done
                  (set_incomingSentence sent
                     (set_incomingWord word
                        (set_incomingWordSize size (with_rx bytes c))))).
Proof.
  intros H. exists taken, size, word, sent, done. split; [exact H|reflexivity].
Qed.

Lemma reads_only_refl (c : Comm) : reads_only c c.
Proof.
  exists [], (incomingWordSize c), (incomingWord c), (incomingSentence c),
         (sentenceCompleted c).
  split; [reflexivity|].
  now destruct c as [[st bytes tx_ btw] u pw w s sc l ws id em].
Qed.

Lemma reads_only_trans (a b c : Comm) :
  reads_only a b -> reads_only b c -> reads_only a c.
Proof.
  intros (t1 & z1 & w1 & s1 & d1 & E1 & F1) (t2 & z2 & w2 & s2 & d2 & E2 & F2).
  exists (t1 ++ t2), z2, w2, s2, d2. split.
  - now rewrite E1, E2, app_assoc.
  - rewrite F2 at 1. rewrite F1.
    now destruct a as [[st bytes tx_ btw] u pw w s sc l ws id em].
Qed.

Lemma read_prefix_suffix (bytes : list byte) :
  exists taken, bytes = taken ++ snd (read_prefix bytes).
Proof.
  destruct bytes as [|b r]; [now exists []|].
  unfold read_prefix.
  destruct (0xE0 <=? octet b).
  { destruct r as [|b2 [|b1 [|b0 r']]]; cbn [snd].
    - now exists [b].
    - exists [b; b2]. reflexivity.
    - exists [b; b2; b1]. reflexivity.
    - exists [b; b2; b1; b0]. reflexivity. }
  destruct (0xC0 <=? octet b).
  { destruct r as [|b1 [|b0 r']]; cbn [snd].
    - now exists [b].
    - exists [b; b1]. reflexivity.
    - exists [b; b1; b0]. reflexivity. }
  destruct (0x80 <=? octet b).
  { destruct r as [|b0 r']; cbn [snd].
    - now exists [b].
    - exists [b; b0]. reflexivity. }
  exists [b]. reflexivity.
Qed.

Lemma reads_only_read_body (c : Comm) : reads_only c (final (read_body c)).
Proof.
  unfold read_body. cbv zeta. cbn [final].
  set (n := Z.to_nat (incomingWordSize c)).
  assert (Hrx : rx (m_sock c) = firstn n (rx (m_sock c)) ++ skipn n (rx (m_sock c)))
    by (symmetry; apply firstn_skipn).
  destruct (count _ =? 0).
  - exists (firstn n (rx (m_sock c))), (incomingWordSize c), (incomingWord c),
           (incomingSentence c), (sentenceCompleted c).
    split; [exact Hrx|]. clear Hrx. subst n.
    now destruct c as [[st bytes tx_ btw] u pw w s sc l ws id em].
  - exists (firstn n (rx (m_sock c))),
           (incomingWordSize c - count (firstn n (rx (m_sock c)))),
           (incomingWord c ++ firstn n (rx (m_sock c))), (incomingSentence c),
           (sentenceCompleted c).
    split; [exact Hrx|]. clear Hrx. subst n.
    destruct c as [[st bytes tx_ btw] u pw w s sc l ws id em]. reflexivity.
Qed.

Lemma reads_only_readWord (c : Comm) :
  reads_only c (final (readWord Q_BYTE_ORDER c)).
Proof.
  rewrite readWord_cases.
  destruct (incomingWordSize c <=? 0); [|apply reads_only_read_body].
  cbv zeta. destruct (read_prefix_suffix (rx (m_sock c))) as [taken Ht].
  set (n := fst (read_prefix (rx (m_sock c)))) in *.
  set (bytes := snd (read_prefix (rx (m_sock c)))) in *.
  assert (H1 : reads_only c (set_incomingWordSize n (with_rx bytes c))).
  { exists taken, n, (incomingWord c), (incomingSentence c), (sentenceCompleted c).
    split; [exact Ht|].
    now destruct c as [[st bs tx_ btw] u pw w s sc l ws id em]. }
  destruct (long_prefix (rx (m_sock c))).
  { cbn [final].
    exists taken, (incomingWordSize c), (incomingWord c), (incomingSentence c),
           (sentenceCompleted c).
    split; [exact Ht|].
    now destruct c as [[st bs tx_ btw] u pw w s sc l ws id em]. }
  destruct (n =? -1); [exact H1|].
  destruct (n <? 0); [exact H1|].
  destruct (n =? 0).
  - cbn [final]. exists taken, n, [], (incomingSentence c), (sentenceCompleted c).
    split; [exact Ht|].
    now destruct c as [[st bs tx_ btw] u pw w s sc l ws id em].
  - eapply reads_only_trans; [exact H1|]. apply reads_only_read_body.
Qed.

Lemma reads_only_readSentence_loop (fuel : nat) :
  forall (c : Comm) r,
    readSentence_loop Q_BYTE_ORDER fuel c = Some r -> reads_only c (final r).
Proof.
  induction fuel as [|fuel IH]; intros c r E; [discriminate|].
  cbn [readSentence_loop] in E.
  pose proof (reads_only_readWord c) as Hw.
  destruct (readWord Q_BYTE_ORDER c) as [n c1|what c1|c1]; cbn [final] in Hw.
  - assert (Hdone : forall done, reads_only c (set_sentenceCompleted done c1)).
    { intros done. eapply reads_only_trans; [exact Hw|].
      exists [], (incomingWordSize c1), (incomingWord c1), (incomingSentence c1), done.
      split; [reflexivity|].
      now destruct c1 as [[st bs tx_ btw] u pw w s sc l ws id em]. }
    destruct (n >=? 0).
    + destruct (isEmpty (incomingWord c1)).
      * apply Some_inj in E. subst r. apply Hdone.
      * eapply reads_only_trans; [exact Hw|].
        eapply reads_only_trans; [|exact (IH _ _ E)].
        exists [], (-1), [], (addWord (incomingSentence c1) (incomingWord c1)),
               (sentenceCompleted c1).
        split; [reflexivity|].
        now destruct c1 as [[st bs tx_ btw] u pw w s sc l ws id em].
    + apply Some_inj in E. subst r. apply Hdone.
  - apply Some_inj in E. subst r. exact Hw.
  - apply Some_inj in E. subst r. exact Hw.
Qed.

Lemma reads_only_readSentence (c : Comm) :
  reads_only c (final (readSentence Q_BYTE_ORDER c)).
Proof.
  destruct (readSentence_total Q_BYTE_ORDER c) as (r & E & ->).
  exact (reads_only_readSentence_loop _ _ _ E).
Qed.

(** X22: [readWord] and [readSentence] only read. However they end, the
    bytes left in the socket are a tail of the bytes that were there, and
    nothing of the object changes but the word and the sentence being
    read, the size of the word and the completion flag: no signal is
    emitted, nothing is written, and the state of the socket, the login
    state, the credentials and the tag counter stay as they were. *)
Theorem reading_changes_only_reader_state (c : Comm) :
  reads_only c (final (readWord Q_BYTE_ORDER c))
  /\ reads_only c (final (readSentence Q_BYTE_ORDER c)).
Proof.
  split; [apply reads_only_readWord|].
  destruct (readSentence_total Q_BYTE_ORDER c) as (r & E & ->).
  exact (reads_only_readSentence_loop _ _ _ E).
Qed.

End ReaderFrame.

(** ** The credentials *)

Section CredentialsKept.

Context {sentenceAPI : SentenceAPI}.

Lemma same_credentials_refl (c : Comm) : same_credentials c c.
Proof. split; reflexivity. Qed.

Lemma same_credentials_trans (a b c : Comm) :
  same_credentials a b -> same_credentials b c -> same_credentials a c.
Proof. intros [U1 P1] [U2 P2]. split; congruence. Qed.

Lemma same_credentials_bind {A B} (m : M A) (k : A -> M B) :
  keeps same_credentials m -> (forall a, keeps same_credentials (k a)) ->
  keeps same_credentials (bind m k).
Proof. apply keeps_bind. exact same_credentials_trans. Qed.

Lemma same_credentials_modify (f : Comm -> Comm) :
  (forall c, m_Username (f c) = m_Username c) ->
  (forall c, m_Password (f c) = m_Password c) ->
  keeps same_credentials (modify f).
Proof. intros U P c. split; [apply U | apply P]. Qed.

Lemma same_credentials_emit (s : Signal) : keeps same_credentials (emit s).
Proof. intros c. split; reflexivity. Qed.

Lemma same_credentials_setLoginState (l : LoginState) :
  keeps same_credentials (setLoginState l).
Proof.
  intros c. unfold setLoginState, bind, get.
  destruct (negb _); split; reflexivity.
Qed.

Lemma same_credentials_sent_only (c c' : Comm) :
  sent_only c c' -> same_credentials c c'.
Proof. intros (bytes & id & ->). split; reflexivity. Qed.

Lemma same_credentials_reads_only (c c' : Comm) :
  reads_only c c' -> same_credentials c c'.
Proof.
  intros (taken & size & word & sent & done & _ & E).
  rewrite E. split; reflexivity.
Qed.

End CredentialsKept.

Ltac credentials :=
  repeat match goal with
         | |- keeps same_credentials (bind _ _) =>
             apply same_credentials_bind; [|intros ?]
         | |- keeps same_credentials (ret _) =>
             apply keeps_ret; exact same_credentials_refl
         | |- keeps same_credentials get =>
             apply keeps_get; exact same_credentials_refl
         | |- keeps same_credentials (throw _) =>
             apply keeps_throw; exact same_credentials_refl
         | |- keeps same_credentials (modify _) =>
             apply same_credentials_modify; reflexivity
         | |- keeps same_credentials clear_incomingSentence =>
             apply same_credentials_modify; reflexivity
         | |- keeps same_credentials (emit _) => apply same_credentials_emit
         | |- keeps same_credentials (setLoginState _) =>
             apply same_credentials_setLoginState
         | |- keeps same_credentials (sendWord _ _) =>
             intros ?; apply same_credentials_sent_only, sent_only_sendWord
         | |- keeps same_credentials (match ?x with _ => _ end) => destruct x
         end.

Section Credentials.

Context {sentenceAPI : SentenceAPI}.
Variable Q_BYTE_ORDER : ByteOrder.
Variable MD5 : list byte -> list byte.
Variable loginRequest_slot : QString * QString -> QString * QString.

Lemma same_credentials_sendSentence (sent : QSentence) (addTag : bool) :
  keeps same_credentials (sendSentence Q_BYTE_ORDER sent addTag).
Proof. intros c. apply same_credentials_sent_only, sent_only_sendSentence. Qed.

Lemma same_credentials_m_sock_enter (st : SocketState) :
  st <> ConnectedState ->
  keeps same_credentials (m_sock_enter Q_BYTE_ORDER loginRequest_slot st).
Proof.
  intros Hst. unfold m_sock_enter, onSocketStateChanges.
  apply same_credentials_bind;
    [apply same_credentials_modify; reflexivity | intros _].
  destruct st; try congruence; credentials.
Qed.

Lemma same_credentials_m_sock_disconnectFromHost :
  keeps same_credentials (m_sock_disconnectFromHost Q_BYTE_ORDER loginRequest_slot).
Proof.
  unfold m_sock_disconnectFromHost. credentials;
    apply same_credentials_m_sock_enter; discriminate.
Qed.

Lemma same_credentials_m_sock_close :
  keeps same_credentials (m_sock_close Q_BYTE_ORDER loginRequest_slot).
Proof.
  unfold m_sock_close. credentials.
  apply same_credentials_m_sock_disconnectFromHost.
Qed.

Lemma same_credentials_m_sock_abort :
  keeps same_credentials (m_sock_abort Q_BYTE_ORDER loginRequest_slot).
Proof.
  unfold m_sock_abort. credentials;
    apply same_credentials_m_sock_enter; discriminate.
Qed.

Lemma same_credentials_closeCom (force : bool) :
  keeps same_credentials (closeCom Q_BYTE_ORDER loginRequest_slot force).
Proof.
  unfold closeCom. credentials;
    first [apply same_credentials_m_sock_abort
          | apply same_credentials_m_sock_close
          | apply same_credentials_m_sock_disconnectFromHost].
Qed.

Lemma same_credentials_m_sock_bytesWritten :
  keeps same_credentials (m_sock_bytesWritten Q_BYTE_ORDER loginRequest_slot).
Proof.
  unfold m_sock_bytesWritten. credentials.
  apply same_credentials_m_sock_enter. discriminate.
Qed.

Lemma same_credentials_connectTo (addr : QString) (port : Z) (p : Peer) :
  keeps same_credentials (connectTo Q_BYTE_ORDER loginRequest_slot addr port p).
Proof.
  unfold connectTo, m_sock_connectToHost. credentials.
  apply same_credentials_m_sock_enter. discriminate.
Qed.

Lemma same_credentials_onError (errorString : QString) :
  keeps same_credentials (onError errorString).
Proof. unfold onError. credentials. Qed.

Lemma same_credentials_doLogin :
  keeps same_credentials (doLogin Q_BYTE_ORDER MD5 loginRequest_slot).
Proof. unfold doLogin. credentials; apply same_credentials_m_sock_close. Qed.

Lemma same_credentials_onReadyRead :
  keeps same_credentials (onReadyRead Q_BYTE_ORDER MD5 loginRequest_slot).
Proof.
  unfold onReadyRead. credentials.
  - intros c. apply same_credentials_reads_only.
    apply reads_only_readSentence.
  - apply same_credentials_doLogin.
Qed.

Lemma connected_credentials (c : Comm) :
  let c' := final (m_sock_enter Q_BYTE_ORDER loginRequest_slot ConnectedState c) in
  (m_Username c', m_Password c') = loginRequest_slot (m_Username c, m_Password c).
Proof.
  destruct c as [[st bytes tx_ btw] u pw w s sc l ws id em].
  unfold m_sock_enter, onSocketStateChanges.
  destruct l; run;
    match goal with
    | |- context [sendSentence ?bo ?sent ?a ?c0] =>
        pose proof (same_credentials_sendSentence sent a c0) as [HU HP];
        destruct (sendSentence bo sent a c0) as [? c1|? c1|c1]
    end;
    destruct c1; cbn in HU, HP; subst;
    now destruct (loginRequest_slot (u, pw)).
Qed.

(** X23: the credentials are set in one place. The notification that
    the socket is connected stores what the slot of [loginRequest]
    leaves for the user name and the password it is shown; nothing else
    that runs the object changes them: not the arrival of bytes and the
    login it drives, not [sendSentence], [closeCom] or [connectTo], not
    the other notifications of the socket. *)
Theorem credentials_set_only_on_connect (ev : Event) (p : Peer) (c : Comm) :
  let c' := final (handle Q_BYTE_ORDER MD5 loginRequest_slot ev p c) in
  match ev with
  | on_entry (socket_stateChanged ConnectedState) =>
      (m_Username c', m_Password c')
      = loginRequest_slot (m_Username c, m_Password c)
  | _ => m_Username c' = m_Username c /\ m_Password c' = m_Password c
  end.
Proof.
  cbv zeta.
  destruct ev as [e|addr port|errorString]; cbn [handle].
  - rewrite final_bind_ret.
    destruct e as [sent addTag|force|st| |data]; cbn [enter].
    + rewrite final_bind_ret. apply same_credentials_sendSentence.
    + apply same_credentials_closeCom.
    + destruct st; try (apply same_credentials_m_sock_enter; discriminate).
      apply connected_credentials.
    + apply same_credentials_m_sock_bytesWritten.
    + unfold deliver, bind, modify.
      match goal with
      | |- context [onReadyRead _ _ _ ?c0] =>
          exact (same_credentials_onReadyRead c0)
      end.
  - unfold bind.
    pose proof (same_credentials_connectTo addr port p c) as H.
    now destruct (connectTo _ _ addr port p c).
  - rewrite final_bind_ret. apply same_credentials_onError.
Qed.

End Credentials.

(** ** The end of the loop *)

Section Termination.

Context {sentenceAPI : SentenceAPI}.
Variable Q_BYTE_ORDER : ByteOrder.

(** With no byte of 0x80 or more to read, [readWord] returns. *)
Lemma readWord_returns (c : Comm) :
  Forall (fun b => octet b < 0x80) (rx (m_sock c)) ->
  exists n c', readWord Q_BYTE_ORDER c = Ret n c'.
Proof.
  intros Hall. rewrite readWord_cases.
  destruct (incomingWordSize c <=? 0); [|unfold read_body; cbv zeta; eauto].
  destruct (rx (m_sock c)) as [|b r] eqn:Erx.
  - cbn. eauto.
  - inversion Hall as [|? ? Hb _]; subst.
    rewrite long_prefix_one, read_prefix_one by exact Hb.
    cbv zeta. cbn [fst snd].
    pose proof (octet_range b).
    assert ((octet b =? -1) = false) as -> by lia.
    assert ((octet b <? 0) = false) as -> by lia.
    destruct (octet b =? 0); [eauto|]. unfold read_body; cbv zeta; eauto.
Qed.

Lemma readSentence_loop_returns (fuel : nat) :
  forall (c : Comm) r,
    Forall (fun b => octet b < 0x80) (rx (m_sock c)) ->
    readSentence_loop Q_BYTE_ORDER fuel c = Some r ->
    r = Ret tt (final r).
Proof.
  induction fuel as [|fuel IH]; intros c r Hall E; [discriminate|].
  cbn [readSentence_loop] in E.
  destruct (readWord_returns c Hall) as (n & c1 & Ew).
  pose proof (reads_only_readWord Q_BYTE_ORDER c) as Hr.
  rewrite Ew in E, Hr. cbn [final] in Hr.
  destruct Hr as (taken & _ & _ & _ & _ & Hrx & _).
  rewrite Hrx in Hall. apply Forall_app in Hall as [_ Hall].
  destruct (n >=? 0).
  - destruct (isEmpty (incomingWord c1)).
    + apply Some_inj in E. subst r. reflexivity.
    + apply (IH _ _) in E; [exact E|]. exact Hall.
  - apply Some_inj in E. subst r. reflexivity.
Qed.

(** X24: the loop of [readSentence] ends. A turn after which the loop
    goes on has taken at least one byte from the socket, so the loop
    makes at most one turn more than there are readable bytes: with
    that many turns or more it comes to an end, which is the end of
    [readSentence], and the bytes left are no more than there were. The
    end is one of three: [readSentence] returns; or it throws
    "Incomplete word length arrived."; or the program is ended in it, by
    [readLength] behind a whole prefix of more than one byte. It returns
    whenever no readable byte is 0x80 or more. *)
Theorem readSentence_terminates (c : Comm) (fuel : nat) :
  (length (rx (m_sock c)) < fuel)%nat ->
  exists r,
    readSentence_loop Q_BYTE_ORDER fuel c = Some r
    /\ readSentence Q_BYTE_ORDER c = r
    /\ (length (rx (m_sock (final r))) <= length (rx (m_sock c)))%nat
    /\ (r = Ret tt (final r)
        \/ r = Throw "Incomplete word length arrived." (final r)
        \/ r = Aborted (final r))
    /\ (Forall (fun b => octet b < 0x80) (rx (m_sock c)) -> r = Ret tt (final r)).
Proof.
  intros Hfuel.
  destruct (readSentence_loop_total Q_BYTE_ORDER fuel c Hfuel) as [r E].
  exists r. split; [exact E|].
  split; [exact (readSentence_by_loop Q_BYTE_ORDER fuel c r E)|].
  split.
  { destruct (reads_only_readSentence_loop Q_BYTE_ORDER _ _ _ E)
      as (taken & _ & _ & _ & _ & Hrx & _).
    rewrite Hrx, length_app. lia. }
  split.
  - destruct r as [[] c'|what c'|c']; cbn [final]; auto.
    right; left. apply readSentence_loop_throws in E. now subst what.
  - intros Hall. exact (readSentence_loop_returns fuel c r Hall E).
Qed.

End Termination.

(** ** A prefix of more than one byte *)

Section LongPrefix.

Context {sentenceAPI : SentenceAPI}.
Variable Q_BYTE_ORDER : ByteOrder.
Variable MD5 : list byte -> list byte.
Variable loginRequest_slot : QString * QString -> QString * QString.

(** X25: a word behind a prefix of more than one byte, that is a word of
    0x80 bytes or more, is never received. When short words, of 1 to 0x7F
    bytes each, are followed by a first byte of 0x80 or more and the
    whole of the prefix that it announces, [readSentence] hands the short
    words on to the sentence and the program is then ended in
    [readLength], which has taken the prefix from the socket; nothing is
    emitted and nothing is written, and [onReadyRead] ends in the same
    way, in any login state. *)
Theorem long_prefix_ends_the_program (c : Comm) (words : list QByteArray)
    (b : byte) (more : list byte) :
  incomingWordSize c <= 0 ->
  incomingWord c = [] ->
  Forall (fun w => 0 < count w < 0x80) words ->
  0x80 <= octet b ->
  (prefix_size b <= length (b :: more))%nat ->
  rx (m_sock c) = flat_map wire words ++ b :: more ->
  exists c',
    readSentence Q_BYTE_ORDER c = Aborted c'
    /\ onReadyRead Q_BYTE_ORDER MD5 loginRequest_slot c = Aborted c'
    /\ rx (m_sock c') = skipn (prefix_size b) (b :: more)
    /\ incomingSentence c' = assembled (incomingSentence c) words
    /\ incomingWord c' = []
    /\ emitted c' = emitted c
    /\ tx (m_sock c') = tx (m_sock c)
    /\ m_loginState c' = m_loginState c.
Proof.
  intros Hs Hw Hall Hb Hlen Hrx.
  destruct (readSentence_loop_past_words Q_BYTE_ORDER words c 1 (b :: more)
              Hs Hw Hall Hrx) as (z & Hz & E).
  rewrite readSentence_loop_S, readWord_cases in E.
  cbn [set_incomingWordSize incomingWordSize] in E.
  assert ((z <=? 0) = true) as Ez by lia. rewrite Ez in E.
  cbn [set_incomingWordSize set_incomingSentence with_rx set_m_sock m_sock rx] in E.
  assert (Hl : long_prefix (b :: more) = true).
  { unfold long_prefix. apply andb_true_intro.
    split; [apply Z.leb_le; exact Hb | apply Nat.leb_le; exact Hlen]. }
  rewrite Hl, read_prefix_skipn in E.
  apply readSentence_by_loop in E.
  eexists. split; [exact E|]. split.
  { unfold onReadyRead, bind. rewrite E. reflexivity. }
  destruct c as [[st bytes tx_ btw] u pw w' s sc l ws' id em].
  cbn in Hw. subst w'. repeat split.
Qed.

End LongPrefix.

(** ** The further theorems at sample objects *)

Lemma prefix_length_classes_witness :
  exists b rest,
    encodedLengthData Q_LITTLE_ENDIAN 300 = Some (b :: rest)
    /\ length (b :: rest)
       = (if 300 <? 0x80 then 1%nat else if 300 <? 0x4000 then 2%nat
          else if 300 <? 0x200000 then 3%nat else 4%nat)
    /\ prefix_size b = length (b :: rest).
Proof. apply (prefix_length_classes Q_LITTLE_ENDIAN 300). lia. Defined.

Lemma readLength_consumes_prefix_witness :
  readLength Q_LITTLE_ENDIAN (Sample.connected LogedIn [x05; x41])
  = Ret 5 (Sample.connected LogedIn [x41])
  /\ readLength Q_LITTLE_ENDIAN (Sample.connected LogedIn [x81; x2c; x41])
     = Aborted (Sample.connected LogedIn [x41])
  /\ readLength Q_LITTLE_ENDIAN (Sample.connected LogedIn [xc1; x2c])
     = Ret (-3) (Sample.connected LogedIn []).
Proof.
  split; [|split].
  - destruct (@readLength_consumes_prefix Sample.sentences Q_LITTLE_ENDIAN
                (Sample.connected LogedIn [x05; x41]) x05 [x41] eq_refl)
      as (H & _ & _).
    apply H. vm_compute. reflexivity.
  - destruct (@readLength_consumes_prefix Sample.sentences Q_LITTLE_ENDIAN
                (Sample.connected LogedIn [x81; x2c; x41]) x81 [x2c; x41] eq_refl)
      as (_ & H & _).
    apply H; [vm_compute; discriminate | vm_compute; lia].
  - destruct (@readLength_consumes_prefix Sample.sentences Q_LITTLE_ENDIAN
                (Sample.connected LogedIn [xc1; x2c]) xc1 [x2c] eq_refl)
      as (_ & _ & H).
    apply H. vm_compute. lia.
Defined.

Lemma prefix_uniquely_decodable_witness :
  300 = 300 /\ [x81; x2c] = [x81; x2c] /\ [x41] = [x41].
Proof.
  apply (prefix_uniquely_decodable Q_LITTLE_ENDIAN 300 300
           [x81; x2c] [x81; x2c] [x41] [x41]);
    first [lia | now left | reflexivity].
Defined.

Lemma readSentence_assembles_witness :
  let words := [list_byte_of_string "!re"; list_byte_of_string "=name=ether"] in
  let c := Sample.connected LogedIn
             (x03 :: list_byte_of_string "!re"
              ++ x0b :: list_byte_of_string "=name=ether" ++ [x00; x05]) in
  readSentence Q_LITTLE_ENDIAN c
  = Ret tt
      (set_sentenceCompleted true
         (set_incomingWord []
            (set_incomingWordSize 0
               (set_incomingSentence (assembled (incomingSentence c) words)
                  (with_rx [x05] c))))).
Proof.
  intros words c.
  apply (readSentence_assembles Q_LITTLE_ENDIAN c words [x05]).
  - simpl. lia.
  - reflexivity.
  - repeat constructor; simpl; lia.
  - reflexivity.
Defined.

Lemma sentence_round_trip_witness :
  let sent : @QSentence Sample.sentences :=
    Sample.mkSentence (QS "/interface/print") [(QS "name", QS "ether1")] [] [] [] in
  let c := Sample.connected LogedIn [] in
  let receiver := Sample.connected LogedIn [] in
  let t := if isEmpty (tag sent) then number (int_wrap (ID c + 1)) else tag sent in
  let words := head_words sent ++ (if true then [QS ".tag=" ++ t] else []) in
  let r := sendSentence Q_LITTLE_ENDIAN sent true c in
  exists bytes,
    r = Ret (if true then t else []) (final r)
    /\ tx (m_sock (final r)) = tx (m_sock c) ++ bytes
    /\ readSentence Q_LITTLE_ENDIAN (with_rx (bytes ++ [x07]) receiver)
       = Ret tt
           (set_sentenceCompleted true
              (set_incomingWord []
                 (set_incomingWordSize 0
                    (set_incomingSentence
                       (assembled (incomingSentence receiver) (map toLatin1 words))
                       (with_rx [x07] receiver))))).
Proof.
  intros sent c receiver t words r.
  apply (sentence_round_trip Q_LITTLE_ENDIAN sent true c receiver [x07]).
  - reflexivity.
  - repeat constructor; vm_compute; reflexivity.
  - simpl. lia.
  - reflexivity.
Defined.

Lemma onReadyRead_one_sentence_per_call_witness :
  let first := [list_byte_of_string "!re"; list_byte_of_string "=name=ether"] in
  let second := [list_byte_of_string "!done"] in
  let c := Sample.connected LogedIn
             ((flat_map wire first ++ [x00]) ++ (flat_map wire second ++ [x00]) ++ []) in
  let s1 := assembled (incomingSentence c) first in
  let s2 := assembled (clear s1) second in
  let r1 := onReadyRead Q_LITTLE_ENDIAN Sample.digest16 Sample.credentials c in
  let r2 := onReadyRead Q_LITTLE_ENDIAN Sample.digest16 Sample.credentials (final r1) in
  returned r1 = Some tt
  /\ emitted (final r1) = emitted c ++ [comReceive s1]
  /\ rx (m_sock (final r1)) = (flat_map wire second ++ [x00]) ++ []
  /\ returned r2 = Some tt
  /\ emitted (final r2) = emitted c ++ [comReceive s1; comReceive s2]
  /\ rx (m_sock (final r2)) = [].
Proof.
  intros first second c s1 s2 r1 r2.
  apply (onReadyRead_one_sentence_per_call Q_LITTLE_ENDIAN Sample.digest16
           Sample.credentials c first second []).
  - reflexivity.
  - simpl. lia.
  - reflexivity.
  - repeat constructor; simpl; lia.
  - repeat constructor; simpl; lia.
  - reflexivity.
Defined.

Lemma sendSentence_word_too_long_witness :
  let w : QString := repeat 65%N (Z.to_nat 0x10000000) in
  let sent : @QSentence Sample.sentences :=
    Sample.mkSentence (QS "/system/script/add") [] [] [w] [] in
  let c := Sample.connected LogedIn [] in
  sendSentence Q_LITTLE_ENDIAN sent true c
  = Throw "Word too long" (wrote (frames Q_LITTLE_ENDIAN [QS "/system/script/add"]) c).
Proof.
  intros w sent c.
  apply (sendSentence_word_too_long Q_LITTLE_ENDIAN sent true c
           [QS "/system/script/add"] [] w).
  - reflexivity.
  - reflexivity.
  - unfold sendable, count, w. rewrite repeat_length, Z2Nat.id by lia. reflexivity.
Defined.

Lemma big_endian_short_word_witness :
  let w := QS "/login" in
  let c := Sample.connected LogedIn (frame Q_BIG_ENDIAN w ++ [x00]) in
  frame Q_BIG_ENDIAN w = x00 :: toLatin1 w
  /\ readWord Q_BIG_ENDIAN c
     = Ret 0 (set_incomingWord []
                (set_incomingWordSize 0 (with_rx (toLatin1 w ++ [x00]) c))).
Proof.
  intros w c. apply (big_endian_short_word Q_BIG_ENDIAN w c [x00]).
  - vm_compute. reflexivity.
  - simpl. lia.
  - reflexivity.
Defined.

Lemma doLogin_answer_witness :
  let c := @set_incomingSentence Sample.sentences
             (Sample.mkSentence (QS "!trap") [(QS "message", QS "cannot log in")]
                                [] [] [])
             (Sample.connected UserPassSended []) in
  let r := doLogin Q_LITTLE_ENDIAN Sample.digest16 Sample.credentials c in
  r = Ret tt (final r)
  /\ tx (m_sock (final r)) = tx (m_sock c)
  /\ incomingWordSize (final r) = -1
  /\ incomingSentence (final r) = clear (incomingSentence c)
  /\ (resultType_is_Done (incomingSentence c) = true ->
      m_loginState (final r) = LogedIn
      /\ emitted (final r) = emitted c ++ [loginStateChanged LogedIn]
      /\ m_sock (final r) = m_sock c)
  /\ (resultType_is_Done (incomingSentence c) = false ->
      exists notes,
        m_loginState (final r) = NoLoged
        /\ emitted (final r)
           = emitted c
             ++ [loginStateChanged NoLoged;
                 comError (QS "Invalid Username or Password");
                 comError (QS "remote msg: "
                           ++ attribute (incomingSentence c) (QS "message"))]
             ++ notes
        /\ Forall (fun s => exists st, s = comStateChanged st) notes
        /\ isConnected (final r) = false
        /\ rx (m_sock (final r)) = []).
Proof.
  intros c r.
  apply (doLogin_answer Q_LITTLE_ENDIAN Sample.digest16 Sample.credentials c).
  reflexivity.
Defined.

Lemma doLogin_challenge_checks_witness :
  let c := Sample.awaiting_challenge "00112233445566778899aabbccddeef" in
  let msg :=
    "Unknown remote login sentence format: 'ret' field doesn't contains 32 characters"%string in
  let s := incomingSentence c in
  let r := doLogin Q_LITTLE_ENDIAN Sample.digest16 Sample.credentials c in
  exists notes,
    r = Ret tt (final r)
    /\ emitted (final r)
       = emitted c ++ comError (QS msg) :: loginStateChanged NoLoged :: notes
    /\ Forall (fun s => exists st, s = comStateChanged st) notes
    /\ m_loginState (final r) = NoLoged
    /\ isConnected (final r) = false
    /\ tx (m_sock (final r)) = tx (m_sock c)
    /\ incomingSentence (final r)
       = (if resultType_is_Done s then clear s else s)
    /\ incomingWordSize (final r) = incomingWordSize c.
Proof.
  intros c msg s r.
  apply (doLogin_challenge_checks Q_LITTLE_ENDIAN Sample.digest16
           Sample.credentials c msg).
  - reflexivity.
  - reflexivity.
Defined.

Lemma exceptions_by_event_witness :
  let c := Sample.connected LogedIn [] in
  "Incomplete word length arrived."%string = "Incomplete word length arrived."%string
  \/ ("Incomplete word length arrived."%string = "Word too long"%string
      /\ m_loginState c = LoginRequested).
Proof.
  intros c.
  apply (exceptions_by_event Q_LITTLE_ENDIAN Sample.digest16 Sample.credentials
           (on_entry (socket_readyRead [x81])) (mkPeer [] 0) c
           (set_incomingWordSize (-2) c)
           "Incomplete word length arrived.").
  reflexivity.
Defined.

Lemma LogedIn_only_after_Done_witness :
  let c := Sample.connected UserPassSended [] in
  let ev : @Event Sample.sentences :=
    on_entry (socket_readyRead (x05 :: list_byte_of_string "!done" ++ [x00])) in
  m_loginState c = UserPassSended
  /\ exists data c1,
       ev = on_entry (socket_readyRead data)
       /\ readSentence Q_LITTLE_ENDIAN (arrive data c) = Ret tt c1
       /\ sentenceCompleted c1 = true
       /\ resultType_is_Done (incomingSentence c1) = true.
Proof.
  intros c ev.
  apply (LogedIn_only_after_Done Q_LITTLE_ENDIAN Sample.digest16
           Sample.credentials ev (mkPeer [] 0) c).
  - discriminate.
  - reflexivity.
Defined.

Lemma connected_starts_login_witness :
  let c := Sample.connected LogedIn [] in
  let sent : @QSentence Sample.sentences := QSentence_ctor (QS "/login") in
  let r := m_sock_enter Q_LITTLE_ENDIAN Sample.credentials ConnectedState c in
  let c' := final r in
  r = Ret tt c'
  /\ emitted c'
     = emitted c ++ comStateChanged Connected
         :: (if LoginState_eqb NoLoged (m_loginState c) then []
             else [loginStateChanged NoLoged])
         ++ [loginRequest; loginStateChanged LoginRequested]
  /\ (m_Username c', m_Password c')
     = Sample.credentials (m_Username c, m_Password c)
  /\ m_loginState c' = LoginRequested
  /\ tx (m_sock c')
     = tx (m_sock c) ++ frames Q_LITTLE_ENDIAN (head_words sent) ++ [x00]
  /\ ID c' = ID c
  /\ incomingSentence c' = clear (incomingSentence c)
  /\ incomingWord c' = incomingWord c
  /\ incomingWordSize c' = incomingWordSize c
  /\ state (m_sock c') = ConnectedState.
Proof.
  intros c sent r c'.
  apply (connected_starts_login Q_LITTLE_ENDIAN Sample.credentials c).
  reflexivity.
Defined.

Lemma readSentence_resumes_witness :
  let c := Sample.connected LogedIn [] in
  let ws1 := [list_byte_of_string "!re"] in
  let w := list_byte_of_string "=name=ether" in
  let ws2 := [list_byte_of_string "=mtu=1500"] in
  let a := flat_map wire ws1 ++ firstn 4 (wire w) in
  let b := skipn 4 (wire w) ++ flat_map wire ws2 ++ x00 :: [x05] in
  let r1 := readSentence Q_LITTLE_ENDIAN (arrive a c) in
  let r2 := readSentence Q_LITTLE_ENDIAN (arrive b (final r1)) in
  r1 = Ret tt (final r1)
  /\ sentenceCompleted (final r1) = false
  /\ r2 = readSentence Q_LITTLE_ENDIAN (arrive (a ++ b) c)
  /\ r2 = Ret tt
            (set_sentenceCompleted true
               (set_incomingWord []
                  (set_incomingWordSize 0
                     (set_incomingSentence
                        (assembled (incomingSentence c) (ws1 ++ w :: ws2))
                        (with_rx [x05] c))))).
Proof.
  intros c ws1 w ws2 a b r1 r2.
  apply (readSentence_resumes Q_LITTLE_ENDIAN c ws1 ws2 w 4 [x05]).
  - simpl. lia.
  - reflexivity.
  - reflexivity.
  - repeat constructor; simpl; lia.
  - simpl. lia.
Defined.

Lemma NoLoged_keeps_the_sentence_witness :
  let first := [list_byte_of_string "!re"; list_byte_of_string "=name=ether"] in
  let second := [list_byte_of_string "!done"] in
  let c := Sample.connected NoLoged
             ((flat_map wire first ++ [x00]) ++ (flat_map wire second ++ [x00]) ++ []) in
  let r1 := onReadyRead Q_LITTLE_ENDIAN Sample.digest16 Sample.credentials c in
  let r2 := onReadyRead Q_LITTLE_ENDIAN Sample.digest16 Sample.credentials (final r1) in
  r1 = Ret tt (final r1)
  /\ emitted (final r1) = emitted c
  /\ tx (m_sock (final r1)) = tx (m_sock c)
  /\ incomingSentence (final r1) = assembled (incomingSentence c) first
  /\ r2 = Ret tt (final r2)
  /\ emitted (final r2) = emitted c
  /\ tx (m_sock (final r2)) = tx (m_sock c)
  /\ incomingSentence (final r2) = assembled (incomingSentence c) (first ++ second)
  /\ m_loginState (final r2) = NoLoged.
Proof.
  intros first second c r1 r2.
  apply (NoLoged_keeps_the_sentence Q_LITTLE_ENDIAN Sample.digest16
           Sample.credentials c first second []).
  - reflexivity.
  - simpl. lia.
  - reflexivity.
  - repeat constructor; simpl; lia.
  - repeat constructor; simpl; lia.
  - reflexivity.
Defined.

Lemma readSentence_terminates_witness :
  let c := Sample.connected LogedIn (x03 :: list_byte_of_string "!r") in
  exists r,
    readSentence_loop Q_LITTLE_ENDIAN 4 c = Some r
    /\ readSentence Q_LITTLE_ENDIAN c = r
    /\ (length (rx (m_sock (final r))) <= length (rx (m_sock c)))%nat
    /\ (r = Ret tt (final r)
        \/ r = Throw "Incomplete word length arrived." (final r)
        \/ r = Aborted (final r))
    /\ (Forall (fun b => octet b < 0x80) (rx (m_sock c)) -> r = Ret tt (final r)).
Proof.
  intros c. apply (readSentence_terminates Q_LITTLE_ENDIAN c 4).
  simpl. lia.
Defined.

Lemma long_prefix_ends_the_program_witness :
  let words := [list_byte_of_string "!re"] in
  let c := Sample.connected LogedIn (flat_map wire words ++ x81 :: [x2c; x41]) in
  exists c',
    readSentence Q_LITTLE_ENDIAN c = Aborted c'
    /\ onReadyRead Q_LITTLE_ENDIAN Sample.digest16 Sample.credentials c = Aborted c'
    /\ rx (m_sock c') = skipn (prefix_size x81) (x81 :: [x2c; x41])
    /\ incomingSentence c' = assembled (incomingSentence c) words
    /\ incomingWord c' = []
    /\ emitted c' = emitted c
    /\ tx (m_sock c') = tx (m_sock c)
    /\ m_loginState c' = m_loginState c.
Proof.
  intros words c.
  apply (long_prefix_ends_the_program Q_LITTLE_ENDIAN Sample.digest16
           Sample.credentials c words x81 [x2c; x41]).
  - simpl. lia.
  - reflexivity.
  - repeat constructor; simpl; lia.
  - vm_compute. discriminate.
  - vm_compute. lia.
  - reflexivity.
Defined.
